(** * s3like: packaging typed outputs into per-category zip archives

    A shallow embedding of [s3like/__init__.py] (compute-studio-storage
    1.5.0) and the properties of its serializers, archive builder, archive
    reader and the two orchestrators [write_to_s3like] / [read_from_s3like].

    Conventions of the embedding.
    - A Python [str] is the list of its code points ([pystr]); a [bytes]
      object is the list of its byte values.  Both are lists of [N].
    - Python exceptions are values of [error]; a computation that may raise
      has type [result A].  [write_to_s3like] also updates the blob store,
      so it lives in the state-and-error monad [io].
    - Dictionaries whose iteration order the code relies on are insertion
      ordered association lists; the others are [gmap]s.  The dictionaries
      of the two schemas are records with the declared fields.
    - The library calls are modelled after CPython 3.11 on a POSIX system:
      [str.encode] / [bytes.decode] (strict UTF-8), [json.dumps] /
      [json.loads] with their defaults, [str.endswith], [zipfile.ZipFile]
      ([writestr], [read]) and [Schema.load] of marshmallow 3, which raises.
    - Python floats are not part of the value type [pyval]: the JSON number
      space modelled here is the integers, and a JSON text with a float is
      where the model of [json.loads] stops ([FloatNotModelled]).
    - The integer string conversion limit is the default of CPython 3.11,
      4300 digits.  The recursion depth that is left when [serialize]
      enters the C encoder of [json] and when [deserialize] enters its C
      scanner depends on the caller: the two depths are the variables
      [encoder_depth] and [scanner_depth] of the section [Interpreter].
      Entering a list or a dictionary takes one level.  An exception that
      the C code raises by way of Python code (the [TypeError] of
      [JSONEncoder.default], the [JSONDecodeError] of the scanner's own
      messages) needs a few levels too: within that margin of the limit
      the interpreter raises [RecursionError] in its place.  The model does
      not follow the margin, and no statement below depends on which of
      the two exceptions is raised there.  Memory is not bounded.
    - A zip container is identified with the ordered list of its members
      (name and content); its byte layout is not modelled.  The archives in
      the store are those [zipfile] writes the way this module calls it
      (stored members, no encryption); what [zipfile] makes of archives
      from elsewhere is outside the model.
    - The blob store is a finite map from keys to byte strings, and its
      client is available ([fs_gcsfs] is importable); the section on the
      import guard covers the other case. *)

From Stdlib Require Import NArith ZArith String Ascii List Lia.
From stdpp Require Import base option list gmap.

Local Ltac Zify.zify_post_hook ::= Z.to_euclidean_division_equations.

(* ================================================================== *)
(** * Part I: the model *)
(* ================================================================== *)

(** ** Strings, bytes, exceptions *)

Abbreviation pystr := (list N).
Abbreviation bytes := (list N).

(** A string literal of the source, as a list of code points. *)
Fixpoint lit (s : string) : pystr :=
  match s with
  | EmptyString => []
  | String a s' => N_of_ascii a :: lit s'
  end.

Inductive error : Type :=
| ValidationError    (* marshmallow.ValidationError raised by Schema.load *)
| UnknownMediaType   (* KeyError of the dict literal in get_serializer *)
| MissingCategory    (* KeyError of loc_result[category] / read[category] *)
| BlobNotFound       (* the blob store has no object under the key *)
| MissingMember      (* KeyError of ZipFile.read *)
| DecodeError        (* UnicodeDecodeError, json.JSONDecodeError *)
| EncodeError        (* UnicodeEncodeError *)
| TypeError          (* TypeError of json.dumps and ZipFile.writestr *)
| AttributeError     (* data.encode() on a value that is not a str *)
| IndexError         (* IndexError: the last character of an empty member name *)
| StructError        (* struct.error: member name longer than 65535 bytes *)
| BadZipFile         (* zipfile.BadZipFile: the bytes are no zip container *)
| ValueError         (* an int above the limit of the int/str conversion *)
| RecursionError     (* maximum recursion depth exceeded in json *)
| OutOfFuel          (* the scanner of the model out of fuel; [json_loads] never is *)
| FloatNotModelled.  (* the JSON text denotes a Python float *)

Inductive result (A : Type) : Type :=
| Ok (a : A)
| Err (e : error).
Arguments Ok {A} a.
Arguments Err {A} e.

Global Instance result_ret : MRet result := @Ok.
Global Instance result_bind : MBind result :=
  λ A B f m, match m with Ok a => f a | Err e => Err e end.

Global Instance error_eq_dec : EqDecision error.
Proof. solve_decision. Defined.

Global Instance result_eq_dec {A : Type} `{EqDecision A} : EqDecision (result A).
Proof. solve_decision. Defined.

(** The loop [for x in l: s = f(s, x)] with exceptions. *)
Fixpoint foldM {A S : Type} (f : S → A → result S) (s : S) (l : list A) : result S :=
  match l with
  | [] => Ok s
  | x :: l' => s' ← f s x; foldM f s' l'
  end.

(** ** Python values that an output may carry *)

#[warnings="-register-all"]
Inductive pyval : Type :=
| PNone
| PBool (b : bool)
| PInt (z : Z)
| PStr (s : pystr)
| PBytes (b : bytes)
| PList (l : list pyval)
| PDict (d : list (pystr * pyval)).

(** [d[k] = v] on an insertion-ordered dictionary: an existing key keeps its
    position and takes the new value, a new key goes last. *)
Fixpoint dict_set {K V : Type} `{EqDecision K} (d : list (K * V)) (k : K) (v : V)
  : list (K * V) :=
  match d with
  | [] => [(k, v)]
  | (k', v') :: d' => if decide (k' = k) then (k, v) :: d' else (k', v') :: dict_set d' k v
  end.

(** [str.endswith]. *)
Definition endswith (s suffix : pystr) : bool :=
  bool_decide (drop (length s - length suffix) s = suffix).

(** ** [str.encode()] and [bytes.decode()]: strict UTF-8 *)

Definition is_surrogate (c : N) : bool := ((0xD800 <=? c) && (c <=? 0xDFFF))%N.

(** The strings [str.encode()] accepts: Unicode scalar values only. *)
Definition is_scalar (c : N) : bool := ((c <? 0x110000) && negb (is_surrogate c))%N.
Definition scalar_str (s : pystr) : bool := forallb is_scalar s.

Definition encode_char (c : N) : result bytes :=
  (if c <? 0x80 then Ok [c]
   else if c <? 0x800 then Ok [0xC0 + c / 64; 0x80 + c mod 64]
   else if c <? 0x10000 then
     if is_surrogate c then Err EncodeError
     else Ok [0xE0 + c / 4096; 0x80 + (c / 64) mod 64; 0x80 + c mod 64]
   else if c <? 0x110000 then
     Ok [0xF0 + c / 262144; 0x80 + (c / 4096) mod 64;
         0x80 + (c / 64) mod 64; 0x80 + c mod 64]
   else Err EncodeError)%N.

Fixpoint str_encode (s : pystr) : result bytes :=
  match s with
  | [] => Ok []
  | c :: s' => b ← encode_char c; bs ← str_encode s'; Ok (b ++ bs)
  end.

Definition is_cont (b : N) : bool := ((0x80 <=? b) && (b <=? 0xBF))%N.

Fixpoint bytes_decode (data : bytes) : result pystr :=
  match data with
  | [] => Ok []
  | b0 :: r =>
    if (b0 <? 0x80)%N then s ← bytes_decode r; Ok (b0 :: s)
    else if (b0 <? 0xC2)%N then Err DecodeError
    else if (b0 <? 0xE0)%N then
      match r with
      | b1 :: r1 =>
        if is_cont b1
        then s ← bytes_decode r1; Ok (((b0 - 0xC0) * 64 + (b1 - 0x80))%N :: s)
        else Err DecodeError
      | _ => Err DecodeError
      end
    else if (b0 <? 0xF0)%N then
      match r with
      | b1 :: b2 :: r2 =>
        let c := ((b0 - 0xE0) * 4096 + (b1 - 0x80) * 64 + (b2 - 0x80))%N in
        if is_cont b1 && is_cont b2 && negb (c <? 0x800)%N && negb (is_surrogate c)
        then s ← bytes_decode r2; Ok (c :: s)
        else Err DecodeError
      | _ => Err DecodeError
      end
    else if (b0 <? 0xF5)%N then
      match r with
      | b1 :: b2 :: b3 :: r3 =>
        let c := ((b0 - 0xF0) * 262144 + (b1 - 0x80) * 4096
                  + (b2 - 0x80) * 64 + (b3 - 0x80))%N in
        if is_cont b1 && is_cont b2 && is_cont b3
           && negb (c <? 0x10000)%N && (c <? 0x110000)%N
        then s ← bytes_decode r3; Ok (c :: s)
        else Err DecodeError
      | _ => Err DecodeError
      end
    else Err DecodeError
  end.

(** ** [json.dumps] with its default settings

    [ensure_ascii=True], separators [", "] and [": "], keys in insertion
    order.  Dictionary keys are strings in this model. *)

(** [repr] of a non-negative [int]: its decimal digits, most significant
    first.  [fuel] bounds the number of digits. *)
Fixpoint digits_fuel (fuel : nat) (n : N) : pystr :=
  match fuel with
  | O => []
  | S fuel' =>
    if (n <? 10)%N then [(48 + n)%N]
    else digits_fuel fuel' (n / 10)%N ++ [(48 + n mod 10)%N]
  end.

Definition digits (n : N) : pystr := digits_fuel (S (N.to_nat (N.log2 n))) n.

Definition int_repr (z : Z) : pystr :=
  match z with
  | Zneg p => 45%N :: digits (Npos p)
  | _ => digits (Z.to_N z)
  end.

(** [sys.get_int_max_str_digits()], by default. *)
Definition max_str_digits : N := 4300.

(** [repr] of an [int] as the interpreter computes it: it raises above
    [max_str_digits] digits, the sign not counted. *)
Definition int_str (z : Z) : result pystr :=
  if (max_str_digits <? N.of_nat (length (digits (Z.abs_N z))))%N then Err ValueError
  else Ok (int_repr z).

Definition hexdigit (d : N) : N := (if d <? 10 then 48 + d else 87 + d)%N.

(** A backslash, the letter u and four lower-case hexadecimal digits. *)
Definition u_escape (n : N) : pystr :=
  [92; 117; hexdigit ((n / 4096) mod 16); hexdigit ((n / 256) mod 16);
   hexdigit ((n / 16) mod 16); hexdigit (n mod 16)]%N.

(** The replacement function of [encode_basestring_ascii]: it is applied to
    the backslash, the double quote and every character outside the
    printable ASCII range from space to tilde; the others are kept. *)
Definition escape_char (c : N) : pystr :=
  (if c =? 34 then [92; 34]
   else if c =? 92 then [92; 92]
   else if c =? 10 then [92; 110]
   else if c =? 13 then [92; 114]
   else if c =? 9 then [92; 116]
   else if c =? 12 then [92; 102]
   else if c =? 8 then [92; 98]
   else if (32 <=? c) && (c <=? 126) then [c]
   else if c <? 0x10000 then u_escape c
   else
     let n := c - 0x10000 in
     let s1 := N.lor 0xd800 (N.land (N.shiftr n 10) 0x3ff) in
     let s2 := N.lor 0xdc00 (N.land n 0x3ff) in
     u_escape s1 ++ u_escape s2)%N.

Definition encode_basestring_ascii (s : pystr) : pystr :=
  [34%N] ++ concat (map escape_char s) ++ [34%N].

(** [separator.join(items)] *)
Fixpoint join (separator : pystr) (items : list pystr) : pystr :=
  match items with
  | [] => []
  | [x] => x
  | x :: items' => x ++ separator ++ join separator items'
  end.

(** The C encoder enters a recursive call for every list and dictionary
    before it looks at the items: [depth] is the recursion depth that is
    left. *)
Fixpoint json_dumps (depth : nat) (o : pyval) {struct o} : result pystr :=
  match o with
  | PNone => Ok (lit "null")
  | PBool true => Ok (lit "true")
  | PBool false => Ok (lit "false")
  | PInt z => int_str z
  | PStr s => Ok (encode_basestring_ascii s)
  | PBytes _ => Err TypeError
  | PList l =>
    match depth with
    | O => Err RecursionError
    | S depth' =>
      items ← (fix dumps_items (l : list pyval) : result (list pystr) :=
                 match l with
                 | [] => Ok []
                 | x :: l' => t ← json_dumps depth' x; ts ← dumps_items l'; Ok (t :: ts)
                 end) l;
      Ok (lit "[" ++ join (lit ", ") items ++ lit "]")
    end
  | PDict d =>
    match depth with
    | O => Err RecursionError
    | S depth' =>
      items ← (fix dumps_pairs (d : list (pystr * pyval)) : result (list pystr) :=
                 match d with
                 | [] => Ok []
                 | (k, v) :: d' =>
                   t ← json_dumps depth' v; ts ← dumps_pairs d';
                   Ok ((encode_basestring_ascii k ++ lit ": " ++ t) :: ts)
                 end) d;
      Ok (lit "{" ++ join (lit ", ") items ++ lit "}")
    end
  end.

(** ** [json.loads]

    The scanner follows [json.scanner] and [json.decoder]: it works on the
    remaining input and returns the value read with the input left.  Its
    recursion is bounded by a fuel that [json_loads] derives from the length
    of the text: a nesting level spends at most two units for a character
    it consumes.  Apart from the fuel, which is a device of the model, the
    scanner takes the recursion depth that is left: the C scanner enters a
    recursive call at every opening brace and bracket. *)

Definition is_ws (c : N) : bool := ((c =? 32) || (c =? 9) || (c =? 10) || (c =? 13))%N.

Fixpoint skip_ws (s : pystr) : pystr :=
  match s with
  | c :: r => if is_ws c then skip_ws r else s
  | [] => []
  end.

Definition is_digit (c : N) : bool := ((48 <=? c) && (c <=? 57))%N.

Definition hexval (c : N) : option N :=
  (if (48 <=? c) && (c <=? 57) then Some (c - 48)
   else if (97 <=? c) && (c <=? 102) then Some (c - 87)
   else if (65 <=? c) && (c <=? 70) then Some (c - 55)
   else None)%N.

Definition hex4 (a b c d : N) : option N :=
  x1 ← hexval a; x2 ← hexval b; x3 ← hexval c; x4 ← hexval d;
  Some (x1 * 4096 + x2 * 256 + x3 * 16 + x4)%N.

(** The table [BACKSLASH] of [json.decoder]. *)
Definition backslash (e : N) : option N :=
  (if e =? 34 then Some 34
   else if e =? 92 then Some 92
   else if e =? 47 then Some 47
   else if e =? 98 then Some 8
   else if e =? 102 then Some 12
   else if e =? 110 then Some 10
   else if e =? 114 then Some 13
   else if e =? 116 then Some 9
   else None)%N.

Definition is_high_surrogate (c : N) : bool := ((0xd800 <=? c) && (c <=? 0xdbff))%N.
Definition is_low_surrogate (c : N) : bool := ((0xdc00 <=? c) && (c <=? 0xdfff))%N.

Definition join_surrogates (uni uni2 : N) : N :=
  (0x10000 + N.lor (N.shiftl (uni - 0xd800) 10) (uni2 - 0xdc00))%N.

(** [scanstring], entered after the opening quote, in strict mode. *)
Fixpoint scanstring (s : pystr) : result (pystr * pystr) :=
  match s with
  | [] => Err DecodeError
  | c :: r =>
    if (c =? 34)%N then Ok ([], r)
    else if (c =? 92)%N then
      match r with
      | [] => Err DecodeError
      | e :: r1 =>
        if (e =? 117)%N then
          match r1 with
          | h1 :: h2 :: h3 :: h4 :: r2 =>
            match r2 with
            | [] => Err DecodeError
            | _ :: _ =>
              match hex4 h1 h2 h3 h4 with
              | None => Err DecodeError
              | Some uni =>
                let lone := '(t, rest) ← scanstring r2; Ok (uni :: t, rest) in
                if is_high_surrogate uni then
                  match r2 with
                  | b :: u :: g1 :: g2 :: g3 :: g4 :: r3 =>
                    match r3 with
                    | [] => lone
                    | _ :: _ =>
                      if ((b =? 92) && (u =? 117))%N then
                        match hex4 g1 g2 g3 g4 with
                        | None => Err DecodeError
                        | Some uni2 =>
                          if is_low_surrogate uni2
                          then '(t, rest) ← scanstring r3;
                               Ok (join_surrogates uni uni2 :: t, rest)
                          else lone
                        end
                      else lone
                    end
                  | _ => lone
                  end
                else lone
              end
            end
          | _ => Err DecodeError
          end
        else
          match backslash e with
          | Some ch => '(t, rest) ← scanstring r1; Ok (ch :: t, rest)
          | None => Err DecodeError
          end
      end
    else if (c <? 32)%N then Err DecodeError
    else '(t, rest) ← scanstring r; Ok (c :: t, rest)
  end.

(** [int(numstr)] on a string of decimal digits. *)
Definition int_of_digits (ds : pystr) : N :=
  fold_left (λ acc d, acc * 10 + (d - 48))%N ds 0%N.

Fixpoint span_digits (s : pystr) : pystr * pystr :=
  match s with
  | c :: r => if is_digit c then let '(ds, r') := span_digits r in (c :: ds, r') else ([], s)
  | [] => ([], [])
  end.

(** After the integer part: is a fraction or an exponent next? *)
Definition has_frac (rest : pystr) : bool :=
  match rest with
  | c :: d :: _ => (c =? 46)%N && is_digit d
  | _ => false
  end.

Definition has_exp (rest : pystr) : bool :=
  match rest with
  | e :: x :: r =>
    ((e =? 101) || (e =? 69))%N &&
    (if ((x =? 45) || (x =? 43))%N && negb (bool_decide (r = []))
     then match r with d :: _ => is_digit d | [] => false end
     else is_digit x)
  | _ => false
  end.

Definition finish_number (neg : bool) (intpart rest : pystr) : result (pyval * pystr) :=
  if has_frac rest || has_exp rest then Err FloatNotModelled
  else if (max_str_digits <? N.of_nat (length intpart))%N then Err ValueError
  else
    let n := Z.of_N (int_of_digits intpart) in
    Ok (PInt (if neg then (- n)%Z else n), rest).

(** The integer part: a zero, or a non-zero digit and the digits after it. *)
Definition match_integer (neg : bool) (s : pystr) : result (pyval * pystr) :=
  match s with
  | [] => Err DecodeError
  | d :: r =>
    if ((49 <=? d) && (d <=? 57))%N
    then let '(ds, r') := span_digits r in finish_number neg (d :: ds) r'
    else if (d =? 48)%N then finish_number neg [d] r
    else Err DecodeError
  end.

Definition match_number (s : pystr) : result (pyval * pystr) :=
  match s with
  | c :: r => if (c =? 45)%N then match_integer true r else match_integer false s
  | [] => Err DecodeError
  end.

Fixpoint strip_prefix (p s : pystr) : option pystr :=
  match p, s with
  | [], _ => Some s
  | a :: p', b :: s' => if (a =? b)%N then strip_prefix p' s' else None
  | _ :: _, [] => None
  end.

Fixpoint scan_once (fuel depth : nat) (s : pystr) {struct fuel} : result (pyval * pystr) :=
  match fuel with
  | O => Err OutOfFuel
  | S n =>
    match s with
    | [] => Err DecodeError
    | c :: r =>
      if (c =? 34)%N then '(str, rest) ← scanstring r; Ok (PStr str, rest)
      else if (c =? 123)%N then
        match depth with
        | O => Err RecursionError
        | S depth' =>
          match skip_ws r with
          | c' :: r' =>
            if (c' =? 125)%N then Ok (PDict [], r') else parse_object n depth' [] (c' :: r')
          | [] => Err DecodeError
          end
        end
      else if (c =? 91)%N then
        match depth with
        | O => Err RecursionError
        | S depth' =>
          match skip_ws r with
          | c' :: r' =>
            if (c' =? 93)%N then Ok (PList [], r') else parse_array n depth' [] (c' :: r')
          | [] => Err DecodeError
          end
        end
      else
        match strip_prefix (lit "null") s, strip_prefix (lit "true") s,
              strip_prefix (lit "false") s with
        | Some rest, _, _ => Ok (PNone, rest)
        | _, Some rest, _ => Ok (PBool true, rest)
        | _, _, Some rest => Ok (PBool false, rest)
        | _, _, _ =>
          if bool_decide (is_Some (strip_prefix (lit "NaN") s))
             || bool_decide (is_Some (strip_prefix (lit "Infinity") s))
             || bool_decide (is_Some (strip_prefix (lit "-Infinity") s))
          then Err FloatNotModelled
          else match_number s
        end
    end
  end
with parse_array (fuel depth : nat) (acc : list pyval) (s : pystr) {struct fuel}
  : result (pyval * pystr) :=
  match fuel with
  | O => Err OutOfFuel
  | S n =>
    '(val, r) ← scan_once n depth s;
    match skip_ws r with
    | c :: r' =>
      if (c =? 93)%N then Ok (PList (acc ++ [val]), r')
      else if (c =? 44)%N then parse_array n depth (acc ++ [val]) (skip_ws r')
      else Err DecodeError
    | [] => Err DecodeError
    end
  end
with parse_object (fuel depth : nat) (acc : list (pystr * pyval)) (s : pystr) {struct fuel}
  : result (pyval * pystr) :=
  match fuel with
  | O => Err OutOfFuel
  | S n =>
    match s with
    | c :: r =>
      if (c =? 34)%N then
        '(key, r1) ← scanstring r;
        match skip_ws r1 with
        | c1 :: r2 =>
          if (c1 =? 58)%N then
            '(val, r3) ← scan_once n depth (skip_ws r2);
            match skip_ws r3 with
            | c2 :: r4 =>
              if (c2 =? 125)%N then Ok (PDict (dict_set acc key val), r4)
              else if (c2 =? 44)%N then parse_object n depth (dict_set acc key val) (skip_ws r4)
              else Err DecodeError
            | [] => Err DecodeError
            end
          else Err DecodeError
        | [] => Err DecodeError
        end
      else Err DecodeError
    | [] => Err DecodeError
    end
  end.

Definition json_loads (depth : nat) (s : pystr) : result pyval :=
  match s with
  | c :: _ => if (c =? 0xfeff)%N then Err DecodeError else Ok ()
  | [] => Ok ()
  end;;
  '(obj, rest) ← scan_once (2 * length s + 2) depth (skip_ws s);
  match skip_ws rest with
  | [] => Ok obj
  | _ :: _ => Err DecodeError
  end.

(** ** The schemas

    The dictionaries handed to the orchestrators are modelled by records
    whose fields have the Python types the schemas declare; what is left
    for [Schema.load] to check is the [OneOf] validator of [media_type] and
    that [data], a plain [fields.Field()], is not [None]. *)

Inductive category : Type := renderable | downloadable.

Global Instance category_eq_dec : EqDecision category.
Proof. solve_decision. Defined.

Global Instance category_countable : Countable category.
Proof.
  refine (inj_countable'
            (λ c, match c with renderable => false | downloadable => true end)
            (λ b : bool, if b then downloadable else renderable) _).
  by intros [].
Defined.

(** The category as it is spelled in a key. *)
Definition category_name (c : category) : pystr :=
  match c with
  | renderable => lit "renderable"
  | downloadable => lit "downloadable"
  end.

Definition media_type_choices : list pystr :=
  [ lit "bokeh"; lit "table"; lit "CSV"; lit "PNG"; lit "JPEG"; lit "MP3";
    lit "MP4"; lit "HDF5"; lit "PDF"; lit "Markdown"; lit "Text" ].

Definition OneOf (choices : list pystr) (value : pystr) : bool :=
  bool_decide (value ∈ choices).

Module LocalOutput.
Record t : Type := mk { title : pystr; media_type : pystr; data : pyval }.
End LocalOutput.

Module RemoteOutput.
Record t : Type := mk { title : pystr; media_type : pystr; filename : pystr }.
End RemoteOutput.

Record RemoteOutputCategory : Type :=
  { outputs : list RemoteOutput.t; ziplocation : pystr }.

(** A local result maps categories to their outputs; a remote result is the
    manifest, whose iteration order [read_from_s3like] follows. *)
Abbreviation LocalResult := (gmap category (list LocalOutput.t)).
Abbreviation RemoteResult := (list (category * RemoteOutputCategory)).

Definition is_None (v : pyval) : bool :=
  match v with PNone => true | _ => false end.

(** What [LocalOutput] accepts: a media type of the enumeration and a
    [data] that is not [None] ([allow_none] is off by default). *)
Definition LocalOutput_valid (o : LocalOutput.t) : bool :=
  OneOf media_type_choices (LocalOutput.media_type o) && negb (is_None (LocalOutput.data o)).

Definition LocalResult_load (loc_result : LocalResult) : result () :=
  if forallb
       (λ c, match loc_result !! c with
             | Some outs => forallb LocalOutput_valid outs
             | None => true
             end)
       [renderable; downloadable]
  then Ok ()
  else Err ValidationError.

Definition RemoteResult_load (rem_result : RemoteResult) : result () :=
  if forallb
       (λ entry : category * RemoteOutputCategory,
          forallb (λ o, OneOf media_type_choices (RemoteOutput.media_type o))
            (outputs entry.2))
       rem_result
  then Ok ()
  else Err ValidationError.

(** ** The serializer classes

    [Serializer] is the identity on the payload, [JSONSerializer] goes
    through [json.dumps] / [json.loads], [TextSerializer] through
    [str.encode] / [bytes.decode].  Each carries its extension [ext]. *)

Inductive serializer : Type :=
| Serializer (ext : pystr)
| JSONSerializer (ext : pystr)
| TextSerializer (ext : pystr).

Global Instance serializer_eq_dec : EqDecision serializer.
Proof. solve_decision. Defined.

(** The rest of the development is relative to the recursion depth that
    the interpreter has left when [JSONSerializer.serialize] reaches the C
    encoder and when [JSONSerializer.deserialize] reaches the C scanner. *)
Section Interpreter.

Variables encoder_depth scanner_depth : nat.

Definition ext (self : serializer) : pystr :=
  match self with
  | Serializer e | JSONSerializer e | TextSerializer e => e
  end.

Definition serialize (self : serializer) (data : pyval) : result pyval :=
  match self with
  | Serializer _ => Ok data
  | JSONSerializer _ => s ← json_dumps encoder_depth data; b ← str_encode s; Ok (PBytes b)
  | TextSerializer _ =>
    match data with
    | PStr s => b ← str_encode s; Ok (PBytes b)
    | _ => Err AttributeError
    end
  end.

(** [deserialize] is only ever applied to what [ZipFile.read] returns, a
    [bytes] object. *)
Definition deserialize (self : serializer) (data : bytes) : result pyval :=
  match self with
  | Serializer _ => Ok (PBytes data)
  | JSONSerializer _ => s ← bytes_decode data; json_loads scanner_depth s
  | TextSerializer _ => s ← bytes_decode data; Ok (PStr s)
  end.

(** The dict literal of [get_serializer]. *)
Definition serializers : list (pystr * serializer) :=
  [ (lit "bokeh", JSONSerializer (lit "json"));
    (lit "table", TextSerializer (lit "html"));
    (lit "CSV", TextSerializer (lit "csv"));
    (lit "PNG", Serializer (lit "png"));
    (lit "JPEG", Serializer (lit "jpeg"));
    (lit "MP3", Serializer (lit "mp3"));
    (lit "MP4", Serializer (lit "mp4"));
    (lit "HDF5", Serializer (lit "h5"));
    (lit "PDF", Serializer (lit "pdf"));
    (lit "Markdown", TextSerializer (lit "md"));
    (lit "Text", TextSerializer (lit "txt")) ].

Definition get_serializer (media_type : pystr) : result serializer :=
  match (list_to_map serializers : gmap pystr serializer) !! media_type with
  | Some s => Ok s
  | None => Err UnknownMediaType
  end.

(** ** [zipfile.ZipFile] over an in-memory buffer

    An archive is the list of its members in the order they were written.
    [writestr] stores a member under the name [ZipInfo] normalises (cut at
    the first NUL character), which must be non-empty, encodable and at most
    65535 bytes long; writing a name twice adds a second member.  Opening an
    archive for reading fills [NameToInfo] member by member, so that a later
    member replaces an earlier one of the same name. *)

Abbreviation ZipFile := (list (pystr * bytes)).

Fixpoint sanitize_filename (filename : pystr) : pystr :=
  match filename with
  | [] => []
  | c :: r => if (c =? 0)%N then [] else c :: sanitize_filename r
  end.

Definition writestr (zipfileobj : ZipFile) (arcname : pystr) (data : pyval)
  : result ZipFile :=
  data ← match data with
         | PStr s => b ← str_encode s; Ok (PBytes b)
         | _ => Ok data
         end;
  let filename := sanitize_filename arcname in
  (if bool_decide (filename = []) then Err IndexError else Ok ());;
  content ← match data with
            | PNone | PBool _ | PInt _ => Err TypeError
            | _ => Ok data
            end;
  encoded ← str_encode filename;
  if (65535 <? N.of_nat (length encoded))%N then Err StructError
  else
    match content with
    | PBytes b => Ok (zipfileobj ++ [(filename, b)])
    | _ => Err TypeError
    end.

Definition NameToInfo (zipfileobj : ZipFile) : gmap pystr bytes :=
  foldl (λ m member, <[member.1 := member.2]> m) ∅ zipfileobj.

Definition zip_read (zipfileobj : ZipFile) (name : pystr) : result bytes :=
  match NameToInfo zipfileobj !! name with
  | Some b => Ok b
  | None => Err MissingMember
  end.

(** ** The blob store and the monad of [write_to_s3like]

    The store maps keys to byte strings.  [zip_bytes z] stands for the bytes
    of a zip container with the members [z], which is what the buffer of a
    closed archive holds; [other_bytes b] for bytes in which [zipfile] finds
    no zip container, so that opening them raises [BadZipFile].  A container
    that another tool made and that [zipfile] opens but cannot read
    (a compression method it lacks, an encrypted or a damaged member) is
    neither of the two: the store of the model holds no such blob. *)

Inductive blob : Type :=
| zip_bytes (zipfileobj : ZipFile)
| other_bytes (b : bytes).

Abbreviation GCSFS := (gmap pystr blob).

(** [zipfile.ZipFile(io.BytesIO(res))] *)
Definition ZipFile_open (res : blob) : result ZipFile :=
  match res with
  | zip_bytes zipfileobj => Ok zipfileobj
  | other_bytes _ => Err BadZipFile
  end.

Definition io (A : Type) : Type := GCSFS → GCSFS * result A.

Global Instance io_ret : MRet io := λ A a gcsfs, (gcsfs, Ok a).
Global Instance io_bind : MBind io :=
  λ A B f m gcsfs,
    match m gcsfs with
    | (gcsfs', Ok a) => f a gcsfs'
    | (gcsfs', Err e) => (gcsfs', Err e)
    end.

Definition lift {A : Type} (r : result A) : io A := λ gcsfs, (gcsfs, r).

(** [with gcsfs.open(key, "wb") as f: f.write(content)] *)
Definition gcsfs_write (key : pystr) (content : blob) : io () :=
  λ gcsfs, (<[key := content]> gcsfs, Ok ()).

(** [with gcsfs.open(key, "rb") as f: res = f.read()] *)
Definition gcsfs_read (gcsfs : GCSFS) (key : pystr) : result blob :=
  match gcsfs !! key with
  | Some content => Ok content
  | None => Err BlobNotFound
  end.

Fixpoint foldM_io {A S : Type} (f : S → A → io S) (s : S) (l : list A) : io S :=
  match l with
  | [] => mret s
  | x :: l' => s' ← f s x; foldM_io f s' l'
  end.

(** ** [write_to_s3like] *)

(** Lines 120-122: the member name of an output. *)
Definition output_filename (title : pystr) (serializer : serializer) : pystr :=
  let filename := title in
  if negb (endswith filename (lit "." ++ ext serializer))
  then filename ++ lit "." ++ ext serializer
  else filename.

(** The body of the inner loop, on the archive being built and the
    ["outputs"] list of the manifest entry. *)
Definition write_output (st : ZipFile * list RemoteOutput.t) (output : LocalOutput.t)
  : result (ZipFile * list RemoteOutput.t) :=
  let '(zipfileobj, rem_outputs) := st in
  serializer ← get_serializer (LocalOutput.media_type output);
  ser ← serialize serializer (LocalOutput.data output);
  let filename := output_filename (LocalOutput.title output) serializer in
  zipfileobj ← writestr zipfileobj filename ser;
  Ok (zipfileobj,
      rem_outputs ++ [ {| RemoteOutput.title := LocalOutput.title output;
                          RemoteOutput.media_type := LocalOutput.media_type output;
                          RemoteOutput.filename := filename |} ]).

(** The inner loop from a fresh archive: the archive builder. *)
Definition build_archive (outs : list LocalOutput.t)
  : result (ZipFile * list RemoteOutput.t) :=
  foldM write_output ([], []) outs.

(** The body of the outer loop. *)
Definition write_category (task_id : pystr) (loc_result : LocalResult)
    (do_upload : bool) (rem_result : RemoteResult) (cat : category) : io RemoteResult :=
  let ziplocation := task_id ++ lit "_" ++ category_name cat ++ lit ".zip" in
  outs ← lift (match loc_result !! cat with
               | Some outs => Ok outs
               | None => Err MissingCategory
               end);
  built ← lift (build_archive outs);
  (if do_upload then gcsfs_write ziplocation (zip_bytes built.1) else mret ());;
  mret (dict_set rem_result cat {| outputs := built.2; ziplocation := ziplocation |}).

Definition write_to_s3like (task_id : pystr) (loc_result : LocalResult)
    (do_upload : bool) : io RemoteResult :=
  lift (LocalResult_load loc_result);;
  foldM_io (write_category task_id loc_result do_upload) [] [renderable; downloadable].

(** ** [read_from_s3like] *)

(** The body of the inner loop. *)
Definition read_output (zipfileobj : ZipFile) (cat : category) (read : LocalResult)
    (rem_output : RemoteOutput.t) : result LocalResult :=
  ser ← get_serializer (RemoteOutput.media_type rem_output);
  raw ← zip_read zipfileobj (RemoteOutput.filename rem_output);
  rem_data ← deserialize ser raw;
  match read !! cat with
  | Some l =>
    Ok (<[cat := l ++ [ {| LocalOutput.title := RemoteOutput.title rem_output;
                           LocalOutput.media_type := RemoteOutput.media_type rem_output;
                           LocalOutput.data := rem_data |} ]]> read)
  | None => Err MissingCategory
  end.

(** The body of the outer loop. *)
Definition read_category (gcsfs : GCSFS) (read : LocalResult)
    (entry : category * RemoteOutputCategory) : result LocalResult :=
  res ← gcsfs_read gcsfs (ziplocation entry.2);
  zipfileobj ← ZipFile_open res;
  foldM (read_output zipfileobj entry.1) read (outputs entry.2).

Definition read_from_s3like (gcsfs : GCSFS) (rem_result : RemoteResult)
  : result LocalResult :=
  RemoteResult_load rem_result;;
  foldM (read_category gcsfs) {[ renderable := []; downloadable := [] ]} rem_result.

(** ** The import guard (lines 9-12, 105-108 and 142)

    When [fs_gcsfs] cannot be imported the module binds [GCSFS] to [None].
    [write_to_s3like] then takes [None] for its client and fails where it
    calls [gcsfs.open]; [read_from_s3like] calls [GCSFS(BUCKET)] before
    anything else.  The functions below take the binding as an argument;
    with [GCSFS_class] they are the functions above. *)

Inductive GCSFS_binding : Type := GCSFS_class | GCSFS_None.

(** [with gcsfs.open(key, "wb") as f: f.write(content)], where [gcsfs] may
    be [None]. *)
Definition gcsfs_open_wb (binding : GCSFS_binding) (key : pystr) (content : blob) : io () :=
  match binding with
  | GCSFS_class => gcsfs_write key content
  | GCSFS_None => lift (Err AttributeError)
  end.

Definition write_category_in (binding : GCSFS_binding) (task_id : pystr)
    (loc_result : LocalResult) (do_upload : bool) (rem_result : RemoteResult)
    (cat : category) : io RemoteResult :=
  let ziplocation := task_id ++ lit "_" ++ category_name cat ++ lit ".zip" in
  outs ← lift (match loc_result !! cat with
               | Some outs => Ok outs
               | None => Err MissingCategory
               end);
  built ← lift (build_archive outs);
  (if do_upload then gcsfs_open_wb binding ziplocation (zip_bytes built.1) else mret ());;
  mret (dict_set rem_result cat {| outputs := built.2; ziplocation := ziplocation |}).

Definition write_to_s3like_in (binding : GCSFS_binding) (task_id : pystr)
    (loc_result : LocalResult) (do_upload : bool) : io RemoteResult :=
  lift (LocalResult_load loc_result);;
  foldM_io (write_category_in binding task_id loc_result do_upload) []
    [renderable; downloadable].

(** Without the class, [GCSFS(BUCKET)] calls [None]: a [TypeError]. *)
Definition read_from_s3like_in (binding : GCSFS_binding) (gcsfs : GCSFS)
    (rem_result : RemoteResult) : result LocalResult :=
  match binding with
  | GCSFS_class => read_from_s3like gcsfs rem_result
  | GCSFS_None => Err TypeError
  end.

(* ================================================================== *)
(** * Part II: value spaces and reference functions *)
(* ================================================================== *)

(** The JSON-compatible values without floats whose text [json.loads]
    reads back: null, booleans, integers within the limit of the string
    conversion, strings of Unicode scalar values, sequences, and mappings
    with pairwise distinct string keys (the keys of a Python dictionary are
    distinct). *)
Definition digits_ok (z : Z) : bool :=
  (N.of_nat (length (digits (Z.abs_N z))) <=? max_str_digits)%N.

Fixpoint json_value (v : pyval) : bool :=
  match v with
  | PNone | PBool _ => true
  | PInt z => digits_ok z
  | PStr s => scalar_str s
  | PBytes _ => false
  | PList l => forallb json_value l
  | PDict d =>
    bool_decide (NoDup (map fst d))
    && forallb (λ kv : pystr * pyval, scalar_str kv.1 && json_value kv.2) d
  end.

(** How deep the lists and dictionaries of a value are nested. *)
Fixpoint nesting (v : pyval) : nat :=
  match v with
  | PList l => S (foldr Nat.max 0 (map nesting l))
  | PDict d => S (foldr Nat.max 0 (map (λ kv : pystr * pyval, nesting kv.2) d))
  | _ => 0
  end.

(** The value space on which a serializer round-trips: raw bytes for the
    identity variant, text for the text variant, and for the structured
    variant the JSON-compatible values above whose nesting the encoder and
    the scanner have the recursion depth for. *)
Definition supported (ser : serializer) (data : pyval) : bool :=
  match ser with
  | Serializer _ => match data with PBytes _ => true | _ => false end
  | TextSerializer _ => match data with PStr s => scalar_str s | _ => false end
  | JSONSerializer _ =>
    json_value data && (nesting data <=? encoder_depth) && (nesting data <=? scanner_depth)
  end.

Definition utf8_length (s : pystr) : N :=
  fold_right (λ c n, (if c <? 0x80 then 1 else if c <? 0x800 then 2
                      else if c <? 0x10000 then 3 else 4) + n)%N 0%N s.

(** The member names a zip archive stores as they are: no NUL character,
    Unicode scalar values only, at most 65535 bytes of UTF-8. *)
Definition storable_name (name : pystr) : bool :=
  forallb (λ c, negb (c =? 0)%N) name && scalar_str name
  && (utf8_length name <=? 65535)%N.

(** The member name of a local output. *)
Definition filename_of (o : LocalOutput.t) : result pystr :=
  ser ← get_serializer (LocalOutput.media_type o);
  Ok (output_filename (LocalOutput.title o) ser).

(** An output that passes validation, that the builder can store and that
    the reader can give back. *)
Definition well_formed (o : LocalOutput.t) : bool :=
  match get_serializer (LocalOutput.media_type o) with
  | Ok ser =>
    negb (is_None (LocalOutput.data o))
    && supported ser (LocalOutput.data o)
    && storable_name (output_filename (LocalOutput.title o) ser)
  | Err _ => false
  end.


(** The manifest entry of a local output. *)
Definition remote_of (o : LocalOutput.t) (filename : pystr) : RemoteOutput.t :=
  {| RemoteOutput.title := LocalOutput.title o;
     RemoteOutput.media_type := LocalOutput.media_type o;
     RemoteOutput.filename := filename |}.

(** Last write wins: the output of [outs] written last under the member
    name of [o]. *)
Definition last_written (outs : list LocalOutput.t) (o : LocalOutput.t) : LocalOutput.t :=
  default o (last (filter (λ o', filename_of o' = filename_of o) outs)).

(** What reading gives back for [outs]: every entry keeps its title and
    media type and takes the data last written under its member name. *)
Definition read_back (outs : list LocalOutput.t) : list LocalOutput.t :=
  map (λ o, {| LocalOutput.title := LocalOutput.title o;
               LocalOutput.media_type := LocalOutput.media_type o;
               LocalOutput.data := LocalOutput.data (last_written outs o) |}) outs.

(** The title without the extension [e], if it ends with it. *)
Definition stem (title e : pystr) : pystr :=
  if endswith title (lit "." ++ e)
  then take (length title - length (lit "." ++ e)) title
  else title.

(** The key under which the archive of a category is stored. *)
Definition archive_key (task_id : pystr) (cat : category) : pystr :=
  task_id ++ lit "_" ++ category_name cat ++ lit ".zip".

(** The outputs a manifest entry decodes to, read off the archive it names. *)
Definition decode_entry (zipfileobj : ZipFile) (e : RemoteOutput.t) : result LocalOutput.t :=
  ser ← get_serializer (RemoteOutput.media_type e);
  raw ← zip_read zipfileobj (RemoteOutput.filename e);
  rem_data ← deserialize ser raw;
  Ok {| LocalOutput.title := RemoteOutput.title e;
        LocalOutput.media_type := RemoteOutput.media_type e;
        LocalOutput.data := rem_data |}.

Fixpoint mapM {A B : Type} (f : A → result B) (l : list A) : result (list B) :=
  match l with
  | [] => Ok []
  | x :: l' => y ← f x; ys ← mapM f l'; Ok (y :: ys)
  end.

Definition decode_category (gcsfs : GCSFS) (c : RemoteOutputCategory)
  : result (list LocalOutput.t) :=
  res ← gcsfs_read gcsfs (ziplocation c);
  zipfileobj ← ZipFile_open res;
  mapM (decode_entry zipfileobj) (outputs c).

(** [d.get(k)] on an insertion-ordered dictionary. *)
Fixpoint dict_get {K V : Type} `{EqDecision K} (d : list (K * V)) (k : K) : option V :=
  match d with
  | [] => None
  | (k', v) :: d' => if decide (k' = k) then Some v else dict_get d' k
  end.

(** The member name, the member content and the manifest entry that the
    builder derives from a well-formed output. *)
Definition name_of (o : LocalOutput.t) : pystr :=
  match filename_of o with
  | Ok filename => filename
  | Err _ => []
  end.

Definition content_of (o : LocalOutput.t) : bytes :=
  match ser ← get_serializer (LocalOutput.media_type o);
        serialize ser (LocalOutput.data o) with
  | Ok (PBytes b) => b
  | _ => []
  end.

Definition member_of (o : LocalOutput.t) : pystr * bytes := (name_of o, content_of o).

Definition entry_of (o : LocalOutput.t) : RemoteOutput.t := remote_of o (name_of o).

(** What [read_from_s3like] makes of category [c] of a manifest. *)
Definition decoded_for (gcsfs : GCSFS) (rem_result : RemoteResult) (c : category)
  : result (list LocalOutput.t) :=
  match dict_get rem_result c with
  | Some entry => decode_category gcsfs entry
  | None => Ok []
  end.

(** ** Auxiliary predicates and tactics of the proofs *)

(** Decide the comparisons on code points that occur in a goal. *)
Ltac cmp :=
  repeat match goal with
    | |- context [N.ltb ?a ?b] => destruct (N.ltb_spec a b); try (exfalso; lia)
    | |- context [N.leb ?a ?b] => destruct (N.leb_spec a b); try (exfalso; lia)
    | |- context [N.eqb ?a ?b] => destruct (N.eqb_spec a b); try (exfalso; lia)
    end.

(** The input after a number: the end of the text or a delimiter. *)
Definition delimited (rest : pystr) : Prop :=
  match rest with
  | [] => True
  | c :: _ => c = 44%N ∨ c = 93%N ∨ c = 125%N
  end.

(** Replace the string literals of a goal by their code points. *)
Ltac eval_lits :=
  repeat match goal with
    | |- context [lit ?s] =>
      let x := eval vm_compute in (lit s) in change (lit s) with x
    end.

Ltac eval_lits_in H :=
  repeat match type of H with
    | context [lit ?s] =>
      let x := eval vm_compute in (lit s) in change (lit s) with x in H
    end.

Definition dumps_pair (depth : nat) (kv : pystr * pyval) : result pystr :=
  t ← json_dumps depth kv.2; Ok (encode_basestring_ascii kv.1 ++ lit ": " ++ t).

(** The first character of the text of a value. *)
Definition value_start (c : N) : Prop :=
  c = 34%N ∨ c = 123%N ∨ c = 91%N ∨ c = 110%N ∨ c = 116%N ∨ c = 102%N
  ∨ c = 45%N ∨ is_digit c = true.

(** What the scanner does on the text of a value [v]: with fuel twice the
    length of the text and a recursion depth that covers the nesting of [v]
    it reads [v] back and stops at the delimiter. *)
Definition scans_back (v : pyval) (t : pystr) : Prop :=
  Forall (λ c, c < 128)%N t
  ∧ (∃ c t', t = c :: t' ∧ value_start c)
  ∧ ∀ n depth rest, 2 * length t ≤ n → nesting v ≤ depth → delimited rest →
      scan_once n depth (t ++ rest) = Ok (v, rest).

(** The text of a key-value pair, seen by the scanner. *)
Definition pair_scans_back (kv : pystr * pyval) (t : pystr) : Prop :=
  scalar_str kv.1 = true
  ∧ ∃ tv, scans_back kv.2 tv ∧ t = encode_basestring_ascii kv.1 ++ [58; 32]%N ++ tv.

(** A run of the scanner on [s] that did not run out of fuel and, if it
    read a value, consumed input. *)
Definition fuelled (run : result (pyval * pystr)) (s : pystr) : Prop :=
  run ≠ Err OutOfFuel ∧ ∀ v r, run = Ok (v, r) → length r < length s.

(** The values [json.dumps] returns on when the recursion depth [depth] is
    left: no [bytes] object anywhere, every integer within the limit of the
    string conversion, lists and dictionaries nested at most [depth] deep. *)
Fixpoint json_encodable (depth : nat) (v : pyval) {struct v} : bool :=
  match v with
  | PNone | PBool _ | PStr _ => true
  | PInt z => digits_ok z
  | PBytes _ => false
  | PList l =>
    match depth with
    | O => false
    | S depth' => forallb (json_encodable depth') l
    end
  | PDict d =>
    match depth with
    | O => false
    | S depth' => forallb (λ kv : pystr * pyval, json_encodable depth' kv.2) d
    end
  end.

(** The errors a run of the scanner may end in. *)
Definition scan_errors : list error :=
  [DecodeError; FloatNotModelled; ValueError; RecursionError; OutOfFuel].

Definition scanned (run : result (pyval * pystr)) : Prop :=
  match run with
  | Ok _ => True
  | Err e => e ∈ scan_errors
  end.

(** Exceptions that the two orchestrators raise. *)
Definition write_errors : list error :=
  [ValidationError; MissingCategory; AttributeError; EncodeError; TypeError;
   ValueError; RecursionError; IndexError; StructError].

Definition read_errors : list error :=
  [ValidationError; BlobNotFound; BadZipFile; MissingMember; DecodeError;
   ValueError; RecursionError].

(** Empty lists nested [n] deep inside one another. *)
Fixpoint nested (n : nat) : pyval :=
  match n with
  | O => PList []
  | S n' => PList [nested n']
  end.

(** Membership in a list of exceptions that is written out. *)
Ltac among :=
  by repeat first [apply list_elem_of_here | apply list_elem_of_further].

Ltac among_from H :=
  repeat (apply elem_of_cons in H as [->|H]);
  try (by apply elem_of_nil in H); among.

(** Equality of two local results, category by category. *)
Ltac two_categories :=
  first [ done | apply map_eq; intros []; by simplify_map_eq ].

(** ** Concrete inputs *)

(** The local result of the end-to-end example. *)
Definition example_result : LocalResult :=
  {[ renderable :=
       [ {| LocalOutput.title := lit "plot"; LocalOutput.media_type := lit "bokeh";
            LocalOutput.data := PDict [(lit "a", PInt 1)] |} ];
     downloadable := [] ]}.

(** Two outputs of one category with the same title and media type. *)
Definition colliding_outputs : list LocalOutput.t :=
  [ {| LocalOutput.title := lit "a"; LocalOutput.media_type := lit "Text";
       LocalOutput.data := PStr (lit "x") |};
    {| LocalOutput.title := lit "a"; LocalOutput.media_type := lit "Text";
       LocalOutput.data := PStr (lit "y") |} ].

Definition colliding_result : LocalResult :=
  {[ renderable := colliding_outputs; downloadable := [] ]}.







(** What writing [example_result] under the task identifier t1 stores and
    returns. *)
Definition example_store : GCSFS :=
  {[ lit "t1_renderable.zip" :=
       zip_bytes [ (lit "plot.json", [123; 34; 97; 34; 58; 32; 49; 125]%N) ];
     lit "t1_downloadable.zip" := zip_bytes [] ]}.

Definition example_manifest : RemoteResult :=
  [ (renderable,
     {| outputs := [ {| RemoteOutput.title := lit "plot";
                        RemoteOutput.media_type := lit "bokeh";
                        RemoteOutput.filename := lit "plot.json" |} ];
        ziplocation := lit "t1_renderable.zip" |});
    (downloadable, {| outputs := []; ziplocation := lit "t1_downloadable.zip" |}) ].

(** A local result with a media type outside the enumeration. *)
Definition gif_result : LocalResult :=
  {[ renderable :=
       [ {| LocalOutput.title := lit "anim"; LocalOutput.media_type := lit "GIF";
            LocalOutput.data := PBytes [71; 73; 70]%N |} ];
     downloadable := [] ]}.

(** A manifest whose first category names a member its archive lacks and
    whose second category names a key the store lacks, and that store. *)
Definition stale_manifest : RemoteResult :=
  [ (renderable,
     {| outputs := [ {| RemoteOutput.title := lit "a";
                        RemoteOutput.media_type := lit "Text";
                        RemoteOutput.filename := lit "a.txt" |} ];
        ziplocation := lit "t1_renderable.zip" |});
    (downloadable, {| outputs := []; ziplocation := lit "t1_downloadable.zip" |}) ].

Definition stale_store : GCSFS := {[ lit "t1_renderable.zip" := zip_bytes [] ]}.

(** A manifest with a media type outside the enumeration. *)
Definition gif_manifest : RemoteResult :=
  [ (renderable,
     {| outputs := [ {| RemoteOutput.title := lit "anim";
                        RemoteOutput.media_type := lit "GIF";
                        RemoteOutput.filename := lit "anim.gif" |} ];
        ziplocation := lit "t1_renderable.zip" |}) ].

(** A manifest with the downloadable category only, and a store for it. *)
Definition downloadable_manifest : RemoteResult :=
  [ (downloadable,
     {| outputs := [ {| RemoteOutput.title := lit "notes";
                        RemoteOutput.media_type := lit "Markdown";
                        RemoteOutput.filename := lit "notes.md" |} ];
        ziplocation := lit "t2_downloadable.zip" |}) ].

Definition downloadable_store : GCSFS :=
  {[ lit "t2_downloadable.zip" := zip_bytes [ (lit "notes.md", lit "# hi") ] ]}.

(** A local result with one renderable output. *)
Definition one_output (title media_type : pystr) (data : pyval) : LocalResult :=
  {[ renderable := [ {| LocalOutput.title := title; LocalOutput.media_type := media_type;
                        LocalOutput.data := data |} ];
     downloadable := [] ]}.

(** A local result without the downloadable category. *)
Definition renderable_only : LocalResult := {[ renderable := [] ]}.

(** A store whose renderable archive is no zip container. *)
Definition broken_store : GCSFS := {[ lit "t1_renderable.zip" := other_bytes [80; 75]%N ]}.

(** A store whose member is no UTF-8 text. *)
Definition undecodable_store : GCSFS :=
  {[ lit "t1_renderable.zip" := zip_bytes [ (lit "a.txt", [255%N]) ] ]}.

(** A second local result, and what writing it under t1 and under t2
    leaves in a store that was empty or held the archives of
    [example_result]. *)
Definition other_result : LocalResult :=
  one_output (lit "notes") (lit "Markdown") (PStr (lit "# hi")).

Definition other_manifest (task_id : pystr) : RemoteResult :=
  [ (renderable,
     {| outputs := [ {| RemoteOutput.title := lit "notes";
                        RemoteOutput.media_type := lit "Markdown";
                        RemoteOutput.filename := lit "notes.md" |} ];
        ziplocation := task_id ++ lit "_renderable.zip" |});
    (downloadable, {| outputs := []; ziplocation := task_id ++ lit "_downloadable.zip" |}) ].

Definition other_store : GCSFS :=
  {[ lit "t1_renderable.zip" := zip_bytes [ (lit "notes.md", lit "# hi") ];
     lit "t1_downloadable.zip" := zip_bytes [] ]}.

(** A recursion depth for the statements at concrete inputs: the default
    recursion limit of CPython, an upper bound of the depth that is left
    to a call under that limit. *)
Definition example_depth : nat := 1000.

(** An integer of 4301 digits, one more than the conversion limit. *)
Definition huge_int : Z := 10 ^ 4300.



(* ================================================================== *)
(** * Part III: lemmas *)
(* ================================================================== *)

(** ** The result monad *)

Lemma bind_Ok {A B : Type} (m : result A) (f : A → result B) (b : B) :
  m ≫= f = Ok b ↔ ∃ a, m = Ok a ∧ f a = Ok b.
Proof.
  destruct m as [a|e]; simpl.
  - split; [eauto | by intros (a' & [= ->] & ?)].
  - split; [done | by intros (a' & ? & ?)].
Qed.

(** ** UTF-8 *)

Lemma is_scalar_spec (c : N) :
  is_scalar c = true ↔ (c < 0xD800 ∨ 0xDFFF < c < 0x110000)%N.
Proof. unfold is_scalar, is_surrogate. cmp; simpl; split; (done || lia). Qed.

Lemma decode_tail (e c : N) (m : result pystr) :
  e = c → (m ≫= λ s, Ok (e :: s)) = (m ≫= λ s, Ok (c :: s)).
Proof. by intros ->. Qed.

Lemma encode_decode_char (c : N) :
  is_scalar c = true →
  ∃ b, encode_char c = Ok b ∧
       ∀ rest, bytes_decode (b ++ rest) = s ← bytes_decode rest; Ok (c :: s).
Proof.
  intros Hc%is_scalar_spec. unfold encode_char, is_surrogate.
  destruct (N.ltb_spec c 0x80); [|destruct (N.ltb_spec c 0x800);
    [|destruct (N.ltb_spec c 0x10000); [|destruct (N.ltb_spec c 0x110000); [|exfalso; lia]]]].
  - eexists; split; [done|]. intros rest. cbn [app bytes_decode]. by cmp.
  - eexists; split; [done|]. intros rest. cbn [app bytes_decode]. unfold is_cont.
    cmp. cbn [andb]. apply decode_tail. lia.
  - cmp; cbn [andb]; try lia. all: eexists; (split; [done|]); intros rest.
    all: cbn [app bytes_decode]; unfold is_cont, is_surrogate.
    all: cmp; cbn [andb negb]; apply decode_tail; lia.
  - eexists; split; [done|]. intros rest. cbn [app bytes_decode]. unfold is_cont.
    cmp. cbn [andb negb]. apply decode_tail. lia.
Qed.

Lemma encode_decode (s : pystr) :
  scalar_str s = true → ∃ b, str_encode s = Ok b ∧ bytes_decode b = Ok s.
Proof.
  induction s as [|c s IH]; intros Hs.
  - by exists [].
  - apply andb_prop in Hs as [Hc Hs].
    destruct (encode_decode_char c Hc) as (b & Hb & Hdec).
    destruct (IH Hs) as (bs & Hbs & Hdecs).
    exists (b ++ bs). split.
    + cbn [str_encode]. by rewrite Hb, Hbs.
    + by rewrite Hdec, Hdecs.
Qed.

Lemma encode_char_length (c : N) (b : bytes) :
  encode_char c = Ok b →
  N.of_nat (length b)
  = (if c <? 0x80 then 1 else if c <? 0x800 then 2 else if c <? 0x10000 then 3 else 4)%N.
Proof.
  unfold encode_char. destruct (c <? 0x80)%N; [by intros [= <-]|].
  destruct (c <? 0x800)%N; [by intros [= <-]|].
  destruct (c <? 0x10000)%N; [destruct (is_surrogate c); [done | by intros [= <-]]|].
  destruct (c <? 0x110000)%N; [by intros [= <-] | done].
Qed.

Lemma str_encode_length (s : pystr) (b : bytes) :
  str_encode s = Ok b → N.of_nat (length b) = utf8_length s.
Proof.
  revert b. induction s as [|c s IH]; intros b.
  - by intros [= <-].
  - cbn [str_encode]. intros (bc & Hc & (bs & Hs & [= <-])%bind_Ok)%bind_Ok.
    rewrite length_app, Nat2N.inj_add, (encode_char_length _ _ Hc), (IH _ Hs). done.
Qed.

(** An ASCII string is its own encoding. *)
Lemma encode_ascii (s : pystr) :
  Forall (λ c, c < 128)%N s → str_encode s = Ok s.
Proof.
  induction 1 as [|c s Hc _ IH]; [done|].
  cbn [str_encode]. rewrite IH. unfold encode_char.
  destruct (N.ltb_spec c 0x80); [done | lia].
Qed.

Lemma decode_ascii (s : pystr) :
  Forall (λ c, c < 128)%N s → bytes_decode s = Ok s.
Proof.
  induction 1 as [|c s Hc _ IH]; [done|].
  cbn [bytes_decode]. rewrite IH.
  destruct (N.ltb_spec c 0x80); [done | lia].
Qed.
(** ** Decimal integers *)

Lemma is_digit_spec (c : N) : is_digit c = true ↔ (48 ≤ c ≤ 57)%N.
Proof. unfold is_digit. cmp; simpl; split; (done || lia). Qed.

Lemma int_of_digits_snoc (ds : pystr) (d : N) :
  int_of_digits (ds ++ [d]) = (int_of_digits ds * 10 + (d - 48))%N.
Proof. unfold int_of_digits. by rewrite fold_left_app. Qed.

Lemma digits_fuel_spec (fuel : nat) (n : N) :
  (n < 2 ^ N.of_nat fuel)%N → (0 < fuel)%nat →
  int_of_digits (digits_fuel fuel n) = n
  ∧ Forall (λ c, is_digit c = true) (digits_fuel fuel n)
  ∧ ∃ d ds, digits_fuel fuel n = d :: ds
            ∧ ((n = 0%N ∧ d = 48%N ∧ ds = []) ∨ (n ≠ 0%N ∧ 49 ≤ d ≤ 57)%N).
Proof.
  revert n. induction fuel as [|fuel IH]; intros n Hn Hfuel; [lia|].
  cbn [digits_fuel]. destruct (N.ltb_spec n 10) as [Hlt|Hge].
  - split; [unfold int_of_digits; simpl; lia|]. split.
    + constructor; [apply is_digit_spec; lia | constructor].
    + exists (48 + n)%N, []. split; [done|].
      destruct (decide (n = 0%N)) as [->|]; [by left | right; lia].
  - assert (n / 10 < 2 ^ N.of_nat fuel)%N as Hq.
    { rewrite Nat2N.inj_succ, N.pow_succ_r' in Hn.
      pose proof (N.pow_nonzero 2 (N.of_nat fuel)). lia. }
    assert (0 < fuel)%nat as Hpos.
    { destruct fuel; [simpl in Hq; lia | lia]. }
    destruct (IH _ Hq Hpos) as (Hv & Hall & d & ds & Heq & Hd).
    split; [rewrite int_of_digits_snoc, Hv; lia|]. split.
    + apply Forall_app. split; [done|].
      constructor; [apply is_digit_spec; lia | constructor].
    + rewrite Heq. exists d, (ds ++ [(48 + n mod 10)%N]). split; [done|].
      right. destruct Hd as [(H0 & _)|Hd]; lia.
Qed.

Lemma digits_spec (n : N) :
  int_of_digits (digits n) = n
  ∧ Forall (λ c, is_digit c = true) (digits n)
  ∧ ∃ d ds, digits n = d :: ds
            ∧ ((n = 0%N ∧ d = 48%N ∧ ds = []) ∨ (n ≠ 0%N ∧ 49 ≤ d ≤ 57)%N).
Proof.
  apply digits_fuel_spec; [|lia]. rewrite Nat2N.inj_succ, N2Nat.id, N.pow_succ_r'.
  destruct (decide (n = 0%N)) as [->|Hn]; [done|].
  pose proof (N.log2_spec n). rewrite N.pow_succ_r' in *. lia.
Qed.

Lemma span_digits_app (ds rest : pystr) :
  Forall (λ c, is_digit c = true) ds →
  match rest with [] => True | c :: _ => is_digit c = false end →
  span_digits (ds ++ rest) = (ds, rest).
Proof.
  intros Hds Hrest. induction Hds as [|d ds Hd _ IH]; simpl.
  - destruct rest as [|c rest]; [done|]. simpl. by rewrite Hrest.
  - by rewrite Hd, IH.
Qed.

Lemma delimited_no_digit (rest : pystr) :
  delimited rest → match rest with [] => True | c :: _ => is_digit c = false end.
Proof. destruct rest as [|c rest]; [done|]. by intros [->|[->| ->]]. Qed.

Lemma delimited_no_float (rest : pystr) :
  delimited rest → has_frac rest || has_exp rest = false.
Proof.
  destruct rest as [|c [|d rest]]; [done..|].
  by intros [->|[->| ->]].
Qed.

Lemma match_integer_digits (neg : bool) (n : N) (rest : pystr) :
  (N.of_nat (length (digits n)) <=? max_str_digits)%N = true →
  delimited rest →
  match_integer neg (digits n ++ rest)
  = Ok (PInt (if neg then (- Z.of_N n)%Z else Z.of_N n), rest).
Proof.
  intros Hlen%N.leb_le Hrest.
  destruct (digits_spec n) as (Hv & Hall & d & ds & Heq & Hcase).
  rewrite Heq in *. apply Forall_cons in Hall as [Hdig Hall].
  assert ((max_str_digits <? N.of_nat (length (d :: ds)))%N = false) as Hlimit
    by (apply N.ltb_ge; lia).
  cbn [app match_integer]. destruct Hcase as [(-> & -> & ->)|[Hn Hd]].
  - change ((49 <=? 48) && (48 <=? 57))%N with false. change (48 =? 48)%N with true.
    cbn iota. unfold finish_number. by rewrite delimited_no_float, Hlimit.
  - destruct (N.leb_spec 49 d); [|exfalso; lia].
    destruct (N.leb_spec d 57); [|exfalso; lia]. cbn [andb].
    rewrite (span_digits_app ds rest Hall (delimited_no_digit rest Hrest)).
    unfold finish_number. by rewrite delimited_no_float, Hlimit, Hv.
Qed.

Lemma match_number_repr (z : Z) (rest : pystr) :
  digits_ok z = true →
  delimited rest → match_number (int_repr z ++ rest) = Ok (PInt z, rest).
Proof.
  unfold digits_ok. intros Hz Hrest. unfold int_repr.
  assert (∀ n, match_number (digits n ++ rest) = match_integer false (digits n ++ rest)) as Hpos.
  { intros n. destruct (digits_spec n) as (_ & Hall & d & ds & Heq & _).
    rewrite Heq in *. apply Forall_cons in Hall as [Hdig%is_digit_spec _].
    cbn [app match_number]. destruct (N.eqb_spec d 45); [exfalso; lia | done]. }
  destruct z as [|p|p].
  - by rewrite Hpos, match_integer_digits.
  - by rewrite Hpos, match_integer_digits.
  - cbn [app match_number]. change (45 =? 45)%N with true. cbn iota.
    by rewrite match_integer_digits.
Qed.

Lemma int_str_ok (z : Z) : digits_ok z = true → int_str z = Ok (int_repr z).
Proof.
  unfold digits_ok, int_str. intros Hz%N.leb_le.
  by destruct (N.ltb_spec max_str_digits (N.of_nat (length (digits (Z.abs_N z)))));
    [lia|].
Qed.

Lemma int_str_ValueError (z : Z) : digits_ok z = false → int_str z = Err ValueError.
Proof.
  unfold digits_ok, int_str. intros Hz%N.leb_gt.
  by destruct (N.ltb_spec max_str_digits (N.of_nat (length (digits (Z.abs_N z)))));
    [|lia].
Qed.

(** A number from [10 ^ k] on has more than [k] digits. *)
Lemma digits_fuel_length (fuel : nat) (n : N) (k : nat) :
  (n < 2 ^ N.of_nat fuel)%N → (0 < fuel)%nat → (10 ^ N.of_nat k ≤ n)%N →
  k < length (digits_fuel fuel n).
Proof.
  revert n k. induction fuel as [|fuel IH]; intros n k Hn Hfuel Hk; [lia|].
  cbn [digits_fuel]. destruct (N.ltb_spec n 10) as [Hlt|Hge].
  - destruct k as [|k]; [cbn [length]; lia|]. exfalso.
    rewrite Nat2N.inj_succ, N.pow_succ_r' in Hk.
    pose proof (N.pow_nonzero 10 (N.of_nat k)). lia.
  - rewrite length_app. cbn [length]. destruct k as [|k]; [lia|].
    assert (n / 10 < 2 ^ N.of_nat fuel)%N as Hq.
    { rewrite Nat2N.inj_succ, N.pow_succ_r' in Hn.
      pose proof (N.pow_nonzero 2 (N.of_nat fuel)). lia. }
    assert (0 < fuel)%nat as Hpos.
    { destruct fuel; [simpl in Hq; lia | lia]. }
    assert (10 ^ N.of_nat k ≤ n / 10)%N as Hk'.
    { rewrite Nat2N.inj_succ, N.pow_succ_r' in Hk. lia. }
    specialize (IH _ _ Hq Hpos Hk'). lia.
Qed.

Lemma digits_length (n : N) (k : nat) :
  (10 ^ N.of_nat k ≤ n)%N → k < length (digits n).
Proof.
  intros Hk. apply digits_fuel_length; [|lia|done].
  rewrite Nat2N.inj_succ, N2Nat.id, N.pow_succ_r'.
  destruct (decide (n = 0%N)) as [->|Hn]; [done|].
  pose proof (N.log2_spec n). rewrite N.pow_succ_r' in *. lia.
Qed.

(** The text of an integer starts with a digit or a minus sign followed by a
    digit, and is ASCII. *)
Lemma int_repr_shape (z : Z) :
  Forall (λ c, c < 128)%N (int_repr z)
  ∧ ∃ c t, int_repr z = c :: t
           ∧ (is_digit c = true ∨ (c = 45%N ∧ ∃ d t', t = d :: t' ∧ is_digit d = true)).
Proof.
  assert (∀ n, Forall (λ c, c < 128)%N (digits n)) as Hascii.
  { intros n. destruct (digits_spec n) as (_ & Hall & _).
    eapply Forall_impl; [exact Hall|]. intros c Hc%is_digit_spec. simpl. lia. }
  assert (∀ n, ∃ d t, digits n = d :: t ∧ is_digit d = true) as Hhead.
  { intros n. destruct (digits_spec n) as (_ & Hall & d & ds & Heq & _).
    rewrite Heq in Hall. apply Forall_cons in Hall as [Hd _]. eauto. }
  unfold int_repr. destruct z as [|p|p].
  - split; [apply Hascii|]. destruct (Hhead (Z.to_N 0)) as (d & t & -> & Hd). eauto.
  - split; [apply Hascii|]. destruct (Hhead (Z.to_N (Z.pos p))) as (d & t & -> & Hd). eauto.
  - split; [constructor; [lia | apply Hascii]|].
    eexists _, _. split; [done|]. right. split; [done|]. apply Hhead.
Qed.
(** ** JSON strings *)

Lemma lor_add_pow2 (a b k : N) : (b < 2 ^ k → N.lor (a * 2 ^ k) b = a * 2 ^ k + b)%N.
Proof.
  intros Hb.
  assert (N.land (a * 2 ^ k) b = 0)%N as Hdisj.
  { apply N.bits_inj. intros m. rewrite N.land_spec, N.bits_0.
    destruct (N.lt_ge_cases m k) as [Hm|Hm].
    - by rewrite N.mul_pow2_bits_low.
    - rewrite <- (N.mod_small b (2 ^ k)) by done.
      rewrite N.mod_pow2_bits_high by done. apply andb_false_r. }
  by rewrite N.add_nocarry_lxor, N.lxor_lor.
Qed.

Lemma surrogates_of (c : N) :
  (0x10000 ≤ c < 0x110000)%N →
  let n := (c - 0x10000)%N in
  N.lor 0xd800 (N.land (N.shiftr n 10) 0x3ff) = (0xd800 + n / 1024)%N
  ∧ N.lor 0xdc00 (N.land n 0x3ff) = (0xdc00 + n mod 1024)%N.
Proof.
  intros Hc n.
  change 0x3ff%N with (N.ones 10). rewrite !N.land_ones, N.shiftr_div_pow2.
  change (2 ^ 10)%N with 1024%N.
  change 0xd800%N with (54 * 2 ^ 10)%N. change 0xdc00%N with (55 * 2 ^ 10)%N.
  rewrite !lor_add_pow2 by (change (2 ^ 10)%N with 1024%N; lia).
  change (2 ^ 10)%N with 1024%N. subst n. lia.
Qed.

Lemma join_surrogates_of (c : N) :
  (0x10000 ≤ c < 0x110000)%N →
  let n := (c - 0x10000)%N in
  join_surrogates (0xd800 + n / 1024) (0xdc00 + n mod 1024) = c.
Proof.
  intros Hc n. unfold join_surrogates.
  rewrite N.shiftl_mul_pow2, lor_add_pow2 by (change (2 ^ 10)%N with 1024%N; lia).
  change (2 ^ 10)%N with 1024%N. subst n. lia.
Qed.

Lemma hexval_hexdigit (d : N) : (d < 16)%N → hexval (hexdigit d) = Some d.
Proof.
  intros Hd. unfold hexval, hexdigit.
  destruct (N.ltb_spec d 10); cmp; cbn [andb]; f_equal; lia.
Qed.

Lemma hexdigit_ascii (d : N) : (d < 16)%N → (32 ≤ hexdigit d < 127)%N.
Proof. intros Hd. unfold hexdigit. destruct (N.ltb_spec d 10); lia. Qed.

Lemma hex4_hexdigits (n : N) :
  (n < 0x10000)%N →
  hex4 (hexdigit ((n / 4096) mod 16)) (hexdigit ((n / 256) mod 16))
       (hexdigit ((n / 16) mod 16)) (hexdigit (n mod 16)) = Some n.
Proof.
  intros Hn. unfold hex4.
  rewrite !hexval_hexdigit by lia. cbn [mbind option_bind]. f_equal. lia.
Qed.

(** [scanstring] on an escape sequence with the letter u followed by more
    input. *)
Lemma scanstring_u (h1 h2 h3 h4 x : N) (tail : pystr) :
  scanstring (92 :: 117 :: h1 :: h2 :: h3 :: h4 :: x :: tail)%N
  = match hex4 h1 h2 h3 h4 with
    | None => Err DecodeError
    | Some uni =>
      let lone := '(t, rest) ← scanstring (x :: tail); Ok (uni :: t, rest) in
      if is_high_surrogate uni then
        match tail with
        | u :: g1 :: g2 :: g3 :: g4 :: (_ :: _) as r3 =>
          if ((x =? 92) && (u =? 117))%N then
            match hex4 g1 g2 g3 g4 with
            | None => Err DecodeError
            | Some uni2 =>
              if is_low_surrogate uni2
              then '(t, rest) ← scanstring r3; Ok (join_surrogates uni uni2 :: t, rest)
              else lone
            end
          else lone
        | _ => lone
        end
      else lone
    end.
Proof.
  cbn [scanstring]. change (92 =? 34)%N with false. change (92 =? 92)%N with true.
  change (117 =? 117)%N with true. cbn iota.
  destruct (hex4 h1 h2 h3 h4); [|done].
  destruct (is_high_surrogate n); [|done].
  destruct tail as [|? [|? [|? [|? [|? [|? ?]]]]]]; done.
Qed.

Lemma scanstring_escape_char (c : N) (tail : pystr) :
  is_scalar c = true → tail ≠ [] →
  scanstring (escape_char c ++ tail)
  = '(t, rest) ← scanstring tail; Ok (c :: t, rest).
Proof.
  intros Hc%is_scalar_spec Htail. destruct tail as [|x tail]; [done|]. clear Htail.
  unfold escape_char.
  destruct (N.eqb_spec c 34) as [->|]; [done|].
  destruct (N.eqb_spec c 92) as [->|]; [done|].
  destruct (N.eqb_spec c 10) as [->|]; [done|].
  destruct (N.eqb_spec c 13) as [->|]; [done|].
  destruct (N.eqb_spec c 9) as [->|]; [done|].
  destruct (N.eqb_spec c 12) as [->|]; [done|].
  destruct (N.eqb_spec c 8) as [->|]; [done|].
  destruct (N.leb_spec 32 c); cbn [andb].
  1: destruct (N.leb_spec c 126).
  - cbn [app scanstring]. by cmp.
  - destruct (N.ltb_spec c 0x10000).
    + unfold u_escape. cbn [app]. rewrite scanstring_u, hex4_hexdigits by done.
      cbn zeta. unfold is_high_surrogate. by cmp.
    + destruct (surrogates_of c ltac:(lia)) as [-> ->].
      unfold u_escape. cbn [app]. rewrite scanstring_u, hex4_hexdigits by lia.
      cbn zeta. unfold is_high_surrogate.
      destruct (N.leb_spec 0xd800 (0xd800 + (c - 0x10000) / 1024)); [|exfalso; lia].
      destruct (N.leb_spec (0xd800 + (c - 0x10000) / 1024) 0xdbff); [|exfalso; lia].
      cbn [andb]. change (92 =? 92)%N with true. change (117 =? 117)%N with true.
      cbn [andb]. rewrite hex4_hexdigits by lia. unfold is_low_surrogate.
      destruct (N.leb_spec 0xdc00 (0xdc00 + (c - 0x10000) mod 1024)); [|exfalso; lia].
      destruct (N.leb_spec (0xdc00 + (c - 0x10000) mod 1024) 0xdfff); [|exfalso; lia].
      cbn [andb]. by rewrite join_surrogates_of by lia.
  - destruct (N.ltb_spec c 0x10000); [|exfalso; lia].
    unfold u_escape. cbn [app].
    rewrite scanstring_u, hex4_hexdigits by done.
    cbn zeta. unfold is_high_surrogate. by cmp.
Qed.

Lemma scanstring_escaped (s rest : pystr) :
  scalar_str s = true →
  scanstring (concat (map escape_char s) ++ [34%N] ++ rest) = Ok (s, rest).
Proof.
  induction s as [|c s IH]; intros Hs; [done|].
  apply andb_prop in Hs as [Hc Hs].
  cbn [map concat]. rewrite <- app_assoc.
  rewrite scanstring_escape_char; [|done|by destruct (concat _)].
  by rewrite IH.
Qed.

Lemma scanstring_basestring (s rest : pystr) :
  scalar_str s = true →
  ∃ t, encode_basestring_ascii s = 34%N :: t
       ∧ scanstring (t ++ rest) = Ok (s, rest).
Proof.
  intros Hs. eexists. split; [done|].
  rewrite <- app_assoc. by apply scanstring_escaped.
Qed.

Lemma escape_char_ascii (c : N) :
  (c < 0x110000)%N → Forall (λ c, c < 128)%N (escape_char c).
Proof.
  intros Hc. unfold escape_char, u_escape.
  assert (∀ d, d < 16 → hexdigit d < 128)%N as Hhex.
  { intros d Hd. pose proof (hexdigit_ascii d Hd). lia. }
  repeat match goal with
    | |- context [N.eqb ?a ?b] => destruct (N.eqb_spec a b)
    end; try by repeat constructor.
  destruct (N.leb_spec 32 c); cbn [andb].
  1: destruct (N.leb_spec c 126); [repeat constructor; lia|].
  all: destruct (N.ltb_spec c 0x10000).
  all: repeat first [apply Forall_app; split | constructor]; try lia.
  all: apply Hhex; lia.
Qed.

Lemma encode_basestring_ascii_ascii (s : pystr) :
  scalar_str s = true → Forall (λ c, c < 128)%N (encode_basestring_ascii s).
Proof.
  intros Hs. unfold encode_basestring_ascii.
  apply Forall_app; split; [repeat constructor; lia|].
  apply Forall_app; split; [|repeat constructor; lia].
  induction s as [|c s IH]; [constructor|].
  apply andb_prop in Hs as [Hc%is_scalar_spec Hs]. cbn [map concat].
  apply Forall_app; split; [apply escape_char_ascii; lia | auto].
Qed.

(** ** JSON values *)

Lemma pyval_ind' (P : pyval → Prop) :
  P PNone → (∀ b, P (PBool b)) → (∀ z, P (PInt z)) → (∀ s, P (PStr s)) →
  (∀ b, P (PBytes b)) →
  (∀ l, Forall P l → P (PList l)) →
  (∀ d, Forall (λ kv, P kv.2) d → P (PDict d)) →
  ∀ v, P v.
Proof.
  intros HN HB HI HS HY HL HD. fix IH 1.
  intros [|b|z|s|b|l|d]; [exact HN | apply HB | apply HI | apply HS | apply HY | |].
  - apply HL. revert l. fix IHl 1. intros [|x l]; constructor; [apply IH | apply IHl].
  - apply HD. revert d. fix IHd 1. intros [|[k x] d]; constructor; [apply IH | apply IHd].
Qed.

Lemma json_dumps_list (depth : nat) (l : list pyval) :
  json_dumps (S depth) (PList l)
  = items ← mapM (json_dumps depth) l; Ok (lit "[" ++ join (lit ", ") items ++ lit "]").
Proof.
  cbn [json_dumps].
  match goal with |- ?m ≫= _ = _ => assert (m = mapM (json_dumps depth) l) as -> end;
    [|done].
  induction l as [|x l IH]; [done|]. cbn [mapM]. by rewrite <- IH.
Qed.

Lemma json_dumps_dict (depth : nat) (d : list (pystr * pyval)) :
  json_dumps (S depth) (PDict d)
  = items ← mapM (dumps_pair depth) d; Ok (lit "{" ++ join (lit ", ") items ++ lit "}").
Proof.
  cbn [json_dumps].
  match goal with |- ?m ≫= _ = _ => assert (m = mapM (dumps_pair depth) d) as -> end;
    [|done].
  induction d as [|[k v] d IH]; [done|]. cbn [mapM]. rewrite <- IH. unfold dumps_pair.
  cbn [fst snd]. by destruct (json_dumps depth v).
Qed.

Lemma nesting_list (l : list pyval) (depth : nat) :
  nesting (PList l) ≤ S depth ↔ Forall (λ x, nesting x ≤ depth) l.
Proof.
  cbn [nesting]. rewrite <- Nat.succ_le_mono.
  induction l as [|x l IH]; cbn [map foldr]; [split; [constructor | lia]|].
  rewrite Forall_cons, <- IH. lia.
Qed.

Lemma nesting_dict (d : list (pystr * pyval)) (depth : nat) :
  nesting (PDict d) ≤ S depth ↔ Forall (λ kv, nesting kv.2 ≤ depth) d.
Proof.
  cbn [nesting]. rewrite <- Nat.succ_le_mono.
  induction d as [|kv d IH]; cbn [map foldr]; [split; [constructor | lia]|].
  rewrite Forall_cons, <- IH. lia.
Qed.

Lemma join_cons (sep x : pystr) (items : list pystr) :
  items ≠ [] → join sep (x :: items) = x ++ sep ++ join sep items.
Proof. by destruct items. Qed.

Lemma value_start_skip_ws (c : N) (r : pystr) :
  value_start c → skip_ws (c :: r) = c :: r.
Proof.
  intros Hc. cbn [skip_ws].
  assert (is_ws c = false) as ->; [|done].
  unfold value_start in Hc. rewrite is_digit_spec in Hc. unfold is_ws.
  repeat match goal with
    | |- context [N.eqb ?a ?b] => destruct (N.eqb_spec a b); try (exfalso; lia)
    end. done.
Qed.

Lemma scan_once_S (n depth : nat) (c : N) (r : pystr) :
  scan_once (S n) depth (c :: r)
  = if (c =? 34)%N then '(str, rest) ← scanstring r; Ok (PStr str, rest)
    else if (c =? 123)%N then
      match depth with
      | O => Err RecursionError
      | S depth' =>
        match skip_ws r with
        | c' :: r' =>
          if (c' =? 125)%N then Ok (PDict [], r') else parse_object n depth' [] (c' :: r')
        | [] => Err DecodeError
        end
      end
    else if (c =? 91)%N then
      match depth with
      | O => Err RecursionError
      | S depth' =>
        match skip_ws r with
        | c' :: r' =>
          if (c' =? 93)%N then Ok (PList [], r') else parse_array n depth' [] (c' :: r')
        | [] => Err DecodeError
        end
      end
    else
      match strip_prefix (lit "null") (c :: r), strip_prefix (lit "true") (c :: r),
            strip_prefix (lit "false") (c :: r) with
      | Some rest, _, _ => Ok (PNone, rest)
      | _, Some rest, _ => Ok (PBool true, rest)
      | _, _, Some rest => Ok (PBool false, rest)
      | _, _, _ =>
        if bool_decide (is_Some (strip_prefix (lit "NaN") (c :: r)))
           || bool_decide (is_Some (strip_prefix (lit "Infinity") (c :: r)))
           || bool_decide (is_Some (strip_prefix (lit "-Infinity") (c :: r)))
        then Err FloatNotModelled
        else match_number (c :: r)
      end.
Proof. reflexivity. Qed.

Lemma parse_array_S (n depth : nat) (acc : list pyval) (s : pystr) :
  parse_array (S n) depth acc s
  = '(val, r) ← scan_once n depth s;
    match skip_ws r with
    | c :: r' =>
      if (c =? 93)%N then Ok (PList (acc ++ [val]), r')
      else if (c =? 44)%N then parse_array n depth (acc ++ [val]) (skip_ws r')
      else Err DecodeError
    | [] => Err DecodeError
    end.
Proof. reflexivity. Qed.

Lemma parse_object_S (n depth : nat) (acc : list (pystr * pyval)) (c : N) (r : pystr) :
  parse_object (S n) depth acc (c :: r)
  = if (c =? 34)%N then
      '(key, r1) ← scanstring r;
      match skip_ws r1 with
      | c1 :: r2 =>
        if (c1 =? 58)%N then
          '(val, r3) ← scan_once n depth (skip_ws r2);
          match skip_ws r3 with
          | c2 :: r4 =>
            if (c2 =? 125)%N then Ok (PDict (dict_set acc key val), r4)
            else if (c2 =? 44)%N
            then parse_object n depth (dict_set acc key val) (skip_ws r4)
            else Err DecodeError
          | [] => Err DecodeError
          end
        else Err DecodeError
      | [] => Err DecodeError
      end
    else Err DecodeError.
Proof. reflexivity. Qed.

Lemma strip_prefix_cons_ne (a c : N) (p r : pystr) :
  a ≠ c → strip_prefix (a :: p) (c :: r) = None.
Proof. intros Hne. cbn [strip_prefix]. by destruct (N.eqb_spec a c). Qed.

Lemma strip_prefix_cons_eq (a : N) (p r : pystr) :
  strip_prefix (a :: p) (a :: r) = strip_prefix p r.
Proof. cbn [strip_prefix]. by rewrite N.eqb_refl. Qed.

Lemma scan_once_number (n depth : nat) (c : N) (r : pystr) :
  is_digit c = true ∨ (c = 45%N ∧ ∃ d r', r = d :: r' ∧ is_digit d = true) →
  scan_once (S n) depth (c :: r) = match_number (c :: r).
Proof.
  intros Hc. rewrite scan_once_S. eval_lits.
  destruct Hc as [Hc%is_digit_spec|(-> & d & r' & -> & Hd%is_digit_spec)].
  - rewrite !strip_prefix_cons_ne by lia.
    repeat match goal with
      | |- context [N.eqb ?a ?b] => destruct (N.eqb_spec a b); try (exfalso; lia)
      end. done.
  - change (45 =? 34)%N with false. change (45 =? 123)%N with false.
    change (45 =? 91)%N with false. cbn iota.
    rewrite !strip_prefix_cons_ne by lia.
    rewrite strip_prefix_cons_eq, strip_prefix_cons_ne by lia. done.
Qed.

Lemma dict_set_fresh {V : Type} (d : list (pystr * V)) (k : pystr) (v : V) :
  k ∉ map fst d → dict_set d k v = d ++ [(k, v)].
Proof.
  induction d as [|[k' v'] d IH]; intros Hk; [done|].
  cbn [dict_set app]. apply not_elem_of_cons in Hk as [Hne Hk].
  destruct (decide (k' = k)) as [->|]; [done|]. by rewrite IH.
Qed.

Lemma skip_ws_comma (r : pystr) : skip_ws (44%N :: r) = 44%N :: r.
Proof. reflexivity. Qed.
Lemma skip_ws_colon (r : pystr) : skip_ws (58%N :: r) = 58%N :: r.
Proof. reflexivity. Qed.
Lemma skip_ws_rbracket (r : pystr) : skip_ws (93%N :: r) = 93%N :: r.
Proof. reflexivity. Qed.
Lemma skip_ws_rbrace (r : pystr) : skip_ws (125%N :: r) = 125%N :: r.
Proof. reflexivity. Qed.
Lemma skip_ws_space (r : pystr) : skip_ws (32%N :: r) = skip_ws r.
Proof. reflexivity. Qed.

Lemma skip_ws_text (v : pyval) (t rest : pystr) :
  scans_back v t → skip_ws (t ++ rest) = t ++ rest.
Proof. intros (_ & (c & t' & -> & Hc) & _). by apply value_start_skip_ws. Qed.

Lemma parse_array_items (l : list pyval) (ts : list pystr) :
  Forall2 scans_back l ts → l ≠ [] →
  ∀ acc n depth rest, Forall (λ x, nesting x ≤ depth) l →
    2 * length (join (lit ", ") ts) + 1 ≤ n →
    parse_array n depth acc (join (lit ", ") ts ++ 93%N :: rest)
    = Ok (PList (acc ++ l), rest).
Proof.
  eval_lits.
  induction 1 as [|x t l ts Hxt Hl IH]; [done|]. intros _ acc n depth rest Hdepth Hn.
  apply Forall_cons in Hdepth as [Hdx Hdl].
  pose proof Hxt as (_ & _ & Hx).
  destruct n as [|n]; [lia|]. rewrite parse_array_S.
  destruct Hl as [|y u l ts Hyu Hl].
  - cbn [join] in *. rewrite Hx; [|lia|done|by right; left]. done.
  - rewrite join_cons in * by done. rewrite <- !app_assoc.
    rewrite !length_app in Hn. cbn [length] in Hn.
    rewrite Hx; [|lia|done|by left]. cbn [mbind result_bind app].
    rewrite skip_ws_comma. cbn [N.eqb Pos.eqb]. rewrite skip_ws_space.
    assert (skip_ws (join [44; 32]%N (u :: ts) ++ 93%N :: rest)
            = join [44; 32]%N (u :: ts) ++ 93%N :: rest) as ->.
    { destruct ts; [cbn [join] | rewrite join_cons, <- app_assoc by done];
        by eapply skip_ws_text. }
    rewrite IH; [by rewrite <- app_assoc | done | done | lia].
Qed.

Lemma dumps_pair_text (depth : nat) (k : pystr) (v : pyval) (t : pystr) :
  dumps_pair depth (k, v) = Ok t ↔
  ∃ tv, json_dumps depth v = Ok tv ∧ t = encode_basestring_ascii k ++ [58; 32]%N ++ tv.
Proof.
  unfold dumps_pair. cbn [fst snd]. eval_lits.
  destruct (json_dumps depth v) as [tv|e]; simpl.
  - split; [intros [= <-]; eauto | by intros (? & [= <-] & ->)].
  - split; [done | by intros (? & ? & _)].
Qed.

Lemma pair_text_head (kv : pystr * pyval) (t : pystr) :
  pair_scans_back kv t → ∃ t', t = 34%N :: t'.
Proof. intros (_ & tv & _ & ->). by eexists. Qed.

Lemma parse_object_pairs (d : list (pystr * pyval)) (ts : list pystr) :
  Forall2 pair_scans_back d ts → d ≠ [] →
  ∀ acc n depth rest, NoDup (map fst (acc ++ d)) →
    Forall (λ kv, nesting kv.2 ≤ depth) d →
    2 * length (join (lit ", ") ts) + 1 ≤ n →
    parse_object n depth acc (join (lit ", ") ts ++ 125%N :: rest)
    = Ok (PDict (acc ++ d), rest).
Proof.
  eval_lits.
  induction 1 as [|[k v] t d ts Hkv Hd IH]; [done|].
  intros _ acc n depth rest Hnd Hdepth Hn.
  apply Forall_cons in Hdepth as [Hdv Hdd].
  destruct Hkv as (Hk & tv & Hv & ->). cbn [fst snd] in *.
  pose proof Hv as (_ & _ & Hscan).
  destruct (scanstring_basestring k (58 :: 32 :: tv ++
              match ts with [] => [] | _ => [44; 32]%N ++ join [44; 32]%N ts end
              ++ 125 :: rest)%N Hk) as (tk & Htk & Hscank).
  assert (k ∉ map fst acc) as Hfresh.
  { rewrite map_app in Hnd. apply NoDup_app in Hnd as (_ & Hnd & _).
    intros Hin. apply (Hnd k Hin). cbn [map fst]. left. }
  assert (NoDup (map fst ((acc ++ [(k, v)]) ++ d))) as Hnd' by (by rewrite <- app_assoc).
  destruct n as [|n]; [lia|].
  assert (join [44; 32]%N ((encode_basestring_ascii k ++ [58; 32]%N ++ tv) :: ts)
            ++ 125%N :: rest
          = 34%N :: tk ++ (58 :: 32 :: tv ++
              match ts with [] => [] | _ => [44; 32]%N ++ join [44; 32]%N ts end
              ++ 125 :: rest)%N) as ->.
  { rewrite Htk. destruct ts; [cbn [join] | rewrite join_cons by done];
      cbn [app]; by rewrite <- ?app_assoc. }
  rewrite parse_object_S. change (34 =? 34)%N with true. cbn iota.
  rewrite Hscank. cbn [mbind result_bind]. rewrite skip_ws_colon.
  change (58 =? 58)%N with true. cbn iota. rewrite skip_ws_space.
  rewrite (skip_ws_text v) by done.
  destruct Hd as [|kv u d ts Hkvu Hd].
  - cbn [join length] in Hn. rewrite !length_app in Hn.
    cbn [app]. rewrite Hscan; [|lia|done|by right; right].
    cbn [mbind result_bind]. rewrite skip_ws_rbrace.
    cbn [N.eqb Pos.eqb]. by rewrite dict_set_fresh.
  - rewrite join_cons in Hn by done. rewrite !length_app in Hn. cbn [length] in Hn.
    rewrite <- !app_assoc. cbn [app].
    rewrite Hscan; [|lia|done|by left].
    cbn [mbind result_bind]. rewrite skip_ws_comma.
    cbn [N.eqb Pos.eqb]. rewrite skip_ws_space.
    assert (skip_ws (join [44; 32]%N (u :: ts) ++ 125%N :: rest)
            = join [44; 32]%N (u :: ts) ++ 125%N :: rest) as ->.
    { destruct (pair_text_head _ _ Hkvu) as (u' & ->).
      destruct ts; [cbn [join] | rewrite join_cons, <- app_assoc by done]; done. }
    rewrite dict_set_fresh by done.
    rewrite IH; [by rewrite <- app_assoc | done | done | done | lia].
Qed.

Lemma join_ascii (sep : pystr) (ts : list pystr) :
  Forall (λ c, c < 128)%N sep → Forall (Forall (λ c, c < 128)%N) ts →
  Forall (λ c, c < 128)%N (join sep ts).
Proof.
  intros Hsep. induction 1 as [|t ts Ht Hts IH]; [constructor|].
  destruct ts as [|u ts]; [done|]. rewrite join_cons by done.
  by repeat (apply Forall_app; split).
Qed.

Lemma value_start_not_closing (c : N) : value_start c → c ≠ 93%N ∧ c ≠ 125%N.
Proof. unfold value_start. rewrite is_digit_spec. lia. Qed.

Lemma json_dumps_scans_back (v : pyval) :
  json_value v = true →
  ∃ t, (∀ depth, nesting v ≤ depth → json_dumps depth v = Ok t) ∧ scans_back v t.
Proof.
  induction v as [|b|z|s|b|l IH|d IH] using pyval_ind'; intros Hv.
  - exists (lit "null"). split; [done|]. eval_lits. split; [repeat constructor; lia|].
    split; [eexists _, _; split; [done|]; unfold value_start; lia|].
    intros [|n] depth rest Hn _ _; [simpl in Hn; lia | done].
  - exists (if b then lit "true" else lit "false"). split; [by destruct b|].
    destruct b; eval_lits.
    all: split; [repeat constructor; lia|].
    all: split; [eexists _, _; split; [done|]; unfold value_start; lia|].
    all: intros [|n] depth rest Hn _ _; [simpl in Hn; lia | done].
  - cbn [json_value] in Hv. exists (int_repr z).
    split; [intros depth _; by apply int_str_ok|].
    destruct (int_repr_shape z) as (Hascii & c & t & Heq & Hc). split; [done|]. split.
    + exists c, t. split; [done|]. unfold value_start. destruct Hc as [?|[-> _]]; auto 10.
    + intros [|n] depth rest Hn _ Hrest; [rewrite Heq in Hn; simpl in Hn; lia|].
      rewrite <- match_number_repr by done. rewrite Heq. cbn [app].
      apply scan_once_number. destruct Hc as [?|(-> & d & t' & -> & Hd)]; [by left|].
      right. split; [done|]. by exists d, (t' ++ rest).
  - cbn [json_value] in Hv. exists (encode_basestring_ascii s). split; [done|].
    split; [by apply encode_basestring_ascii_ascii|].
    split; [eexists _, _; split; [done|]; unfold value_start; lia|].
    intros [|n] depth rest Hn _ _; [simpl in Hn; lia|].
    destruct (scanstring_basestring s rest Hv) as (t & -> & Hscan).
    cbn [app]. rewrite scan_once_S. change (34 =? 34)%N with true. cbn iota.
    by rewrite Hscan.
  - done.
  - cbn [json_value] in Hv.
    assert (∃ ts, Forall2 (λ x t, (∀ depth, nesting x ≤ depth → json_dumps depth x = Ok t)
                                  ∧ scans_back x t) l ts) as (ts & Hboth).
    { clear -IH Hv. induction IH as [|x l Hx _ IHl]; [by exists []|].
      apply andb_prop in Hv as [Hvx Hvl].
      destruct (Hx Hvx) as (t & Ht & Hsb). destruct (IHl Hvl) as (ts & Hall).
      exists (t :: ts). by constructor. }
    assert (Forall2 scans_back l ts) as Hall.
    { eapply Forall2_impl; [exact Hboth|]. by intros x t [_ ?]. }
    assert (∀ depth, Forall (λ x, nesting x ≤ depth) l → mapM (json_dumps depth) l = Ok ts)
      as Hts.
    { intros depth. clear -Hboth.
      induction Hboth as [|x t l ts [Ht _] _ IHl]; [done|].
      intros [Hx Hl]%Forall_cons. cbn [mapM]. by rewrite Ht, IHl. }
    eexists. split.
    { intros [|depth] Hdepth; [cbn [nesting] in Hdepth; lia|].
      apply nesting_list in Hdepth. by rewrite json_dumps_list, Hts. }
    eval_lits.
    assert (Forall (Forall (λ c, c < 128)%N) ts) as Hascii.
    { clear -Hall. induction Hall as [|???? (? & _)]; by constructor. }
    split.
    { repeat (apply Forall_app; split); [repeat constructor; lia| |repeat constructor; lia].
      apply join_ascii; [repeat constructor; lia | done]. }
    split; [eexists _, _; split; [done|]; unfold value_start; lia|].
    intros [|n] [|depth] rest Hn Hdepth _;
      [simpl in Hn; lia | simpl in Hn; lia | cbn [nesting] in Hdepth; lia |].
    apply nesting_list in Hdepth.
    cbn [app]. rewrite <- app_assoc. cbn [app].
    rewrite scan_once_S. change (91 =? 34)%N with false. change (91 =? 123)%N with false.
    change (91 =? 91)%N with true. cbn iota.
    destruct Hall as [|x t l ts Hxt Hall].
    + cbn [join app]. by rewrite skip_ws_rbracket.
    + assert (∃ c r', join [44; 32]%N (t :: ts) = c :: r' ∧ value_start c)
        as (c & r' & Hjoin & Hc).
      { destruct Hxt as (_ & (c & t' & -> & Hc) & _).
        destruct ts; [cbn [join] | rewrite join_cons by done]; by eexists _, _. }
      pose proof (parse_array_items (x :: l) (t :: ts) ltac:(by constructor)
                    ltac:(done) [] n depth rest Hdepth) as Harr.
      eval_lits_in Harr. rewrite !length_app in Hn. cbn [length] in Hn.
      rewrite Hjoin in *. cbn [app] in *. rewrite value_start_skip_ws by done.
      destruct (N.eqb_spec c 93) as [->|_]; [by destruct (value_start_not_closing _ Hc)|].
      apply Harr. simpl in *. lia.
  - cbn [json_value] in Hv. apply andb_prop in Hv as [Hnd%bool_decide_eq_true Hv].
    assert (∃ ts, Forall2 (λ kv t, (∀ depth, nesting kv.2 ≤ depth →
                                             dumps_pair depth kv = Ok t)
                                   ∧ pair_scans_back kv t) d ts) as (ts & Hboth).
    { clear -IH Hv. induction IH as [|[k x] d Hx _ IHd]; [by exists []|].
      apply andb_prop in Hv as [[Hk Hvx]%andb_prop Hvd]. cbn [fst snd] in *.
      destruct (Hx Hvx) as (t & Ht & Hsb). destruct (IHd Hvd) as (ts & Hall).
      eexists (_ :: ts). constructor; [|done]. split.
      - intros depth Hdepth. apply dumps_pair_text. eauto.
      - split; [done|]. by exists t. }
    assert (Forall2 pair_scans_back d ts) as Hall.
    { eapply Forall2_impl; [exact Hboth|]. by intros x t [_ ?]. }
    assert (∀ depth, Forall (λ kv, nesting kv.2 ≤ depth) d →
                     mapM (dumps_pair depth) d = Ok ts) as Hts.
    { intros depth. clear -Hboth.
      induction Hboth as [|x t l ts [Ht _] _ IHl]; [done|].
      intros [Hx Hl]%Forall_cons. cbn [mapM]. by rewrite Ht, IHl. }
    eexists. split.
    { intros [|depth] Hdepth; [cbn [nesting] in Hdepth; lia|].
      apply nesting_dict in Hdepth. by rewrite json_dumps_dict, Hts. }
    eval_lits.
    assert (Forall (Forall (λ c, c < 128)%N) ts) as Hascii.
    { clear -Hall. induction Hall as [|[k x] ? ? ? (Hk & tv & (? & _) & ->)];
        constructor; [|done].
      apply Forall_app_2; [by apply encode_basestring_ascii_ascii|].
      apply Forall_app_2; [repeat constructor; lia | done]. }
    split.
    { repeat (apply Forall_app; split); [repeat constructor; lia| |repeat constructor; lia].
      apply join_ascii; [repeat constructor; lia | done]. }
    split; [eexists _, _; split; [done|]; unfold value_start; lia|].
    intros [|n] [|depth] rest Hn Hdepth _;
      [simpl in Hn; lia | simpl in Hn; lia | cbn [nesting] in Hdepth; lia |].
    apply nesting_dict in Hdepth.
    cbn [app]. rewrite <- app_assoc. cbn [app].
    rewrite scan_once_S. change (123 =? 34)%N with false.
    change (123 =? 123)%N with true. cbn iota.
    destruct Hall as [|kv t d ts Hkvt Hall].
    + cbn [join app]. by rewrite skip_ws_rbrace.
    + assert (∃ r', join [44; 32]%N (t :: ts) = 34%N :: r') as (r' & Hjoin).
      { destruct (pair_text_head _ _ Hkvt) as (t' & ->).
        destruct ts; [cbn [join] | rewrite join_cons by done]; by eexists. }
      pose proof (parse_object_pairs (kv :: d) (t :: ts) ltac:(by constructor)
                    ltac:(done) [] n depth rest Hnd Hdepth) as Hobj.
      eval_lits_in Hobj. rewrite !length_app in Hn. cbn [length] in Hn.
      rewrite Hjoin in *. cbn [app] in *. rewrite value_start_skip_ws by (by left).
      change (34 =? 125)%N with false. cbn iota.
      apply Hobj. simpl in *. lia.
Qed.

(** [json.loads] reads back what [json.dumps] wrote. *)
Lemma json_loads_dumps (v : pyval) :
  json_value v = true →
  ∃ t, (∀ depth, nesting v ≤ depth → json_dumps depth v = Ok t)
       ∧ Forall (λ c, c < 128)%N t
       ∧ ∀ depth, nesting v ≤ depth → json_loads depth t = Ok v.
Proof.
  intros Hv. destruct (json_dumps_scans_back v Hv) as (t & Ht & Hascii & Hhead & Hscan).
  exists t. split; [done|]. split; [done|]. intros depth Hdepth.
  destruct Hhead as (c & t' & -> & Hc). unfold json_loads.
  apply Forall_cons in Hascii as [Hc128 _].
  destruct (N.eqb_spec c 0xfeff); [lia|]. cbn [mbind result_bind].
  rewrite value_start_skip_ws by done.
  rewrite <- (app_nil_r (c :: t')) at 2. rewrite Hscan; [done|lia|done|done].
Qed.

(** ** The fuel of the scanner *)

Lemma skip_ws_length (s : pystr) : length (skip_ws s) ≤ length s.
Proof.
  induction s as [|c s IH]; [done|]. cbn [skip_ws].
  destruct (is_ws c); cbn [length]; lia.
Qed.

Lemma strip_prefix_length (p s r : pystr) :
  strip_prefix p s = Some r → length s = length p + length r.
Proof.
  revert s. induction p as [|a p IH]; intros [|b s]; cbn [strip_prefix]; try done.
  - by intros [= <-].
  - by intros [= <-].
  - destruct (a =? b)%N; [|done]. intros Hr%IH. cbn [length]. lia.
Qed.

Lemma span_digits_length (s ds r : pystr) :
  span_digits s = (ds, r) → length r ≤ length s.
Proof.
  revert ds r. induction s as [|c s IH]; intros ds r; cbn [span_digits].
  - by intros [= <- <-].
  - destruct (is_digit c); [|intros [= <- <-]; done].
    destruct (span_digits s) as [ds' r'] eqn:Hs. intros [= <- <-].
    specialize (IH _ _ eq_refl). cbn [length]. lia.
Qed.

Lemma match_integer_length (neg : bool) (s : pystr) (v : pyval) (r : pystr) :
  match_integer neg s = Ok (v, r) → length r < length s.
Proof.
  destruct s as [|d s]; [done|]. cbn [match_integer]. unfold finish_number.
  destruct ((49 <=? d) && (d <=? 57))%N.
  - destruct (span_digits s) as [ds r'] eqn:Hs. apply span_digits_length in Hs.
    destruct (has_frac r' || has_exp r'); [done|]. destruct (_ <? _)%N; [done|].
    intros [= _ <-]. cbn [length]. lia.
  - destruct (d =? 48)%N; [|done].
    destruct (has_frac s || has_exp s); [done|]. destruct (_ <? _)%N; [done|].
    intros [= _ <-]. cbn [length]. lia.
Qed.

Lemma match_number_length (s : pystr) (v : pyval) (r : pystr) :
  match_number s = Ok (v, r) → length r < length s.
Proof.
  destruct s as [|c s]; [done|]. cbn [match_number]. destruct (c =? 45)%N.
  - intros ?%match_integer_length. cbn [length]. lia.
  - apply match_integer_length.
Qed.

Lemma match_number_fuel (s : pystr) : match_number s ≠ Err OutOfFuel.
Proof.
  assert (∀ neg s, match_integer neg s ≠ Err OutOfFuel) as Hint.
  { intros neg [|d r]; [done|]. cbn [match_integer]. unfold finish_number.
    repeat case_match; done. }
  destruct s as [|c s]; [done|]. cbn [match_number]. destruct (c =? 45)%N; apply Hint.
Qed.

Lemma scanstring_length (s t r : pystr) :
  scanstring s = Ok (t, r) → length r < length s.
Proof.
  remember (length s) as n eqn:Hn. revert s t r Hn.
  induction n as [n IH] using lt_wf_ind. intros s t r -> Hs.
  assert (∀ s' t' r', length s' < length s → scanstring s' = Ok (t', r') →
                      length r' < length s') as IH'.
  { intros s' t' r' Hlt. by eapply IH. }
  clear IH. destruct s as [|c s]; [done|]. cbn [scanstring] in Hs.
  repeat (case_match; simplify_eq; try done);
    try apply bind_Ok in Hs as ([t' r'] & Hrec & [= <- <-]);
    try (apply IH' in Hrec; cbn [length] in *; lia);
    cbn [length]; try lia.
Qed.

Lemma scanstring_fuel (s : pystr) : scanstring s ≠ Err OutOfFuel.
Proof.
  remember (length s) as n eqn:Hn. revert s Hn.
  induction n as [n IH] using lt_wf_ind. intros s ->.
  assert (∀ s', length s' < length s → scanstring s' ≠ Err OutOfFuel) as IH'.
  { intros s' Hlt. by eapply IH. }
  clear IH. destruct s as [|c s]; [done|]. cbn [scanstring].
  repeat (case_match; simplify_eq; try done).
  all: match goal with
       | |- scanstring ?s' ≫= _ ≠ _ =>
         let H := fresh in
         pose proof (IH' s') as H; destruct (scanstring s') as [[??]|[]];
         cbn [mbind result_bind]; try done; exfalso; apply H; [cbn [length]; lia | done]
       end.
Qed.

(** With fuel above twice the length of the input the scanner does not run
    out of it. *)
Lemma scan_fuel (n : nat) :
  (∀ depth s, 2 * length s < n → fuelled (scan_once n depth s) s)
  ∧ (∀ depth acc s, 2 * length s + 1 < n → fuelled (parse_array n depth acc s) s)
  ∧ (∀ depth acc s, 2 * length s + 1 < n → fuelled (parse_object n depth acc s) s).
Proof.
  induction n as [|n (IHscan & IHarr & IHobj)]; [repeat split; intros; lia|].
  split; [|split].
  - intros depth [|c r] Hn; [done|]. cbn [length] in Hn. rewrite scan_once_S.
    pose proof (skip_ws_length r) as Hws.
    destruct (c =? 34)%N.
    { pose proof (scanstring_fuel r) as Hf.
      destruct (scanstring r) as [[str rest]|e] eqn:Hs; cbn [mbind result_bind].
      - split; [done|]. intros v r' [= _ <-]. apply scanstring_length in Hs.
        cbn [length]. lia.
      - split; [congruence | done]. }
    destruct (c =? 123)%N.
    { destruct depth as [|depth]; [done|].
      destruct (skip_ws r) as [|c' r'] eqn:Hr; [done|]. cbn [length] in Hws.
      destruct (c' =? 125)%N.
      - split; [done|]. intros v r'' [= _ <-]. cbn [length]. lia.
      - destruct (IHobj depth [] (c' :: r')) as [Hf Hlen]; [cbn [length]; lia|].
        split; [done|]. intros v r'' Hv%Hlen. cbn [length] in *. lia. }
    destruct (c =? 91)%N.
    { destruct depth as [|depth]; [done|].
      destruct (skip_ws r) as [|c' r'] eqn:Hr; [done|]. cbn [length] in Hws.
      destruct (c' =? 93)%N.
      - split; [done|]. intros v r'' [= _ <-]. cbn [length]. lia.
      - destruct (IHarr depth [] (c' :: r')) as [Hf Hlen]; [cbn [length]; lia|].
        split; [done|]. intros v r'' Hv%Hlen. cbn [length] in *. lia. }
    destruct (strip_prefix (lit "null") (c :: r)) as [rest|] eqn:H1.
    { apply strip_prefix_length in H1. split; [done|]. intros v r' [= _ <-].
      cbn [length lit] in *. lia. }
    destruct (strip_prefix (lit "true") (c :: r)) as [rest|] eqn:H2.
    { apply strip_prefix_length in H2. split; [done|]. intros v r' [= _ <-].
      cbn [length lit] in *. lia. }
    destruct (strip_prefix (lit "false") (c :: r)) as [rest|] eqn:H3.
    { apply strip_prefix_length in H3. split; [done|]. intros v r' [= _ <-].
      cbn [length lit] in *. lia. }
    match goal with |- context [if ?b then _ else _] => destruct b end; [done|].
    split; [apply match_number_fuel | apply match_number_length].
  - intros depth acc s Hn. rewrite parse_array_S.
    destruct (IHscan depth s) as [Hf Hlen]; [lia|].
    destruct (scan_once n depth s) as [[val r]|e]; cbn [mbind result_bind];
      [|split; [congruence | done]].
    specialize (Hlen _ _ eq_refl). pose proof (skip_ws_length r) as Hws.
    destruct (skip_ws r) as [|c r'] eqn:Hr; [done|]. cbn [length] in Hws.
    destruct (c =? 93)%N; [split; [done|]; intros v r'' [= _ <-]; lia|].
    destruct (c =? 44)%N; [|done].
    pose proof (skip_ws_length r') as Hws'.
    destruct (IHarr depth (acc ++ [val]) (skip_ws r')) as [Hf' Hlen']; [lia|].
    split; [done|]. intros v r'' Hv%Hlen'. lia.
  - intros depth acc [|c r] Hn; [done|]. cbn [length] in Hn. rewrite parse_object_S.
    destruct (c =? 34)%N; [|done].
    pose proof (scanstring_fuel r) as Hf.
    destruct (scanstring r) as [[key r1]|e] eqn:Hs; cbn [mbind result_bind];
      [|split; [congruence | done]].
    apply scanstring_length in Hs. pose proof (skip_ws_length r1) as Hws1.
    destruct (skip_ws r1) as [|c1 r2] eqn:Hr1; [done|]. cbn [length] in Hws1.
    destruct (c1 =? 58)%N; [|done].
    pose proof (skip_ws_length r2) as Hws2.
    destruct (IHscan depth (skip_ws r2)) as [Hf2 Hlen2]; [lia|].
    destruct (scan_once n depth (skip_ws r2)) as [[val r3]|e]; cbn [mbind result_bind];
      [|split; [congruence | done]].
    specialize (Hlen2 _ _ eq_refl). pose proof (skip_ws_length r3) as Hws3.
    destruct (skip_ws r3) as [|c2 r4] eqn:Hr3; [done|]. cbn [length] in Hws3.
    destruct (c2 =? 125)%N; [split; [done|]; intros v r'' [= _ <-]; cbn [length]; lia|].
    destruct (c2 =? 44)%N; [|done].
    pose proof (skip_ws_length r4) as Hws4.
    destruct (IHobj depth (dict_set acc key val) (skip_ws r4)) as [Hf' Hlen']; [lia|].
    split; [done|]. intros v r'' Hv%Hlen'. cbn [length]. lia.
Qed.

(** [json_loads] is total: the fuel it derives from the text is enough. *)
Lemma json_loads_fuel (depth : nat) (s : pystr) : json_loads depth s ≠ Err OutOfFuel.
Proof.
  unfold json_loads.
  assert (match s with
          | [] => Ok ()
          | c :: _ => if (c =? 65279)%N then Err DecodeError else Ok ()
          end = Ok () ∨
          match s with
          | [] => Ok ()
          | c :: _ => if (c =? 65279)%N then Err DecodeError else Ok ()
          end = Err DecodeError) as [-> | ->];
    [destruct s as [|c ?]; [|destruct (c =? 65279)%N]; auto | | done].
  cbn [mbind result_bind]. pose proof (skip_ws_length s) as Hws.
  destruct (proj1 (scan_fuel (2 * length s + 2)) depth (skip_ws s)) as [Hf _]; [lia|].
  destruct (scan_once _ _ _) as [[obj rest]|e]; cbn [mbind result_bind]; [|congruence].
  by destruct (skip_ws rest).
Qed.

(** ** Serializers and the registry *)

Lemma serialize_deserialize (ser : serializer) (x : pyval) :
  supported ser x = true →
  ∃ b, serialize ser x = Ok (PBytes b) ∧ deserialize ser b = Ok x.
Proof.
  destruct ser as [e|e|e]; cbn [supported serialize deserialize]; intros Hx.
  - destruct x; try done. by eexists.
  - apply andb_prop in Hx as [[Hx He%Nat.leb_le]%andb_prop Hs%Nat.leb_le].
    destruct (json_loads_dumps x Hx) as (t & Ht & Hascii & Hload).
    exists t. rewrite Ht by done. cbn [mbind result_bind].
    rewrite encode_ascii, decode_ascii by done. cbn [mbind result_bind]. auto.
  - destruct x as [| | |s| | |]; try done.
    destruct (encode_decode s Hx) as (b & Hb & Hdec).
    exists b. by rewrite Hb, Hdec.
Qed.

Lemma get_serializer_Ok (media_type : pystr) (ser : serializer) :
  get_serializer media_type = Ok ser ↔ (media_type, ser) ∈ serializers.
Proof.
  unfold get_serializer.
  assert (NoDup (serializers.*1)) as Hnd by (by apply (bool_decide_eq_true_1 _); vm_compute).
  rewrite (elem_of_list_to_map (M := gmap pystr) _ _ _ Hnd).
  destruct (list_to_map serializers !! media_type); split; congruence.
Qed.

Lemma get_serializer_Err (media_type : pystr) (e : error) :
  get_serializer media_type = Err e ↔ (media_type ∉ media_type_choices) ∧ e = UnknownMediaType.
Proof.
  unfold get_serializer. change media_type_choices with (serializers.*1).
  rewrite (not_elem_of_list_to_map (M := gmap pystr)).
  destruct (list_to_map serializers !! media_type) as [ser|].
  - split; [done | by intros [? _]].
  - split; [by intros [= <-] | by intros [_ ->]].
Qed.

Lemma get_serializer_choices (media_type : pystr) :
  media_type ∈ media_type_choices ↔ ∃ ser, get_serializer media_type = Ok ser.
Proof.
  destruct (get_serializer media_type) as [ser|e] eqn:Hget.
  - split; [eauto|]. intros _. apply get_serializer_Ok in Hget.
    change media_type_choices with (serializers.*1).
    apply list_elem_of_fmap. by exists (media_type, ser).
  - apply get_serializer_Err in Hget as [Hnot _]. split; [done | by intros (? & ?)].
Qed.

(** The registry entry of a serializer is determined by its extension. *)
Lemma registry_ext_inj (mt1 mt2 : pystr) (ser1 ser2 : serializer) :
  (mt1, ser1) ∈ serializers → (mt2, ser2) ∈ serializers →
  ext ser1 = ext ser2 → mt1 = mt2 ∧ ser1 = ser2.
Proof.
  unfold serializers. rewrite !elem_of_cons, !elem_of_nil.
  intros H1 H2 Hext.
  repeat (destruct H1 as [[= -> ->]|H1]; [|]); try done;
    repeat (destruct H2 as [[= -> ->]|H2]; [|]); try done.
Qed.

Lemma registry_ext_no_dot (mt : pystr) (ser : serializer) :
  (mt, ser) ∈ serializers → 46%N ∉ ext ser.
Proof.
  unfold serializers. rewrite !elem_of_cons, !elem_of_nil. intros H.
  repeat (destruct H as [[= -> ->]|H]; [|]); try done.
  all: by apply (bool_decide_eq_true_1 _); vm_compute.
Qed.

(** ** Member names *)

Lemma endswith_spec (s suffix : pystr) :
  endswith s suffix = true ↔ ∃ p, s = p ++ suffix.
Proof.
  unfold endswith. rewrite bool_decide_eq_true. split.
  - intros H. exists (take (length s - length suffix) s).
    rewrite <- H at 2. symmetry. apply take_drop.
  - intros (p & ->). rewrite length_app.
    replace (length p + length suffix - length suffix) with (length p) by lia.
    by rewrite drop_app_length.
Qed.

Lemma output_filename_stem (title : pystr) (ser : serializer) :
  output_filename title ser = stem title (ext ser) ++ lit "." ++ ext ser.
Proof.
  unfold output_filename, stem.
  destruct (endswith title (lit "." ++ ext ser)) eqn:Hends; [|done].
  cbn [negb]. unfold endswith in Hends. apply bool_decide_eq_true in Hends.
  set (k := length title - length (lit "." ++ ext ser)) in *.
  transitivity (take k title ++ drop k title); [symmetry; apply take_drop|].
  by rewrite Hends.
Qed.

Lemma output_filename_endswith (title : pystr) (ser : serializer) :
  endswith (output_filename title ser) (lit "." ++ ext ser) = true.
Proof. apply endswith_spec. rewrite output_filename_stem. eauto. Qed.

(** Two registry serializers give the same member name only if they are the
    same serializer, for the same media type. *)
Lemma output_filename_inj (mt1 mt2 t1 t2 : pystr) (ser1 ser2 : serializer) :
  get_serializer mt1 = Ok ser1 → get_serializer mt2 = Ok ser2 →
  output_filename t1 ser1 = output_filename t2 ser2 →
  mt1 = mt2 ∧ ser1 = ser2 ∧ stem t1 (ext ser1) = stem t2 (ext ser2).
Proof.
  intros H1%get_serializer_Ok H2%get_serializer_Ok. rewrite !output_filename_stem.
  change (lit ".") with [46%N]. cbn [app]. intros Heq.
  apply not_elem_of_app_cons_inv_r in Heq as (Hstem & _ & Hext);
    [|by eapply registry_ext_no_dot..].
  destruct (registry_ext_inj _ _ _ _ H1 H2 Hext) as [-> ->]. done.
Qed.

(** ** The archive *)

Lemma sanitize_filename_id (name : pystr) :
  forallb (λ c, negb (c =? 0)%N) name = true → sanitize_filename name = name.
Proof.
  induction name as [|c name IH]; [done|]. cbn [forallb sanitize_filename].
  intros [Hc Hname]%andb_prop. destruct (c =? 0)%N; [done|]. by rewrite IH.
Qed.

Lemma writestr_storable (zipfileobj : ZipFile) (name : pystr) (b : bytes) :
  storable_name name = true → name ≠ [] →
  writestr zipfileobj name (PBytes b) = Ok (zipfileobj ++ [(name, b)]).
Proof.
  unfold storable_name. intros [[Hnul Hscalar]%andb_prop Hlen%N.leb_le]%andb_prop Hne.
  unfold writestr. cbn [mbind result_bind]. rewrite sanitize_filename_id by done.
  rewrite bool_decide_eq_false_2 by done. cbn [mbind result_bind].
  destruct (encode_decode name Hscalar) as (enc & Henc & _). rewrite Henc.
  cbn [mbind result_bind]. rewrite (str_encode_length _ _ Henc).
  by destruct (N.ltb_spec 65535 (utf8_length name)); [lia|].
Qed.

Lemma NameToInfo_snoc (zipfileobj : ZipFile) (member : pystr * bytes) :
  NameToInfo (zipfileobj ++ [member]) = <[member.1 := member.2]> (NameToInfo zipfileobj).
Proof. unfold NameToInfo. by rewrite foldl_app. Qed.

(** Reading a member gives the content written last under its name. *)
Lemma NameToInfo_lookup (zipfileobj : ZipFile) (name : pystr) :
  NameToInfo zipfileobj !! name
  = snd <$> last (filter (λ member, member.1 = name) zipfileobj).
Proof.
  induction zipfileobj as [|member zipfileobj IH] using rev_ind; [done|].
  rewrite NameToInfo_snoc, filter_app, lookup_insert.
  rewrite filter_cons, filter_nil. destruct (decide (member.1 = name)) as [Heq|Hne].
  - by rewrite last_snoc.
  - by rewrite app_nil_r.
Qed.

(** ** The archive builder *)

Lemma well_formed_spec (o : LocalOutput.t) :
  well_formed o = true →
  ∃ ser, get_serializer (LocalOutput.media_type o) = Ok ser
         ∧ name_of o = output_filename (LocalOutput.title o) ser
         ∧ filename_of o = Ok (name_of o)
         ∧ storable_name (name_of o) = true
         ∧ serialize ser (LocalOutput.data o) = Ok (PBytes (content_of o))
         ∧ deserialize ser (content_of o) = Ok (LocalOutput.data o).
Proof.
  unfold well_formed, name_of, content_of, filename_of.
  destruct (get_serializer (LocalOutput.media_type o)) as [ser|]; [|done].
  intros [[_ Hsup]%andb_prop Hname]%andb_prop. exists ser. cbn [mbind result_bind].
  destruct (serialize_deserialize ser _ Hsup) as (b & -> & Hb). done.
Qed.

Lemma write_output_well_formed (o : LocalOutput.t) (zipfileobj : ZipFile)
    (rem_outputs : list RemoteOutput.t) :
  well_formed o = true →
  write_output (zipfileobj, rem_outputs) o
  = Ok (zipfileobj ++ [member_of o], rem_outputs ++ [entry_of o]).
Proof.
  intros (ser & Hser & Hname & _ & Hstor & Hserial & _)%well_formed_spec.
  unfold write_output. rewrite Hser. cbn [mbind result_bind]. rewrite Hserial.
  cbn [mbind result_bind]. rewrite <- Hname, writestr_storable; [done..|].
  rewrite Hname, output_filename_stem. by destruct (stem _ _).
Qed.

Lemma build_well_formed (outs : list LocalOutput.t) (zipfileobj : ZipFile)
    (rem_outputs : list RemoteOutput.t) :
  forallb well_formed outs = true →
  foldM write_output (zipfileobj, rem_outputs) outs
  = Ok (zipfileobj ++ map member_of outs, rem_outputs ++ map entry_of outs).
Proof.
  revert zipfileobj rem_outputs. induction outs as [|o outs IH]; intros z es Hwf.
  - by rewrite !app_nil_r.
  - apply andb_prop in Hwf as [Ho Hwf]. cbn [foldM].
    rewrite write_output_well_formed by done. cbn [mbind result_bind].
    rewrite IH by done. by rewrite <- !app_assoc.
Qed.

(** Whatever the builder returns, its manifest entries follow the outputs
    one by one. *)
Lemma write_output_entry (st st' : ZipFile * list RemoteOutput.t) (o : LocalOutput.t) :
  write_output st o = Ok st' →
  ∃ filename, filename_of o = Ok filename ∧ st'.2 = st.2 ++ [remote_of o filename].
Proof.
  destruct st as [z es]. unfold write_output, filename_of.
  destruct (get_serializer (LocalOutput.media_type o)) as [ser|]; [|done].
  cbn [mbind result_bind].
  destruct (serialize ser (LocalOutput.data o)); [|done]. cbn [mbind result_bind].
  destruct (writestr z _ _); [|done]. cbn [mbind result_bind].
  intros [= <-]. eauto.
Qed.

Lemma build_entries (outs : list LocalOutput.t) (st st' : ZipFile * list RemoteOutput.t) :
  foldM write_output st outs = Ok st' →
  ∃ entries, st'.2 = st.2 ++ entries
             ∧ Forall2 (λ o e, ∃ filename, filename_of o = Ok filename
                                           ∧ e = remote_of o filename) outs entries.
Proof.
  revert st. induction outs as [|o outs IH]; intros st.
  - intros [= <-]. exists []. by rewrite app_nil_r.
  - cbn [foldM]. intros (st1 & Hst1 & Hrest)%bind_Ok.
    apply write_output_entry in Hst1 as (filename & Hname & Hst1).
    apply IH in Hrest as (entries & Hentries & Hall).
    exists (remote_of o filename :: entries). split.
    + by rewrite Hentries, Hst1, <- app_assoc.
    + constructor; eauto.
Qed.

(** ** The archive reader *)

Lemma read_output_decode (zipfileobj : ZipFile) (cat : category) (read : LocalResult)
    (l : list LocalOutput.t) (e : RemoteOutput.t) :
  read !! cat = Some l →
  read_output zipfileobj cat read e
  = o ← decode_entry zipfileobj e; Ok (<[cat := l ++ [o]]> read).
Proof.
  intros Hl. unfold read_output, decode_entry.
  destruct (get_serializer _); [|done]. cbn [mbind result_bind].
  destruct (zip_read _ _); [|done]. cbn [mbind result_bind].
  destruct (deserialize _ _); [|done]. cbn [mbind result_bind]. by rewrite Hl.
Qed.

Lemma read_outputs_decode (zipfileobj : ZipFile) (cat : category)
    (entries : list RemoteOutput.t) (read : LocalResult) (l : list LocalOutput.t) :
  read !! cat = Some l →
  foldM (read_output zipfileobj cat) read entries
  = outs ← mapM (decode_entry zipfileobj) entries; Ok (<[cat := l ++ outs]> read).
Proof.
  revert read l. induction entries as [|e entries IH]; intros read l Hl.
  - cbn [foldM mapM mbind result_bind]. by rewrite app_nil_r, insert_id.
  - cbn [foldM mapM]. rewrite (read_output_decode _ _ _ l) by done.
    destruct (decode_entry zipfileobj e) as [o|]; [|done]. cbn [mbind result_bind].
    rewrite (IH _ (l ++ [o])) by apply lookup_insert_eq.
    destruct (mapM _ entries) as [outs|]; [|done]. cbn [mbind result_bind].
    by rewrite insert_insert_eq, <- app_assoc.
Qed.

Lemma read_category_decode (gcsfs : GCSFS) (read : LocalResult) (cat : category)
    (entry : RemoteOutputCategory) (l : list LocalOutput.t) :
  read !! cat = Some l →
  read_category gcsfs read (cat, entry)
  = outs ← decode_category gcsfs entry; Ok (<[cat := l ++ outs]> read).
Proof.
  intros Hl. unfold read_category, decode_category. cbn [fst snd].
  destruct (gcsfs_read _ _) as [res|]; [|done]. cbn [mbind result_bind].
  destruct (ZipFile_open res); [|done]. cbn [mbind result_bind].
  by apply read_outputs_decode.
Qed.

(** Reading back the archive the builder made of well-formed outputs. *)
Lemma last_filter_Forall2 {A B : Type} (R : A → B → Prop) (P : A → Prop) (Q : B → Prop)
    `{∀ x, Decision (P x)} `{∀ y, Decision (Q y)} (l : list A) (k : list B) :
  Forall2 (λ x y, R x y ∧ (P x ↔ Q y)) l k →
  option_Forall2 R (last (filter P l)) (last (filter Q k)).
Proof.
  revert k. induction l as [|x l IH] using rev_ind; intros k Hlk.
  - apply Forall2_nil_inv_l in Hlk as ->. constructor.
  - apply Forall2_app_inv_l in Hlk as (k1 & k2 & Hk1 & Hk2 & ->).
    apply Forall2_cons_inv_l in Hk2 as (y & k2' & [HR HPQ] & ->%Forall2_nil_inv_l & ->).
    rewrite !filter_app, !filter_cons, !filter_nil.
    destruct (decide (P x)) as [HP|HP], (decide (Q y)) as [HQ|HQ]; try tauto.
    + rewrite !last_snoc. by constructor.
    + rewrite !app_nil_r. by apply IH.
Qed.

Lemma decode_entry_well_formed (outs : list LocalOutput.t) (o : LocalOutput.t) :
  forallb well_formed outs = true → o ∈ outs →
  decode_entry (map member_of outs) (entry_of o)
  = Ok {| LocalOutput.title := LocalOutput.title o;
          LocalOutput.media_type := LocalOutput.media_type o;
          LocalOutput.data := LocalOutput.data (last_written outs o) |}.
Proof.
  intros Hwf Ho. rewrite forallb_forall in Hwf. setoid_rewrite <- list_elem_of_In in Hwf.
  destruct (well_formed_spec o (Hwf _ Ho)) as (ser & Hser & Hname & Hfn & _ & _ & _).
  unfold decode_entry, entry_of, remote_of. cbn [RemoteOutput.media_type
    RemoteOutput.filename RemoteOutput.title]. rewrite Hser. cbn [mbind result_bind].
  unfold zip_read. rewrite NameToInfo_lookup.
  assert (option_Forall2 (λ o' m, m = member_of o')
            (last (filter (λ o', filename_of o' = filename_of o) outs))
            (last (filter (λ m, m.1 = name_of o) (map member_of outs)))) as Hlast.
  { apply last_filter_Forall2. apply Forall2_fmap_r, Forall_Forall2_diag, Forall_forall.
    intros o' Ho'. split; [done|]. cbn [member_of fst].
    destruct (well_formed_spec o' (Hwf _ Ho')) as (_ & _ & _ & Hfn' & _).
    rewrite Hfn, Hfn'. split; congruence. }
  unfold last_written.
  destruct (last (filter (λ o', filename_of o' = filename_of o) outs)) as [o'|] eqn:Hlo.
  2: { exfalso. assert (o ∈ filter (λ o', filename_of o' = filename_of o) outs) as Hin
         by (by apply list_elem_of_filter).
       apply last_None in Hlo. rewrite Hlo in Hin. by apply elem_of_nil in Hin. }
  inversion Hlast as [? m Hm|]; subst m.
  cbn [fmap option_fmap option_map member_of snd default].
  apply last_Some_elem_of, list_elem_of_filter in Hlo as [Hsame Ho'].
  destruct (well_formed_spec o' (Hwf _ Ho')) as (ser' & Hser' & Hname' & Hfn' & _ & _ & Hdes).
  assert (name_of o' = name_of o) as Hnames by congruence.
  rewrite Hname, Hname' in Hnames.
  destruct (output_filename_inj _ _ _ _ _ _ Hser' Hser Hnames) as (_ & -> & _).
  cbn [mbind result_bind]. by rewrite Hdes.
Qed.

Lemma read_back_well_formed (outs : list LocalOutput.t) :
  forallb well_formed outs = true →
  mapM (decode_entry (map member_of outs)) (map entry_of outs) = Ok (read_back outs).
Proof.
  intros Hwf. unfold read_back.
  assert (∀ sub, sub ⊆ outs →
    mapM (decode_entry (map member_of outs)) (map entry_of sub)
    = Ok (map (λ o, {| LocalOutput.title := LocalOutput.title o;
                       LocalOutput.media_type := LocalOutput.media_type o;
                       LocalOutput.data := LocalOutput.data (last_written outs o) |})
            sub)) as Hsub; [|by apply Hsub].
  induction sub as [|o sub IH]; intros Hincl; [done|].
  cbn [map mapM]. rewrite decode_entry_well_formed by (done || set_solver).
  cbn [mbind result_bind]. rewrite IH by set_solver. done.
Qed.



(** ** The orchestrators *)

Lemma foldM_app {A S : Type} (f : S → A → result S) (s : S) (l1 l2 : list A) :
  foldM f s (l1 ++ l2) = s' ← foldM f s l1; foldM f s' l2.
Proof.
  revert s. induction l1 as [|x l1 IH]; intros s; [done|].
  cbn [app foldM]. destruct (f s x); [apply IH | done].
Qed.

Lemma archive_key_inj (task_id : pystr) (c1 c2 : category) :
  archive_key task_id c1 = archive_key task_id c2 → c1 = c2.
Proof.
  unfold archive_key. intros H%app_inv_head. by destruct c1, c2.
Qed.

Lemma write_category_eq (task_id : pystr) (loc_result : LocalResult) (do_upload : bool)
    (rem_result : RemoteResult) (cat : category) (gcsfs : GCSFS) :
  write_category task_id loc_result do_upload rem_result cat gcsfs
  = match loc_result !! cat with
    | None => (gcsfs, Err MissingCategory)
    | Some outs =>
      match build_archive outs with
      | Err e => (gcsfs, Err e)
      | Ok built =>
        (if do_upload then <[archive_key task_id cat := zip_bytes built.1]> gcsfs
         else gcsfs,
         Ok (dict_set rem_result cat
               {| outputs := built.2; ziplocation := archive_key task_id cat |}))
      end
    end.
Proof.
  unfold write_category, lift, mbind, io_bind.
  destruct (loc_result !! cat) as [outs|]; [|done].
  destruct (build_archive outs) as [built|]; [|done]. by destruct do_upload.
Qed.

Lemma write_to_s3like_eq (task_id : pystr) (loc_result : LocalResult) (do_upload : bool)
    (gcsfs : GCSFS) :
  write_to_s3like task_id loc_result do_upload gcsfs
  = match LocalResult_load loc_result with
    | Err e => (gcsfs, Err e)
    | Ok _ =>
      match write_category task_id loc_result do_upload [] renderable gcsfs with
      | (gcsfs1, Err e) => (gcsfs1, Err e)
      | (gcsfs1, Ok rem_result) =>
        write_category task_id loc_result do_upload rem_result downloadable gcsfs1
      end
    end.
Proof.
  unfold write_to_s3like, lift. cbn [foldM_io]. unfold mbind at 1, io_bind at 1.
  destruct (LocalResult_load loc_result); [|done].
  unfold mbind at 1, io_bind at 1.
  destruct (write_category _ _ _ [] renderable gcsfs) as [gcsfs1 [rem_result|]]; [|done].
  unfold mbind, io_bind.
  by destruct (write_category _ _ _ rem_result downloadable gcsfs1) as [gcsfs2 [rem|]].
Qed.

Lemma OneOf_choices (media_type : pystr) :
  OneOf media_type_choices media_type = true ↔ ∃ ser, get_serializer media_type = Ok ser.
Proof. unfold OneOf. by rewrite bool_decide_eq_true, get_serializer_choices. Qed.

Lemma well_formed_valid (outs : list LocalOutput.t) :
  forallb well_formed outs = true → forallb LocalOutput_valid outs = true.
Proof.
  rewrite !forallb_forall. intros Hwf o Ho. unfold LocalOutput_valid.
  pose proof (Hwf o Ho) as Hwfo.
  destruct (well_formed_spec o Hwfo) as (ser & Hser & _).
  rewrite (proj2 (OneOf_choices _)) by eauto. unfold well_formed in Hwfo.
  rewrite Hser in Hwfo. by apply andb_prop in Hwfo as [[-> _]%andb_prop _].
Qed.

Lemma well_formed_valid_entries (outs : list LocalOutput.t) :
  forallb well_formed outs = true →
  forallb (λ e, OneOf media_type_choices (RemoteOutput.media_type e)) (map entry_of outs)
  = true.
Proof.
  intros Hwf%well_formed_valid. induction outs as [|o outs IH]; [done|].
  cbn [forallb map] in *. apply andb_prop in Hwf as [[Ho _]%andb_prop Hwf].
  rewrite IH by done. cbn [entry_of remote_of RemoteOutput.media_type].
  by rewrite Ho.
Qed.

(** A successful write, for any input. *)
Lemma write_to_s3like_Ok (task_id : pystr) (loc_result : LocalResult) (do_upload : bool)
    (gcsfs gcsfs' : GCSFS) (rem_result : RemoteResult) :
  write_to_s3like task_id loc_result do_upload gcsfs = (gcsfs', Ok rem_result) ↔
  LocalResult_load loc_result = Ok () ∧
  ∃ outs_r outs_d built_r built_d,
    loc_result !! renderable = Some outs_r ∧ loc_result !! downloadable = Some outs_d
    ∧ build_archive outs_r = Ok built_r ∧ build_archive outs_d = Ok built_d
    ∧ rem_result
      = [ (renderable,
           {| outputs := built_r.2; ziplocation := archive_key task_id renderable |});
          (downloadable,
           {| outputs := built_d.2; ziplocation := archive_key task_id downloadable |}) ]
    ∧ gcsfs' = if do_upload
               then <[archive_key task_id downloadable := zip_bytes built_d.1]>
                      (<[archive_key task_id renderable := zip_bytes built_r.1]> gcsfs)
               else gcsfs.
Proof.
  rewrite write_to_s3like_eq, !write_category_eq.
  destruct (LocalResult_load loc_result) as [[]|e]; [|split; [done | by intros [? _]]].
  destruct (loc_result !! renderable) as [outs_r|] eqn:Hr.
  2: { split; [done | by intros (_ & ? & ? & ? & ? & ? & _)]. }
  destruct (build_archive outs_r) as [built_r|e] eqn:Hbr.
  2: { split; [done|]. intros (_ & ? & ? & ? & ? & ? & _ & ? & _). congruence. }
  rewrite write_category_eq.
  destruct (loc_result !! downloadable) as [outs_d|] eqn:Hd.
  2: { split; [done | by intros (_ & ? & ? & ? & ? & _ & ? & _)]. }
  destruct (build_archive outs_d) as [built_d|e] eqn:Hbd.
  2: { split; [done|]. intros (_ & ? & ? & ? & ? & _ & ? & _ & ? & _). congruence. }
  cbn [dict_set]. rewrite decide_False by done. cbn [dict_set]. split.
  - intros [= <- <-]. split; [done|]. exists outs_r, outs_d, built_r, built_d.
    by destruct do_upload.
  - intros (_ & or' & od' & br' & bd' & ? & ? & Hbr' & Hbd' & -> & ->).
    simplify_eq. rewrite Hbr in Hbr'. rewrite Hbd in Hbd'. simplify_eq.
    by destruct do_upload.
Qed.

Lemma read_from_s3like_two (gcsfs : GCSFS) (c_r c_d : RemoteOutputCategory) :
  read_from_s3like gcsfs [(renderable, c_r); (downloadable, c_d)]
  = (RemoteResult_load [(renderable, c_r); (downloadable, c_d)];;
     outs_r ← decode_category gcsfs c_r;
     outs_d ← decode_category gcsfs c_d;
     Ok ({[ renderable := outs_r; downloadable := outs_d ]} : LocalResult)).
Proof.
  unfold read_from_s3like. destruct (RemoteResult_load _); [|done].
  cbn [mbind result_bind foldM].
  rewrite (read_category_decode _ _ _ _ []) by done.
  destruct (decode_category gcsfs c_r) as [outs_r|]; [|done]. cbn [mbind result_bind app].
  rewrite (read_category_decode _ _ _ _ []) by done.
  destruct (decode_category gcsfs c_d) as [outs_d|]; [|done]. cbn [mbind result_bind app].
  f_equal; apply map_eq; intros []; by simplify_map_eq.
Qed.

(** What the builder stores of a readable output is well formed. *)
Lemma encode_char_scalar (c : N) (b : bytes) :
  encode_char c = Ok b → is_scalar c = true.
Proof.
  unfold encode_char, is_scalar, is_surrogate. intros Henc.
  destruct (N.ltb_spec c 0x80); [by cmp; try lia|].
  destruct (N.ltb_spec c 0x800); [by cmp; try lia|].
  destruct (N.ltb_spec c 0x10000).
  - destruct (_ && _); [done|]. by destruct (N.ltb_spec c 0x110000); [|lia].
  - destruct (N.ltb_spec c 0x110000); [|done].
    destruct (N.leb_spec c 0xDFFF); [lia|]. by rewrite andb_false_r.
Qed.

Lemma str_encode_scalar (s : pystr) (b : bytes) :
  str_encode s = Ok b → scalar_str s = true.
Proof.
  revert b. induction s as [|c s IH]; intros b; [done|].
  cbn [str_encode]. intros (bc & Hc & (bs & Hs & _)%bind_Ok)%bind_Ok.
  unfold scalar_str. cbn [forallb].
  rewrite (encode_char_scalar _ _ Hc). exact (IH _ Hs).
Qed.






(** Writing well-formed outputs and reading the manifest back. *)
Lemma write_read_well_formed (task_id : pystr) (outs_r outs_d : list LocalOutput.t)
    (gcsfs : GCSFS) :
  forallb well_formed outs_r = true → forallb well_formed outs_d = true →
  let rem_result :=
    [ (renderable,
       {| outputs := map entry_of outs_r; ziplocation := archive_key task_id renderable |});
      (downloadable,
       {| outputs := map entry_of outs_d;
          ziplocation := archive_key task_id downloadable |}) ] in
  let gcsfs' :=
    <[archive_key task_id downloadable := zip_bytes (map member_of outs_d)]>
      (<[archive_key task_id renderable := zip_bytes (map member_of outs_r)]> gcsfs) in
  write_to_s3like task_id {[ renderable := outs_r; downloadable := outs_d ]} true gcsfs
  = (gcsfs', Ok rem_result)
  ∧ read_from_s3like gcsfs' rem_result
    = Ok {[ renderable := read_back outs_r; downloadable := read_back outs_d ]}.
Proof.
  intros Hr Hd rem_result gcsfs'. split.
  - apply write_to_s3like_Ok. split.
    + unfold LocalResult_load. cbn [forallb]. simplify_map_eq.
      by rewrite !well_formed_valid.
    + exists outs_r, outs_d, (map member_of outs_r, map entry_of outs_r),
        (map member_of outs_d, map entry_of outs_d).
      unfold build_archive. rewrite !build_well_formed by done.
      by simplify_map_eq.
  - subst rem_result. rewrite read_from_s3like_two.
    assert (RemoteResult_load
              [ (renderable, {| outputs := map entry_of outs_r;
                                ziplocation := archive_key task_id renderable |});
                (downloadable, {| outputs := map entry_of outs_d;
                                  ziplocation := archive_key task_id downloadable |}) ]
            = Ok ()) as ->.
    { unfold RemoteResult_load. cbn [forallb snd outputs].
      by rewrite !well_formed_valid_entries. }
    cbn [mbind result_bind]. unfold decode_category, gcsfs_read. cbn [ziplocation outputs].
    subst gcsfs'.
    rewrite (lookup_insert_ne _ (archive_key task_id downloadable)
               (archive_key task_id renderable)) by (intros ?%archive_key_inj; done).
    rewrite lookup_insert_eq.
    cbn [mbind result_bind ZipFile_open]. rewrite read_back_well_formed by done.
    cbn [mbind result_bind]. rewrite lookup_insert_eq. cbn [mbind result_bind ZipFile_open].
    by rewrite read_back_well_formed.
Qed.

Lemma read_loop_Ok (gcsfs : GCSFS) (rem_result : RemoteResult) (read : LocalResult) :
  (∀ c, is_Some (read !! c)) →
  Forall (λ entry, ∃ outs, decode_category gcsfs entry.2 = Ok outs) rem_result →
  ∃ read', foldM (read_category gcsfs) read rem_result = Ok read'.
Proof.
  intros Hread Hall. revert read Hread.
  induction Hall as [|[c entry] rem_result (outs & Houts) _ IH]; intros read Hread.
  - by exists read.
  - destruct (Hread c) as [l Hl]. cbn [foldM].
    rewrite (read_category_decode _ _ _ _ l) by done. cbn [snd] in Houts.
    rewrite Houts. cbn [mbind result_bind]. apply IH.
    intros c'. destruct (decide (c = c')) as [->|]; by simplify_map_eq.
Qed.

Lemma manifest_shapes (rem_result : RemoteResult) :
  NoDup (map fst rem_result) →
  rem_result = []
  ∨ (∃ c_r, rem_result = [(renderable, c_r)])
  ∨ (∃ c_d, rem_result = [(downloadable, c_d)])
  ∨ (∃ c_r c_d, rem_result = [(renderable, c_r); (downloadable, c_d)])
  ∨ (∃ c_r c_d, rem_result = [(downloadable, c_d); (renderable, c_r)]).
Proof.
  destruct rem_result as [|[c1 e1] [|[c2 e2] [|[c3 e3] rest]]]; cbn [map fst].
  - by left.
  - destruct c1; eauto 10.
  - intros [Hne _]%NoDup_cons. destruct c1, c2; try set_solver; eauto 10.
  - intros [H1 [H2 _]%NoDup_cons]%NoDup_cons. destruct c1, c2, c3; set_solver.
Qed.

(** ** What validation guarantees *)

Lemma LocalResult_load_valid (loc_result : LocalResult) (c : category)
    (outs : list LocalOutput.t) :
  LocalResult_load loc_result = Ok () → loc_result !! c = Some outs →
  Forall (λ o, ∃ ser, get_serializer (LocalOutput.media_type o) = Ok ser) outs.
Proof.
  unfold LocalResult_load. destruct (forallb _ _) eqn:Hall; [|done]. intros _ Houts.
  rewrite forallb_forall in Hall. specialize (Hall c). rewrite Houts in Hall.
  assert (In c [renderable; downloadable]) as Hc by (destruct c; cbn; auto).
  specialize (Hall Hc). rewrite forallb_forall in Hall.
  apply Forall_forall. intros o Ho%list_elem_of_In. apply OneOf_choices.
  specialize (Hall o Ho). unfold LocalOutput_valid in Hall.
  by apply andb_prop in Hall as [? _].
Qed.

Lemma RemoteResult_load_valid (rem_result : RemoteResult) :
  RemoteResult_load rem_result = Ok () →
  Forall (λ x : category * RemoteOutputCategory,
            Forall (λ o, ∃ ser, get_serializer (RemoteOutput.media_type o) = Ok ser)
                   (outputs x.2)) rem_result.
Proof.
  unfold RemoteResult_load. destruct (forallb _ _) eqn:Hall; [|done]. intros _.
  rewrite forallb_forall in Hall. apply Forall_forall. intros x Hx%list_elem_of_In.
  specialize (Hall x Hx). rewrite forallb_forall in Hall.
  apply Forall_forall. intros o Ho%list_elem_of_In. apply OneOf_choices. by apply Hall.
Qed.

Lemma build_entries_valid (outs : list LocalOutput.t) (built : ZipFile * list RemoteOutput.t) :
  build_archive outs = Ok built →
  Forall (λ e, ∃ ser, get_serializer (RemoteOutput.media_type e) = Ok ser
               ∧ RemoteOutput.filename e = output_filename (RemoteOutput.title e) ser)
         built.2.
Proof.
  intros (es & Hes & Hall)%build_entries. cbn [snd app] in Hes. subst es.
  induction Hall as [|o e outs es (filename & Hname & ->) _ IH]; constructor; [|done].
  unfold filename_of in Hname. cbn.
  destruct (get_serializer (LocalOutput.media_type o)) as [ser|]; [|done].
  injection Hname as <-. eauto.
Qed.

(** ** The store around a write and under a read *)

(** A write, whatever its outcome, leaves the keys of other archives alone. *)
Lemma write_store_frame (task_id : pystr) (loc_result : LocalResult) (do_upload : bool)
    (gcsfs : GCSFS) (key : pystr) :
  (∀ c, key ≠ archive_key task_id c) →
  (write_to_s3like task_id loc_result do_upload gcsfs).1 !! key = gcsfs !! key.
Proof.
  intros Hkey.
  rewrite !write_to_s3like_eq, !write_category_eq.
  destruct (LocalResult_load loc_result); [|done].
  destruct (loc_result !! renderable) as [outs_r|]; [|done].
  destruct (build_archive outs_r); [|done].
  rewrite !write_category_eq.
  assert (∀ c b, <[archive_key task_id c := b]> gcsfs !! key = gcsfs !! key) as Hone.
  { intros c b. apply lookup_insert_ne, not_eq_sym, Hkey. }
  assert (∀ c b c' b', <[archive_key task_id c' := b']> (<[archive_key task_id c := b]> gcsfs)
                       !! key = gcsfs !! key) as Htwo.
  { intros c b c' b'. rewrite lookup_insert_ne by apply not_eq_sym, Hkey. apply Hone. }
  destruct (loc_result !! downloadable) as [outs_d|], do_upload; cbn [fst];
    try destruct (build_archive outs_d); cbn [fst]; done.
Qed.

Lemma read_same_blobs (gcsfs1 gcsfs2 : GCSFS) (rem_result : RemoteResult) :
  (∀ c entry, (c, entry) ∈ rem_result →
              gcsfs1 !! ziplocation entry = gcsfs2 !! ziplocation entry) →
  read_from_s3like gcsfs1 rem_result = read_from_s3like gcsfs2 rem_result.
Proof.
  intros Hsame. unfold read_from_s3like.
  destruct (RemoteResult_load rem_result); [|done]. cbn [mbind result_bind].
  generalize ({[ renderable := []; downloadable := [] ]} : LocalResult).
  induction rem_result as [|[c entry] rem_result IH]; intros read; [done|].
  cbn [foldM].
  assert (read_category gcsfs1 read (c, entry) = read_category gcsfs2 read (c, entry)) as ->.
  { unfold read_category, gcsfs_read. cbn [snd]. by rewrite (Hsame c entry) by left. }
  destruct (read_category gcsfs2 read (c, entry)); [|done]. cbn [mbind result_bind].
  apply IH. intros c' entry' Hin. apply (Hsame c'). by right.
Qed.

(** The key of an archive determines the task and the category: the two
    suffixes differ at the ninth character from the end. *)
Lemma archive_key_inj2 (t1 t2 : pystr) (c1 c2 : category) :
  archive_key t1 c1 = archive_key t2 c2 → t1 = t2 ∧ c1 = c2.
Proof.
  unfold archive_key. intros Heq.
  assert (c1 = c2) as ->.
  { apply (f_equal (λ s, reverse s !! 8)) in Heq.
    rewrite !reverse_app in Heq.
    destruct c1, c2; try done; rewrite <- !app_assoc in Heq; vm_compute in Heq; done. }
  split; [|done]. by apply app_inv_tail in Heq.
Qed.

Lemma manifest_keys (task_id : pystr) (loc_result : LocalResult) (do_upload : bool)
    (gcsfs gcsfs' : GCSFS) (rem_result : RemoteResult) (c : category)
    (entry : RemoteOutputCategory) :
  write_to_s3like task_id loc_result do_upload gcsfs = (gcsfs', Ok rem_result) →
  (c, entry) ∈ rem_result → ziplocation entry = archive_key task_id c.
Proof.
  intros (_ & outs_r & outs_d & built_r & built_d & _ & _ & _ & _ & -> & _)%write_to_s3like_Ok.
  rewrite !elem_of_cons, elem_of_nil. by intros [[= -> ->]|[[= -> ->]|[]]].
Qed.

(** ** The write under either binding of the client *)

Lemma write_category_in_eq (binding : GCSFS_binding) (task_id : pystr)
    (loc_result : LocalResult) (do_upload : bool)
    (rem_result : RemoteResult) (cat : category) (gcsfs : GCSFS) :
  write_category_in binding task_id loc_result do_upload rem_result cat gcsfs
  = match loc_result !! cat with
    | None => (gcsfs, Err MissingCategory)
    | Some outs =>
      match build_archive outs with
      | Err e => (gcsfs, Err e)
      | Ok built =>
        match do_upload, binding with
        | true, GCSFS_None => (gcsfs, Err AttributeError)
        | true, GCSFS_class =>
          (<[archive_key task_id cat := zip_bytes built.1]> gcsfs,
           Ok (dict_set rem_result cat
                 {| outputs := built.2; ziplocation := archive_key task_id cat |}))
        | false, _ =>
          (gcsfs,
           Ok (dict_set rem_result cat
                 {| outputs := built.2; ziplocation := archive_key task_id cat |}))
        end
      end
    end.
Proof.
  unfold write_category_in, lift, mbind, io_bind.
  destruct (loc_result !! cat) as [outs|]; [|done].
  destruct (build_archive outs) as [built|]; [|done]. by destruct do_upload, binding.
Qed.

Lemma write_to_s3like_in_eq (binding : GCSFS_binding) (task_id : pystr)
    (loc_result : LocalResult) (do_upload : bool) (gcsfs : GCSFS) :
  write_to_s3like_in binding task_id loc_result do_upload gcsfs
  = match LocalResult_load loc_result with
    | Err e => (gcsfs, Err e)
    | Ok _ =>
      match write_category_in binding task_id loc_result do_upload [] renderable gcsfs with
      | (gcsfs1, Err e) => (gcsfs1, Err e)
      | (gcsfs1, Ok rem_result) =>
        write_category_in binding task_id loc_result do_upload rem_result downloadable gcsfs1
      end
    end.
Proof.
  unfold write_to_s3like_in, lift. cbn [foldM_io]. unfold mbind at 1, io_bind at 1.
  destruct (LocalResult_load loc_result); [|done].
  unfold mbind at 1, io_bind at 1.
  destruct (write_category_in _ _ _ _ [] renderable gcsfs) as [gcsfs1 [rem_result|]]; [|done].
  unfold mbind, io_bind.
  by destruct (write_category_in _ _ _ _ rem_result downloadable gcsfs1) as [gcsfs2 [rem|]].
Qed.

(** ** Decoding is undone by encoding *)

Lemma is_cont_spec (b : N) : is_cont b = true ↔ (0x80 ≤ b ≤ 0xBF)%N.
Proof. unfold is_cont. rewrite andb_true_iff, !N.leb_le. lia. Qed.

Lemma decode_encode_length (n : nat) (b : bytes) (s : pystr) :
  length b ≤ n → bytes_decode b = Ok s → str_encode s = Ok b.
Proof.
  revert b s. induction n as [|n IH]; intros [|b0 r] s Hn; try by intros [= <-].
  { cbn in Hn. lia. }
  cbn [length] in Hn. cbn [bytes_decode].
  destruct (N.ltb_spec b0 0x80).
  { intros (s' & Hs' & [= <-])%bind_Ok. cbn [str_encode].
    rewrite (IH r s') by (done || lia). unfold encode_char.
    by destruct (N.ltb_spec b0 0x80); [|lia]. }
  destruct (N.ltb_spec b0 0xC2); [done|].
  destruct (N.ltb_spec b0 0xE0).
  { destruct r as [|b1 r1]; [done|].
    destruct (is_cont b1) eqn:Hc1; [|done]. apply is_cont_spec in Hc1.
    intros (s' & Hs' & [= <-])%bind_Ok. cbn [str_encode].
    rewrite (IH r1 s') by (done || cbn [length] in Hn; lia). unfold encode_char.
    cmp. cbn [mbind result_bind app]. f_equal.
    repeat (f_equal; try lia). }
  destruct (N.ltb_spec b0 0xF0).
  { destruct r as [|b1 [|b2 r2]]; [done..|]. cbn zeta.
    destruct (is_cont b1) eqn:Hc1; [|done]. apply is_cont_spec in Hc1.
    destruct (is_cont b2) eqn:Hc2; [|done]. apply is_cont_spec in Hc2.
    cbn [andb].
    destruct (N.ltb_spec ((b0 - 224) * 4096 + (b1 - 128) * 64 + (b2 - 128)) 0x800);
      [done|]. cbn [negb andb].
    destruct (is_surrogate _) eqn:Hsur; [done|]. cbn [negb].
    intros (s' & Hs' & [= <-])%bind_Ok. cbn [str_encode].
    rewrite (IH r2 s') by (done || cbn [length] in Hn; lia). unfold encode_char.
    rewrite Hsur. cmp. cbn [mbind result_bind app]. f_equal.
    repeat (f_equal; try lia). }
  destruct (N.ltb_spec b0 0xF5); [|done].
  destruct r as [|b1 [|b2 [|b3 r3]]]; [done..|]. cbn zeta.
  destruct (is_cont b1) eqn:Hc1; [|done]. apply is_cont_spec in Hc1.
  destruct (is_cont b2) eqn:Hc2; [|done]. apply is_cont_spec in Hc2.
  destruct (is_cont b3) eqn:Hc3; [|done]. apply is_cont_spec in Hc3.
  cbn [andb].
  destruct (N.ltb_spec ((b0 - 240) * 262144 + (b1 - 128) * 4096 + (b2 - 128) * 64
                        + (b3 - 128)) 0x10000); [done|]. cbn [negb andb].
  destruct (N.ltb_spec ((b0 - 240) * 262144 + (b1 - 128) * 4096 + (b2 - 128) * 64
                        + (b3 - 128)) 0x110000); [|done].
  intros (s' & Hs' & [= <-])%bind_Ok. cbn [str_encode].
  rewrite (IH r3 s') by (done || cbn [length] in Hn; lia). unfold encode_char.
  cmp. cbn [mbind result_bind app]. f_equal.
  repeat (f_equal; try lia).
Qed.

Lemma decode_encode (b : bytes) (s : pystr) :
  bytes_decode b = Ok s → str_encode s = Ok b.
Proof. by apply (decode_encode_length (length b)). Qed.

Lemma str_encode_EncodeError (s : pystr) (e : error) :
  str_encode s = Err e → e = EncodeError.
Proof.
  induction s as [|c s IH]; [done|]. cbn [str_encode].
  destruct (encode_char c) as [b|e'] eqn:Hc; cbn [mbind result_bind].
  - destruct (str_encode s); [done|]. intros [= <-]. by apply IH.
  - intros [= <-]. unfold encode_char in Hc. repeat case_match; congruence.
Qed.

Lemma str_encode_not_scalar (s : pystr) :
  scalar_str s = false → str_encode s = Err EncodeError.
Proof.
  intros Hs. destruct (str_encode s) as [b|e] eqn:Henc.
  - apply str_encode_scalar in Henc. congruence.
  - by rewrite (str_encode_EncodeError _ _ Henc).
Qed.

Lemma bytes_decode_DecodeError (b : bytes) (e : error) :
  bytes_decode b = Err e → e = DecodeError.
Proof.
  remember (length b) as n eqn:Hn. revert b Hn.
  induction n as [n IH] using lt_wf_ind. intros b ->.
  assert (∀ b', length b' < length b → bytes_decode b' = Err e → e = DecodeError) as IH'.
  { intros b' Hlt. by eapply IH. }
  clear IH. destruct b as [|b0 r]; [done|]. cbn [bytes_decode].
  repeat (case_match; simplify_eq; try by intros [= <-]).
  all: match goal with
       | |- bytes_decode ?s' ≫= _ = _ → _ =>
         let H := fresh in
         pose proof (IH' s') as H; destruct (bytes_decode s') as [?|?];
         cbn [mbind result_bind]; try done; intros [= ->]; apply H;
         [cbn [length]; lia | done]
       end.
Qed.

(** ** The domain of [json.dumps] and the outcomes of [json.loads] *)

Lemma escape_char_ascii_any (c : N) : Forall (λ c, c < 128)%N (escape_char c).
Proof.
  unfold escape_char, u_escape.
  assert (∀ d, d < 16 → hexdigit d < 128)%N as Hhex.
  { intros d Hd. pose proof (hexdigit_ascii d Hd). lia. }
  repeat match goal with
    | |- context [N.eqb ?a ?b] => destruct (N.eqb_spec a b)
    end; try by repeat constructor.
  destruct (N.leb_spec 32 c); cbn [andb].
  1: destruct (N.leb_spec c 126); [repeat constructor; lia|].
  all: destruct (N.ltb_spec c 0x10000).
  all: repeat first [apply Forall_app; split | constructor]; try lia.
  all: apply Hhex; lia.
Qed.

Lemma encode_basestring_ascii_any (s : pystr) :
  Forall (λ c, c < 128)%N (encode_basestring_ascii s).
Proof.
  unfold encode_basestring_ascii.
  apply Forall_app_2; [repeat constructor; lia|].
  apply Forall_app_2; [|repeat constructor; lia].
  induction s as [|c s IH]; [constructor|]. cbn [map concat].
  apply Forall_app_2; [apply escape_char_ascii_any | done].
Qed.

Lemma mapM_domain {A B : Type} (f : A → result B) (ok : A → bool) (P : B → Prop)
    (errors : list error) (l : list A) :
  Forall (λ x, if ok x then ∃ y, f x = Ok y ∧ P y
               else ∃ e, f x = Err e ∧ e ∈ errors) l →
  if forallb ok l then ∃ ys, mapM f l = Ok ys ∧ Forall P ys
  else ∃ e, mapM f l = Err e ∧ e ∈ errors.
Proof.
  induction 1 as [|x l Hx _ IH]; [by exists []|]. cbn [forallb mapM].
  destruct (ok x).
  - destruct Hx as (y & -> & Hy). cbn [andb mbind result_bind].
    destruct (forallb ok l).
    + destruct IH as (ys & -> & Hys). exists (y :: ys). by split; [|constructor].
    + destruct IH as (e & -> & He). by exists e.
  - destruct Hx as (e & -> & He). by exists e.
Qed.

Lemma json_dumps_domain (v : pyval) (depth : nat) :
  if json_encodable depth v
  then ∃ t, json_dumps depth v = Ok t ∧ Forall (λ c, c < 128)%N t
  else ∃ e, json_dumps depth v = Err e ∧ e ∈ [TypeError; ValueError; RecursionError].
Proof.
  revert depth.
  induction v as [|b|z|s|b|l IH|d IH] using pyval_ind'; intros depth;
    cbn [json_encodable].
  - exists (lit "null"). split; [done|]. vm_compute. repeat constructor.
  - destruct b; eexists; (split; [done|]); vm_compute; repeat constructor.
  - cbn [json_dumps]. destruct (digits_ok z) eqn:Hz.
    + exists (int_repr z). split; [by apply int_str_ok|].
      by destruct (int_repr_shape z) as [? _].
    + exists ValueError. split; [by apply int_str_ValueError | among].
  - eexists. split; [done|]. apply encode_basestring_ascii_any.
  - exists TypeError. split; [done | among].
  - destruct depth as [|depth]; [exists RecursionError; split; [done | among]|].
    rewrite json_dumps_list.
    pose proof (mapM_domain (json_dumps depth) (json_encodable depth)
                  (Forall (λ c, c < 128)%N) [TypeError; ValueError; RecursionError] l)
      as Hitems.
    destruct (forallb (json_encodable depth) l).
    + destruct Hitems as (ts & -> & Hts).
      { eapply Forall_impl; [exact IH|]. intros x Hx. apply Hx. }
      cbn [mbind result_bind]. eexists. split; [done|].
      apply Forall_app_2; [vm_compute; repeat constructor|].
      apply Forall_app_2; [|vm_compute; repeat constructor].
      apply join_ascii; [vm_compute; repeat constructor | done].
    + destruct Hitems as (e & -> & He); [|by exists e].
      eapply Forall_impl; [exact IH|]. intros x Hx. apply Hx.
  - destruct depth as [|depth]; [exists RecursionError; split; [done | among]|].
    rewrite json_dumps_dict.
    pose proof (mapM_domain (dumps_pair depth)
                  (λ kv : pystr * pyval, json_encodable depth kv.2)
                  (Forall (λ c, c < 128)%N) [TypeError; ValueError; RecursionError] d)
      as Hitems.
    assert (Forall (λ kv : pystr * pyval,
                      if json_encodable depth kv.2
                      then ∃ t, dumps_pair depth kv = Ok t ∧ Forall (λ c, c < 128)%N t
                      else ∃ e, dumps_pair depth kv = Err e
                                ∧ e ∈ [TypeError; ValueError; RecursionError]) d) as Hall.
    { eapply Forall_impl; [exact IH|]. intros [k x] Hx. cbn [snd] in *.
      specialize (Hx depth). unfold dumps_pair. cbn [fst snd].
      destruct (json_encodable depth x).
      - destruct Hx as (t & -> & Hascii). cbn [mbind result_bind]. eexists.
        split; [done|]. apply Forall_app_2; [apply encode_basestring_ascii_any|].
        apply Forall_app_2; [vm_compute; repeat constructor | done].
      - destruct Hx as (e & -> & He). by exists e. }
    destruct (forallb _ d).
    + destruct (Hitems Hall) as (ts & -> & Hts).
      cbn [mbind result_bind]. eexists. split; [done|].
      apply Forall_app_2; [vm_compute; repeat constructor|].
      apply Forall_app_2; [|vm_compute; repeat constructor].
      apply join_ascii; [vm_compute; repeat constructor | done].
    + destruct (Hitems Hall) as (e & -> & He). by exists e.
Qed.

(** The encoder fails on lists nested deeper than the recursion depth. *)
Lemma json_dumps_nested (depth : nat) :
  json_dumps depth (nested depth) = Err RecursionError.
Proof.
  induction depth as [|depth IH]; [done|].
  cbn [nested]. rewrite json_dumps_list. cbn [mapM]. by rewrite IH.
Qed.

Lemma scanstring_DecodeError (s : pystr) (e : error) :
  scanstring s = Err e → e = DecodeError.
Proof.
  remember (length s) as n eqn:Hn. revert s Hn.
  induction n as [n IH] using lt_wf_ind. intros s ->.
  assert (∀ s', length s' < length s → scanstring s' = Err e → e = DecodeError) as IH'.
  { intros s' Hlt. by eapply IH. }
  clear IH. destruct s as [|c s]; [by intros [= <-]|]. cbn [scanstring].
  repeat (case_match; simplify_eq; try by intros [= <-]).
  all: match goal with
       | |- scanstring ?s' ≫= _ = _ → _ =>
         let H := fresh in
         pose proof (IH' s') as H; destruct (scanstring s') as [[??]|?];
         cbn [mbind result_bind]; try done; intros [= ->]; apply H;
         [cbn [length]; lia | done]
       end.
Qed.

Lemma match_number_scanned (s : pystr) : scanned (match_number s).
Proof.
  assert (∀ neg s, scanned (match_integer neg s)) as Hint.
  { intros neg [|d r]; [cbn; unfold scan_errors; among|]. cbn [match_integer].
    unfold finish_number, scanned, scan_errors.
    repeat case_match; simplify_eq; try done; among. }
  destruct s as [|c s]; [cbn; unfold scan_errors; among|]. cbn [match_number].
  destruct (c =? 45)%N; apply Hint.
Qed.

Lemma scan_scanned (n : nat) :
  (∀ depth s, scanned (scan_once n depth s))
  ∧ (∀ depth acc s, scanned (parse_array n depth acc s))
  ∧ (∀ depth acc s, scanned (parse_object n depth acc s)).
Proof.
  assert (scanned (Err DecodeError) ∧ scanned (Err RecursionError)
          ∧ scanned (Err OutOfFuel) ∧ scanned (Err FloatNotModelled))
    as (HD & HR & HO & HF).
  { unfold scanned, scan_errors. repeat split; among. }
  induction n as [|n (IHscan & IHarr & IHobj)]; [by repeat split; intros|].
  split; [|split].
  - intros depth [|c r]; [done|]. rewrite scan_once_S.
    destruct (c =? 34)%N.
    { destruct (scanstring r) as [[str rest]|e] eqn:Hs; cbn [mbind result_bind]; [done|].
      by rewrite (scanstring_DecodeError _ _ Hs). }
    destruct (c =? 123)%N.
    { destruct depth as [|depth]; [done|].
      destruct (skip_ws r) as [|c' r']; [done|].
      destruct (c' =? 125)%N; [done | apply IHobj]. }
    destruct (c =? 91)%N.
    { destruct depth as [|depth]; [done|].
      destruct (skip_ws r) as [|c' r']; [done|].
      destruct (c' =? 93)%N; [done | apply IHarr]. }
    destruct (strip_prefix (lit "null") (c :: r)); [done|].
    destruct (strip_prefix (lit "true") (c :: r)); [done|].
    destruct (strip_prefix (lit "false") (c :: r)); [done|].
    match goal with |- context [if ?b then _ else _] => destruct b end;
      [done | apply match_number_scanned].
  - intros depth acc s. rewrite parse_array_S.
    pose proof (IHscan depth s) as Hs.
    destruct (scan_once n depth s) as [[val r]|e]; cbn [mbind result_bind]; [|done].
    destruct (skip_ws r) as [|c r']; [done|].
    destruct (c =? 93)%N; [done|].
    destruct (c =? 44)%N; [apply IHarr | done].
  - intros depth acc [|c r]; [done|]. rewrite parse_object_S.
    destruct (c =? 34)%N; [|done].
    destruct (scanstring r) as [[key r1]|e] eqn:Hs; cbn [mbind result_bind];
      [|by rewrite (scanstring_DecodeError _ _ Hs)].
    destruct (skip_ws r1) as [|c1 r2]; [done|].
    destruct (c1 =? 58)%N; [|done].
    pose proof (IHscan depth (skip_ws r2)) as Hv.
    destruct (scan_once n depth (skip_ws r2)) as [[val r3]|e]; cbn [mbind result_bind];
      [|done].
    destruct (skip_ws r3) as [|c2 r4]; [done|].
    destruct (c2 =? 125)%N; [done|].
    destruct (c2 =? 44)%N; [apply IHobj | done].
Qed.

Lemma json_loads_errors (depth : nat) (s : pystr) (e : error) :
  json_loads depth s = Err e →
  e ∈ [DecodeError; FloatNotModelled; ValueError; RecursionError].
Proof.
  pose proof (json_loads_fuel depth s) as Hfuel. unfold json_loads in *.
  assert (match s with
          | [] => Ok ()
          | c :: _ => if (c =? 65279)%N then Err DecodeError else Ok ()
          end = Ok () ∨
          match s with
          | [] => Ok ()
          | c :: _ => if (c =? 65279)%N then Err DecodeError else Ok ()
          end = Err DecodeError) as [Heq | Heq];
    [destruct s as [|c ?]; [|destruct (c =? 65279)%N]; auto | |];
    rewrite Heq in *; cbn [mbind result_bind] in *; [|intros [= <-]; among].
  pose proof (proj1 (scan_scanned (2 * length s + 2)) depth (skip_ws s)) as Hs.
  destruct (scan_once _ _ _) as [[obj rest]|e']; cbn [mbind result_bind] in *.
  - destruct (skip_ws rest); [done | intros [= <-]; among].
  - intros [= <-]. unfold scanned, scan_errors in Hs.
    repeat (apply elem_of_cons in Hs as [->|Hs]);
      first [among | by destruct Hfuel | by apply elem_of_nil in Hs].
Qed.

(** ** The exceptions of the orchestrators *)

Lemma serialize_errors (ser : serializer) (data : pyval) (e : error) :
  serialize ser data = Err e →
  e ∈ [AttributeError; EncodeError; TypeError; ValueError; RecursionError].
Proof.
  destruct ser as [x|x|x]; cbn [serialize].
  - done.
  - pose proof (json_dumps_domain data encoder_depth) as Hd.
    destruct (json_encodable encoder_depth data).
    + destruct Hd as (t & -> & Hascii). cbn [mbind result_bind].
      by rewrite encode_ascii.
    + destruct Hd as (e' & -> & He'). intros [= <-]. among_from He'.
  - destruct data as [| | |s| | |]; try (intros [= <-]; among).
    destruct (str_encode s) as [b|e'] eqn:Hs; [done|]. intros [= <-].
    rewrite (str_encode_EncodeError _ _ Hs). among.
Qed.

Lemma writestr_errors (zipfileobj : ZipFile) (arcname : pystr) (data : pyval) (e : error) :
  writestr zipfileobj arcname data = Err e →
  e ∈ [EncodeError; TypeError; IndexError; StructError].
Proof.
  unfold writestr.
  destruct (match data with
            | PStr s => b ← str_encode s; Ok (PBytes b)
            | _ => Ok data
            end) as [data'|e'] eqn:Hdata; cbn [mbind result_bind].
  2: { intros [= <-]. destruct data; try done.
       destruct (str_encode s) eqn:Hs; [done|]. injection Hdata as <-.
       rewrite (str_encode_EncodeError _ _ Hs). among. }
  case_bool_decide; cbn [mbind result_bind]; [intros [= <-]; among|].
  destruct (match data' with
            | PNone | PBool _ | PInt _ => Err TypeError
            | _ => Ok data'
            end) as [content|e'] eqn:Hcontent; cbn [mbind result_bind].
  2: { intros [= <-]. destruct data'; simplify_eq; among. }
  destruct (str_encode (sanitize_filename arcname)) as [enc|e'] eqn:Henc;
    cbn [mbind result_bind].
  2: { intros [= <-]. rewrite (str_encode_EncodeError _ _ Henc). among. }
  destruct (_ <? _)%N; [intros [= <-]; among|].
  destruct content; try done; intros [= <-]; among.
Qed.

Lemma build_errors (outs : list LocalOutput.t) (st : ZipFile * list RemoteOutput.t)
    (e : error) :
  Forall (λ o, ∃ ser, get_serializer (LocalOutput.media_type o) = Ok ser) outs →
  foldM write_output st outs = Err e →
  e ∈ [AttributeError; EncodeError; TypeError; ValueError; RecursionError;
       IndexError; StructError].
Proof.
  intros Hvalid. revert st. induction Hvalid as [|o outs (ser & Hser) _ IH]; intros st.
  { done. }
  cbn [foldM]. destruct (write_output st o) as [st1|e'] eqn:Hst; cbn [mbind result_bind].
  { apply IH. }
  intros [= <-]. destruct st as [z es]. unfold write_output in Hst. rewrite Hser in Hst.
  cbn [mbind result_bind] in Hst.
  destruct (serialize ser (LocalOutput.data o)) as [raw|e''] eqn:Hraw;
    cbn [mbind result_bind] in Hst.
  2: { injection Hst as <-. apply serialize_errors in Hraw. among_from Hraw. }
  destruct (writestr z _ raw) as [z'|e''] eqn:Hz; [done|].
  injection Hst as <-. apply writestr_errors in Hz. among_from Hz.
Qed.

Lemma write_to_s3like_errors (task_id : pystr) (loc_result : LocalResult)
    (do_upload : bool) (gcsfs gcsfs' : GCSFS) (e : error) :
  write_to_s3like task_id loc_result do_upload gcsfs = (gcsfs', Err e) → e ∈ write_errors.
Proof.
  rewrite write_to_s3like_eq, !write_category_eq. unfold write_errors.
  destruct (LocalResult_load loc_result) as [[]|e'] eqn:Hload.
  2: { intros [= _ <-]. unfold LocalResult_load in Hload.
       destruct (forallb _ _); simplify_eq. among. }
  assert (∀ c outs, loc_result !! c = Some outs → build_archive outs = Err e →
                    e ∈ [ValidationError; MissingCategory; AttributeError; EncodeError;
                         TypeError; ValueError; RecursionError; IndexError; StructError])
    as Hbuild.
  { intros c outs Houts Hb. eapply build_errors in Hb;
      [among_from Hb | by eapply LocalResult_load_valid]. }
  destruct (loc_result !! renderable) as [outs_r|] eqn:Hr; [|intros [= _ <-]; among].
  destruct (build_archive outs_r) as [built_r|e'] eqn:Hbr;
    [|intros [= _ <-]; by eapply Hbuild].
  rewrite write_category_eq.
  destruct (loc_result !! downloadable) as [outs_d|] eqn:Hd; [|intros [= _ <-]; among].
  destruct (build_archive outs_d) as [built_d|e'] eqn:Hbd;
    [done | intros [= _ <-]; by eapply Hbuild].
Qed.

Lemma decode_category_errors (gcsfs : GCSFS) (entry : RemoteOutputCategory) (e : error) :
  Forall (λ o, ∃ ser, get_serializer (RemoteOutput.media_type o) = Ok ser) (outputs entry) →
  decode_category gcsfs entry = Err e →
  e ∈ [BlobNotFound; BadZipFile; MissingMember; DecodeError; FloatNotModelled;
       ValueError; RecursionError].
Proof.
  intros Hvalid. unfold decode_category, gcsfs_read.
  destruct (gcsfs !! ziplocation entry) as [res|]; cbn [mbind result_bind];
    [|intros [= <-]; among].
  destruct res as [z|]; cbn [ZipFile_open mbind result_bind];
    [|intros [= <-]; among].
  induction Hvalid as [|o outs (ser & Hser) _ IH]; [done|].
  cbn [mapM]. destruct (decode_entry z o) as [x|e'] eqn:Ho; cbn [mbind result_bind].
  { destruct (mapM _ outs); [done|]. intros [= <-]. by apply IH. }
  intros [= <-]. unfold decode_entry in Ho. rewrite Hser in Ho. cbn [mbind result_bind] in Ho.
  unfold zip_read in Ho.
  destruct (NameToInfo z !! _) as [raw|]; cbn [mbind result_bind] in Ho;
    [|injection Ho as <-; among].
  destruct (deserialize ser raw) as [v|e''] eqn:Hv; [done|]. injection Ho as <-.
  destruct ser; cbn [deserialize] in Hv; [done| |].
  - destruct (bytes_decode raw) as [s|] eqn:Hs; cbn [mbind result_bind] in Hv.
    + apply json_loads_errors in Hv. among_from Hv.
    + injection Hv as <-. rewrite (bytes_decode_DecodeError _ _ Hs). among.
  - destruct (bytes_decode raw) as [s|] eqn:Hs; [done|].
    injection Hv as <-. rewrite (bytes_decode_DecodeError _ _ Hs). among.
Qed.

Lemma read_from_s3like_errors (gcsfs : GCSFS) (rem_result : RemoteResult) (e : error) :
  read_from_s3like gcsfs rem_result = Err e →
  e ∈ [ValidationError; BlobNotFound; BadZipFile; MissingMember; DecodeError;
       FloatNotModelled; ValueError; RecursionError].
Proof.
  unfold read_from_s3like.
  destruct (RemoteResult_load rem_result) as [[]|e'] eqn:Hload; cbn [mbind result_bind].
  2: { intros [= <-]. unfold RemoteResult_load in Hload.
       destruct (forallb _ _); simplify_eq. among. }
  apply RemoteResult_load_valid in Hload as Hvalid. clear Hload.
  assert (∀ c, is_Some (({[ renderable := []; downloadable := [] ]} : LocalResult) !! c))
    as Hread by (intros []; by simplify_map_eq).
  revert Hread. generalize ({[ renderable := []; downloadable := [] ]} : LocalResult).
  induction Hvalid as [|[c entry] rem_result Hentry _ IH]; intros read Hread; [done|].
  cbn [foldM]. destruct (Hread c) as [l Hl].
  rewrite (read_category_decode _ _ _ _ l) by done.
  destruct (decode_category gcsfs entry) as [outs|e'] eqn:Hdec; cbn [mbind result_bind].
  - apply IH. intros c'. destruct (decide (c = c')) as [->|]; by simplify_map_eq.
  - intros [= <-]. eapply decode_category_errors in Hdec; [among_from Hdec | done].
Qed.

(** [writestr] encodes a [str] payload before it stores it. *)
Lemma writestr_text (zipfileobj : ZipFile) (arcname s : pystr) (b : bytes) :
  str_encode s = Ok b →
  writestr zipfileobj arcname (PStr s) = writestr zipfileobj arcname (PBytes b).
Proof. intros Hb. unfold writestr. by rewrite Hb. Qed.

(** ** Inputs at the limits of the interpreter *)

Lemma digits_ok_huge : digits_ok huge_int = false.
Proof.
  unfold digits_ok. apply N.leb_gt.
  assert (N.to_nat 4300 < length (digits (Z.abs_N huge_int))) as Hlen.
  { apply digits_length. apply N.leb_le. vm_compute. reflexivity. }
  unfold max_str_digits. lia.
Qed.

Lemma json_dumps_huge (depth : nat) : json_dumps depth (PInt huge_int) = Err ValueError.
Proof. cbn [json_dumps]. apply int_str_ValueError, digits_ok_huge. Qed.

(** The scanner fails on brackets opened deeper than the recursion depth. *)
Lemma scan_once_nested (depth n : nat) :
  2 * depth < n → scan_once n depth (replicate (S depth) 91%N) = Err RecursionError.
Proof.
  revert n. induction depth as [|depth IH]; intros n Hn.
  - destruct n as [|n]; [lia|]. cbn [replicate]. by rewrite scan_once_S.
  - destruct n as [|[|n]]; [lia..|].
    change (replicate (S (S depth)) 91%N) with (91%N :: replicate (S depth) 91%N).
    rewrite scan_once_S.
    change (skip_ws (replicate (S depth) 91%N)) with (91%N :: replicate depth 91%N).
    change ((91 =? 34)%N) with false. change ((91 =? 123)%N) with false.
    change ((91 =? 91)%N) with true. change ((91 =? 93)%N) with false. cbv iota.
    rewrite parse_array_S.
    change (91%N :: replicate depth 91%N) with (replicate (S depth) 91%N).
    by rewrite IH by lia.
Qed.

Lemma json_loads_nested (depth : nat) :
  json_loads depth (replicate (S depth) 91%N) = Err RecursionError.
Proof.
  unfold json_loads. cbn [replicate].
  change ((91 =? 65279)%N) with false. cbn [mbind result_bind].
  change (skip_ws (91%N :: replicate depth 91%N)) with (replicate (S depth) 91%N).
  rewrite scan_once_nested; [done|]. cbn [length]. rewrite length_replicate. lia.
Qed.

(** ** Results with one output *)

Lemma LocalResult_load_one_output (title media_type : pystr) (data : pyval)
    (ser : serializer) :
  get_serializer media_type = Ok ser → is_None data = false →
  LocalResult_load (one_output title media_type data) = Ok ().
Proof.
  intros Hser Hdata. unfold LocalResult_load, one_output. cbn [forallb].
  simplify_map_eq. cbn [forallb]. unfold LocalOutput_valid.
  cbn [LocalOutput.media_type LocalOutput.data].
  by rewrite (proj2 (OneOf_choices media_type)), Hdata by eauto.
Qed.

(** The write raises what the serializer of its one output raises. *)
Lemma write_one_output_error (task_id title media_type : pystr) (data : pyval)
    (ser : serializer) (do_upload : bool) (gcsfs : GCSFS) (e : error) :
  get_serializer media_type = Ok ser → is_None data = false →
  serialize ser data = Err e →
  write_to_s3like task_id (one_output title media_type data) do_upload gcsfs
  = (gcsfs, Err e).
Proof.
  intros Hser Hdata He. rewrite write_to_s3like_eq, write_category_eq.
  rewrite (LocalResult_load_one_output _ _ _ _ Hser Hdata).
  unfold one_output. simplify_map_eq. unfold build_archive.
  cbn [foldM write_output LocalOutput.media_type LocalOutput.data LocalOutput.title].
  rewrite Hser. cbn [mbind result_bind]. by rewrite He.
Qed.

(** The read raises what the serializer raises on the one member of the
    renderable archive. *)
Lemma read_one_member_error (title media_type filename : pystr) (ser : serializer)
    (raw : bytes) (e : error) :
  get_serializer media_type = Ok ser → deserialize ser raw = Err e →
  read_from_s3like
    {[ lit "t1_renderable.zip" := zip_bytes [ (filename, raw) ] ]}
    [ (renderable,
       {| outputs := [ {| RemoteOutput.title := title;
                          RemoteOutput.media_type := media_type;
                          RemoteOutput.filename := filename |} ];
          ziplocation := lit "t1_renderable.zip" |}) ]
  = Err e.
Proof.
  intros Hser He. unfold read_from_s3like.
  assert (RemoteResult_load
            [ (renderable,
               {| outputs := [ {| RemoteOutput.title := title;
                                  RemoteOutput.media_type := media_type;
                                  RemoteOutput.filename := filename |} ];
                  ziplocation := lit "t1_renderable.zip" |}) ] = Ok ()) as ->.
  { unfold RemoteResult_load. cbn [forallb snd outputs RemoteOutput.media_type].
    by rewrite (proj2 (OneOf_choices media_type)) by eauto. }
  cbn [mbind result_bind foldM].
  rewrite (read_category_decode _ _ _ _ []) by (by simplify_map_eq).
  unfold decode_category, gcsfs_read. cbn [ziplocation outputs].
  rewrite lookup_singleton_eq. cbn [mbind result_bind ZipFile_open mapM].
  unfold decode_entry, zip_read.
  cbn [RemoteOutput.media_type RemoteOutput.filename RemoteOutput.title].
  rewrite Hser. cbn [mbind result_bind NameToInfo foldl fst snd].
  rewrite lookup_insert_eq. cbn [mbind result_bind]. by rewrite He.
Qed.

(* ================================================================== *)
(** * Part IV: the claims *)
(* ================================================================== *)


(** C3. The member name of an output is its title when the title already
    ends with a dot and the extension of its serializer (an exact,
    case-sensitive suffix), and the title followed by a dot and the
    extension otherwise; computing it again from the result changes
    nothing. *)
Theorem filename_extension (title media_type : pystr) (ser : serializer) :
  get_serializer media_type = Ok ser →
  ((∃ p, title = p ++ lit "." ++ ext ser) → output_filename title ser = title)
  ∧ ((¬ ∃ p, title = p ++ lit "." ++ ext ser) →
     output_filename title ser = title ++ lit "." ++ ext ser)
  ∧ output_filename (output_filename title ser) ser = output_filename title ser.
Proof.
  intros _. split; [|split].
  - intros Hp%endswith_spec. unfold output_filename. by rewrite Hp.
  - intros Hp. unfold output_filename.
    destruct (endswith title (lit "." ++ ext ser)) eqn:He; [|done].
    by apply endswith_spec in He.
  - unfold output_filename at 1. by rewrite output_filename_endswith.
Qed.

(** C8. The registry maps each of the eleven media types to one serializer,
    whose class and extension are those of the table, and fails with
    [UnknownMediaType] (the [KeyError] of the lookup) on every other tag. *)
Theorem get_serializer_total_fixed :
  map get_serializer media_type_choices
  = [ Ok (JSONSerializer (lit "json")); Ok (TextSerializer (lit "html"));
      Ok (TextSerializer (lit "csv")); Ok (Serializer (lit "png"));
      Ok (Serializer (lit "jpeg")); Ok (Serializer (lit "mp3"));
      Ok (Serializer (lit "mp4")); Ok (Serializer (lit "h5"));
      Ok (Serializer (lit "pdf")); Ok (TextSerializer (lit "md"));
      Ok (TextSerializer (lit "txt")) ]
  ∧ NoDup media_type_choices
  ∧ ∀ media_type,
      if bool_decide (media_type ∈ media_type_choices)
      then ∃ ser, get_serializer media_type = Ok ser
      else get_serializer media_type = Err UnknownMediaType.
Proof.
  split; [reflexivity|]. split; [by apply (bool_decide_eq_true_1 _); vm_compute|].
  intros media_type. case_bool_decide as Hin.
  - by apply get_serializer_choices.
  - by apply get_serializer_Err.
Qed.

(** C4, amended. The builder returns for well-formed outputs, and whenever
    it returns, its manifest entries are as many as the outputs and follow
    them in order; each entry carries the title and the media type of its
    output and the member name computed from them.  The builder does not
    rename: two entries have the same filename exactly when their outputs
    have the same media type and titles that agree up to the optional
    extension suffix. *)
Theorem manifest_entries_follow_outputs (outs : list LocalOutput.t) :
  (forallb well_formed outs = true →
   ∃ zipfileobj entries, build_archive outs = Ok (zipfileobj, entries))
  ∧ ∀ zipfileobj entries,
      build_archive outs = Ok (zipfileobj, entries) →
      length entries = length outs
      ∧ Forall2 (λ o e, RemoteOutput.title e = LocalOutput.title o
                        ∧ RemoteOutput.media_type e = LocalOutput.media_type o
                        ∧ filename_of o = Ok (RemoteOutput.filename e)) outs entries
      ∧ ∀ i j o1 o2 e1 e2,
          outs !! i = Some o1 → outs !! j = Some o2 →
          entries !! i = Some e1 → entries !! j = Some e2 →
          (RemoteOutput.filename e1 = RemoteOutput.filename e2 ↔
           LocalOutput.media_type o1 = LocalOutput.media_type o2
           ∧ ∃ ser, get_serializer (LocalOutput.media_type o1) = Ok ser
                    ∧ stem (LocalOutput.title o1) (ext ser)
                      = stem (LocalOutput.title o2) (ext ser)).
Proof.
  split.
  { intros Hwf. unfold build_archive. rewrite build_well_formed by done. eauto. }
  intros zipfileobj entries (es & Hes & Hall)%build_entries.
  cbn [snd app] in Hes. subst es.
  assert (Forall2 (λ o e, RemoteOutput.title e = LocalOutput.title o
                    ∧ RemoteOutput.media_type e = LocalOutput.media_type o
                    ∧ filename_of o = Ok (RemoteOutput.filename e)) outs entries) as Hall'.
  { eapply Forall2_impl; [exact Hall|]. by intros o e (filename & Hname & ->). }
  split; [symmetry; by eapply Forall2_length|]. split; [done|].
  intros i j o1 o2 e1 e2 Ho1 Ho2 He1 He2.
  destruct (Forall2_lookup_lr _ _ _ _ _ _ Hall' Ho1 He1) as (_ & _ & Hf1).
  destruct (Forall2_lookup_lr _ _ _ _ _ _ Hall' Ho2 He2) as (_ & _ & Hf2).
  unfold filename_of in Hf1, Hf2.
  destruct (get_serializer (LocalOutput.media_type o1)) as [ser1|] eqn:Hs1; [|done].
  destruct (get_serializer (LocalOutput.media_type o2)) as [ser2|] eqn:Hs2; [|done].
  cbn [mbind result_bind] in Hf1, Hf2. injection Hf1 as <-. injection Hf2 as <-. split.
  - intros (Hmt & -> & Hstem)%(output_filename_inj _ _ _ _ _ _ Hs1 Hs2). eauto.
  - intros (Hmt & ser & [= <-] & Hstem). rewrite Hmt, Hs2 in Hs1. injection Hs1 as <-.
    by rewrite !output_filename_stem, Hstem.
Qed.

(** C5. A name collision does not make the build fail.  For well-formed
    outputs (valid media type, data in the space of the serializer, a
    member name the archive stores as it is) the write succeeds, the
    manifest has one entry per output in both categories, and reading the
    manifest back gives every entry the data of the output written last
    under its member name ([read_back]). *)
Theorem last_write_wins (task_id : pystr) (outs_r outs_d : list LocalOutput.t)
    (gcsfs : GCSFS) :
  forallb well_formed outs_r = true → forallb well_formed outs_d = true →
  ∃ gcsfs' entries_r entries_d,
    write_to_s3like task_id {[ renderable := outs_r; downloadable := outs_d ]} true gcsfs
    = (gcsfs',
       Ok [ (renderable, {| outputs := entries_r;
                            ziplocation := archive_key task_id renderable |});
            (downloadable, {| outputs := entries_d;
                              ziplocation := archive_key task_id downloadable |}) ])
    ∧ length entries_r = length outs_r ∧ length entries_d = length outs_d
    ∧ read_from_s3like gcsfs'
        [ (renderable, {| outputs := entries_r;
                          ziplocation := archive_key task_id renderable |});
          (downloadable, {| outputs := entries_d;
                            ziplocation := archive_key task_id downloadable |}) ]
      = Ok {[ renderable := read_back outs_r; downloadable := read_back outs_d ]}.
Proof.
  intros Hr Hd.
  destruct (write_read_well_formed task_id outs_r outs_d gcsfs Hr Hd) as [Hw Hrd].
  eexists _, _, _. split; [exact Hw|]. by rewrite !length_map.
Qed.


(** C6. An input that fails validation, in particular one with an output
    whose media type is outside the enumeration or whose data is [None],
    makes the write raise [ValidationError] and leaves the blob store as it
    was: nothing is built, stored or returned. *)
Theorem validation_aborts_write (task_id : pystr) (loc_result : LocalResult)
    (do_upload : bool) (gcsfs : GCSFS) :
  (LocalResult_load loc_result ≠ Ok ()
   ∨ (∃ c outs o, loc_result !! c = Some outs ∧ o ∈ outs
                  ∧ LocalOutput.media_type o ∉ media_type_choices)
   ∨ (∃ c outs o, loc_result !! c = Some outs ∧ o ∈ outs
                  ∧ LocalOutput.data o = PNone)) →
  LocalResult_load loc_result = Err ValidationError
  ∧ write_to_s3like task_id loc_result do_upload gcsfs = (gcsfs, Err ValidationError).
Proof.
  intros Hbad.
  assert (LocalResult_load loc_result = Err ValidationError) as Hload.
  { unfold LocalResult_load in *.
    destruct (forallb _ [renderable; downloadable]) eqn:Hall; [|done]. exfalso.
    destruct Hbad as [Hbad|Hbad]; [done|].
    assert (∃ c outs o, loc_result !! c = Some outs ∧ o ∈ outs
                        ∧ LocalOutput_valid o = false) as (c & outs & o & Houts & Ho & Hv).
    { destruct Hbad as [(c & outs & o & Houts & Ho & Hmt)|(c & outs & o & Houts & Ho & Hd)];
        exists c, outs, o; (split; [done|]); (split; [done|]); unfold LocalOutput_valid.
      - apply andb_false_intro1. unfold OneOf. by apply bool_decide_eq_false_2.
      - rewrite Hd. apply andb_false_r. }
    rewrite forallb_forall in Hall.
    assert (In c [renderable; downloadable]) as Hc by (destruct c; cbn; auto).
    specialize (Hall c Hc). rewrite Houts, forallb_forall in Hall.
    apply list_elem_of_In in Ho. specialize (Hall o Ho). congruence. }
  split; [done|]. by rewrite write_to_s3like_eq, Hload.
Qed.

(** C7, amended. When a category of a manifest names a key the blob store
    lacks, the read raises and returns no local result, whatever the
    categories before it gave; the exception is [BlobNotFound] when the
    manifest is valid and all the categories listed before that one
    decode. *)
Theorem missing_blob_no_partial_result (gcsfs : GCSFS) (before after : RemoteResult)
    (c : category) (entry : RemoteOutputCategory) :
  gcsfs !! ziplocation entry = None →
  (∃ e, read_from_s3like gcsfs (before ++ (c, entry) :: after) = Err e)
  ∧ (RemoteResult_load (before ++ (c, entry) :: after) = Ok () →
     Forall (λ x, ∃ outs, decode_category gcsfs x.2 = Ok outs) before →
     read_from_s3like gcsfs (before ++ (c, entry) :: after) = Err BlobNotFound).
Proof.
  intros Hkey. unfold read_from_s3like.
  assert (∀ read, foldM (read_category gcsfs) read ((c, entry) :: after) = Err BlobNotFound)
    as Hfail.
  { intros read. cbn [foldM]. unfold read_category, gcsfs_read. cbn [fst snd].
    by rewrite Hkey. }
  split.
  - destruct (RemoteResult_load _) as [[]|e]; cbn [mbind result_bind]; [|by eauto].
    rewrite foldM_app.
    destruct (foldM _ _ before) as [read|e]; cbn [mbind result_bind]; [|by eauto].
    rewrite Hfail. eauto.
  - intros -> Hbefore. cbn [mbind result_bind]. rewrite foldM_app.
    destruct (read_loop_Ok gcsfs before {[ renderable := []; downloadable := [] ]})
      as (read & ->); [|done|by cbn [mbind result_bind]].
    intros []; by simplify_map_eq.
Qed.

(** C9. A write that returns a manifest has built the archives of both
    categories; the manifest records for each category the key made of the
    task identifier, an underscore, the category and the suffix [.zip], and
    with upload enabled the store holds each archive under exactly that key
    (without upload the store is unchanged). *)
Theorem archive_key_and_upload (task_id : pystr) (loc_result : LocalResult)
    (do_upload : bool) (gcsfs gcsfs' : GCSFS) (rem_result : RemoteResult) :
  write_to_s3like task_id loc_result do_upload gcsfs = (gcsfs', Ok rem_result) →
  ∃ outs_r outs_d zip_r zip_d entries_r entries_d,
    loc_result !! renderable = Some outs_r ∧ loc_result !! downloadable = Some outs_d
    ∧ build_archive outs_r = Ok (zip_r, entries_r)
    ∧ build_archive outs_d = Ok (zip_d, entries_d)
    ∧ rem_result
      = [ (renderable, {| outputs := entries_r;
                          ziplocation := task_id ++ lit "_renderable.zip" |});
          (downloadable, {| outputs := entries_d;
                            ziplocation := task_id ++ lit "_downloadable.zip" |}) ]
    ∧ if do_upload
      then gcsfs' !! (task_id ++ lit "_renderable.zip") = Some (zip_bytes zip_r)
           ∧ gcsfs' !! (task_id ++ lit "_downloadable.zip") = Some (zip_bytes zip_d)
           ∧ ∀ key, key ≠ task_id ++ lit "_renderable.zip" →
                    key ≠ task_id ++ lit "_downloadable.zip" →
                    gcsfs' !! key = gcsfs !! key
      else gcsfs' = gcsfs.
Proof.
  intros (_ & outs_r & outs_d & [zip_r entries_r] & [zip_d entries_d]
          & Hr & Hd & Hbr & Hbd & -> & ->)%write_to_s3like_Ok.
  exists outs_r, outs_d, zip_r, zip_d, entries_r, entries_d.
  do 5 (split; [done|]). destruct do_upload; [|done]. cbn [fst].
  change (task_id ++ lit "_renderable.zip") with (archive_key task_id renderable).
  change (task_id ++ lit "_downloadable.zip") with (archive_key task_id downloadable).
  split; [|split].
  - rewrite lookup_insert_ne by (intros ?%archive_key_inj; done). apply lookup_insert_eq.
  - apply lookup_insert_eq.
  - intros key Hr' Hd'. by rewrite !lookup_insert_ne.
Qed.

(** C10. The result of reading a valid manifest (a dict: its categories
    are distinct) has exactly the two categories as keys.  A category of the manifest maps to the outputs its
    entries decode to, in the order of the entries; a category the manifest
    lacks maps to the empty list ([decoded_for]).  The read returns exactly
    when both categories decode. *)
Theorem read_result_categories (gcsfs : GCSFS) (rem_result : RemoteResult) :
  NoDup (map fst rem_result) → RemoteResult_load rem_result = Ok () →
  (∀ read, read_from_s3like gcsfs rem_result = Ok read →
     dom read = {[ renderable; downloadable ]}
     ∧ ∀ c, ∃ outs, decoded_for gcsfs rem_result c = Ok outs ∧ read !! c = Some outs)
  ∧ (∀ outs_r outs_d,
       decoded_for gcsfs rem_result renderable = Ok outs_r →
       decoded_for gcsfs rem_result downloadable = Ok outs_d →
       read_from_s3like gcsfs rem_result
       = Ok {[ renderable := outs_r; downloadable := outs_d ]}).
Proof.
  intros Hnd Hload.
  assert (∀ read, read_from_s3like gcsfs rem_result = Ok read ↔
            ∃ outs_r outs_d,
              decoded_for gcsfs rem_result renderable = Ok outs_r
              ∧ decoded_for gcsfs rem_result downloadable = Ok outs_d
              ∧ read = {[ renderable := outs_r; downloadable := outs_d ]}) as Hiff.
  { intros read. unfold read_from_s3like. rewrite Hload. cbn [mbind result_bind].
    clear Hload. unfold decoded_for.
    destruct (manifest_shapes rem_result Hnd)
      as [->|[(c_r & ->)|[(c_d & ->)|[(c_r & c_d & ->)|(c_r & c_d & ->)]]]];
      cbn [foldM dict_get]; repeat (destruct (decide _); try done);
      rewrite ?(read_category_decode _ _ _ _ []) by done.
    - split; [intros [= <-]; by eexists _, _ | by intros (? & ? & [= <-] & [= <-] & ->)].
    - destruct (decode_category gcsfs c_r) as [outs_r|]; cbn [mbind result_bind app].
      + split.
        * intros [= <-]. eexists _, _. do 2 (split; [done|]). two_categories.
        * intros (? & ? & [= <-] & [= <-] & ->). f_equal; two_categories.
      + split; [done | by intros (? & ? & ? & _)].
    - destruct (decode_category gcsfs c_d) as [outs_d|]; cbn [mbind result_bind app].
      + split.
        * intros [= <-]. eexists _, _. do 2 (split; [done|]). two_categories.
        * intros (? & ? & [= <-] & [= <-] & ->). f_equal; two_categories.
      + split; [done | by intros (? & ? & _ & ? & _)].
    - destruct (decode_category gcsfs c_r) as [outs_r|]; cbn [mbind result_bind app].
      2: { split; [done | by intros (? & ? & ? & _)]. }
      rewrite (read_category_decode _ _ _ _ []) by done.
      destruct (decode_category gcsfs c_d) as [outs_d|]; cbn [mbind result_bind app].
      2: { split; [done | by intros (? & ? & _ & ? & _)]. }
      split.
      + intros [= <-]. eexists _, _. do 2 (split; [done|]). two_categories.
      + intros (? & ? & [= <-] & [= <-] & ->). f_equal; two_categories.
    - destruct (decode_category gcsfs c_d) as [outs_d|]; cbn [mbind result_bind app].
      2: { split; [done | by intros (? & ? & _ & ? & _)]. }
      rewrite (read_category_decode _ _ _ _ []) by done.
      destruct (decode_category gcsfs c_r) as [outs_r|]; cbn [mbind result_bind app].
      2: { split; [done | by intros (? & ? & ? & _)]. }
      split.
      + intros [= <-]. eexists _, _. do 2 (split; [done|]). two_categories.
      + intros (? & ? & [= <-] & [= <-] & ->). f_equal; two_categories. }
  split.
  - intros read (outs_r & outs_d & Hr & Hd & ->)%Hiff. split.
    + apply set_eq. intros c. rewrite elem_of_dom. split; [destruct c; set_solver|].
      intros _. destruct c; by simplify_map_eq.
    + intros []; eexists; (split; [done|]); by simplify_map_eq.
  - intros outs_r outs_d Hr Hd. apply Hiff. eauto.
Qed.

(* ================================================================== *)
(** * Part V: further properties of the code *)
(* ================================================================== *)

(** ** The write orchestrator *)

(** X1. Every manifest that [write_to_s3like] returns passes the validation
    [read_from_s3like] starts with, and each of its entries has a filename
    that begins with the title and ends with a dot and the extension of the
    serializer of its media type. *)
Theorem manifest_passes_validation (task_id : pystr) (loc_result : LocalResult)
    (do_upload : bool) (gcsfs gcsfs' : GCSFS) (rem_result : RemoteResult) :
  write_to_s3like task_id loc_result do_upload gcsfs = (gcsfs', Ok rem_result) →
  RemoteResult_load rem_result = Ok ()
  ∧ ∀ c entry e,
      (c, entry) ∈ rem_result → e ∈ outputs entry →
      ∃ ser, get_serializer (RemoteOutput.media_type e) = Ok ser
             ∧ RemoteOutput.title e `prefix_of` RemoteOutput.filename e
             ∧ (lit "." ++ ext ser) `suffix_of` RemoteOutput.filename e.
Proof.
  intros (_ & outs_r & outs_d & built_r & built_d & _ & _ & Hbr & Hbd & -> & _
         )%write_to_s3like_Ok.
  pose proof (build_entries_valid _ _ Hbr) as Hr.
  pose proof (build_entries_valid _ _ Hbd) as Hd.
  split.
  - unfold RemoteResult_load. cbn [forallb snd outputs].
    assert (∀ es, Forall (λ e, ∃ ser, get_serializer (RemoteOutput.media_type e) = Ok ser
               ∧ RemoteOutput.filename e = output_filename (RemoteOutput.title e) ser) es →
              forallb (λ o, OneOf media_type_choices (RemoteOutput.media_type o)) es = true)
      as Hvalid.
    { intros es Hes. apply forallb_forall. intros e He%list_elem_of_In.
      apply OneOf_choices. rewrite Forall_forall in Hes.
      destruct (Hes e He) as (ser & Hser & _). eauto. }
    by rewrite !Hvalid.
  - intros c entry e Hin He.
    assert (∃ ser, get_serializer (RemoteOutput.media_type e) = Ok ser
               ∧ RemoteOutput.filename e = output_filename (RemoteOutput.title e) ser)
      as (ser & Hser & Hname).
    { rewrite !elem_of_cons, elem_of_nil in Hin.
      destruct Hin as [[= -> ->]|[[= -> ->]|[]]]; cbn [outputs] in He.
      - rewrite Forall_forall in Hr. auto.
      - rewrite Forall_forall in Hd. auto. }
    exists ser. split; [done|]. rewrite Hname. split.
    + unfold output_filename. destruct (negb _); [by apply prefix_app_r|done].
    + pose proof (output_filename_endswith (RemoteOutput.title e) ser) as [p Hp]%endswith_spec.
      by exists p.
Qed.

(** X2. What [write_to_s3like] returns or raises depends on the task
    identifier and the local result only: neither [do_upload] nor the
    contents of the blob store change it. *)
Theorem write_result_ignores_store (task_id : pystr) (loc_result : LocalResult)
    (do_upload do_upload' : bool) (gcsfs gcsfs' : GCSFS) :
  (write_to_s3like task_id loc_result do_upload gcsfs).2
  = (write_to_s3like task_id loc_result do_upload' gcsfs').2.
Proof.
  rewrite !write_to_s3like_eq, !write_category_eq.
  destruct (LocalResult_load loc_result); [|done].
  destruct (loc_result !! renderable) as [outs_r|]; [|done].
  destruct (build_archive outs_r); [|done].
  rewrite !write_category_eq.
  destruct (loc_result !! downloadable) as [outs_d|]; [|done].
  by destruct (build_archive outs_d).
Qed.

(** X3. The write is not atomic.  When the renderable archive builds and
    the downloadable category is missing from the local result (which
    validation accepts) or fails to build, the call raises the exception of
    the downloadable category, and with upload enabled the renderable
    archive has already been stored by then. *)
Theorem renderable_uploaded_before_failure (task_id : pystr) (loc_result : LocalResult)
    (gcsfs : GCSFS) (outs_r : list LocalOutput.t) (built_r : ZipFile * list RemoteOutput.t)
    (e : error) :
  LocalResult_load loc_result = Ok () →
  loc_result !! renderable = Some outs_r → build_archive outs_r = Ok built_r →
  match loc_result !! downloadable with
  | Some outs_d => build_archive outs_d = Err e
  | None => e = MissingCategory
  end →
  write_to_s3like task_id loc_result true gcsfs
  = (<[archive_key task_id renderable := zip_bytes built_r.1]> gcsfs, Err e)
  ∧ write_to_s3like task_id loc_result false gcsfs = (gcsfs, Err e).
Proof.
  intros Hload Hr Hbr Hd.
  rewrite !write_to_s3like_eq, !write_category_eq, Hload, Hr, Hbr, !write_category_eq.
  destruct (loc_result !! downloadable) as [outs_d|]; [by rewrite Hd | by subst e].
Qed.

(** X4. Two writes under the same task identifier use the same two keys:
    after the second one the store is what the second write alone would have
    left, and the manifest of the first write points at the archives of the
    second. *)
Theorem rewrite_replaces_archives (task_id : pystr) (loc_result loc_result' : LocalResult)
    (gcsfs gcsfs1 gcsfs2 : GCSFS) (rem_result rem_result' : RemoteResult) :
  write_to_s3like task_id loc_result true gcsfs = (gcsfs1, Ok rem_result) →
  write_to_s3like task_id loc_result' true gcsfs1 = (gcsfs2, Ok rem_result') →
  write_to_s3like task_id loc_result' true gcsfs = (gcsfs2, Ok rem_result')
  ∧ map (λ x, (x.1, ziplocation x.2)) rem_result
    = map (λ x, (x.1, ziplocation x.2)) rem_result'.
Proof.
  intros (_ & outs_r & outs_d & built_r & built_d & _ & _ & _ & _ & -> & ->
         )%write_to_s3like_Ok.
  intros (Hload & outs_r' & outs_d' & built_r' & built_d' & Hr & Hd & Hbr & Hbd & -> & ->
         )%write_to_s3like_Ok.
  split; [|done]. apply write_to_s3like_Ok. split; [done|].
  exists outs_r', outs_d', built_r', built_d'. do 5 (split; [done|]).
  apply map_eq. intros key.
  destruct (decide (key = archive_key task_id downloadable)) as [->|Hd'];
    [by rewrite !lookup_insert_eq|].
  rewrite !(lookup_insert_ne _ (archive_key task_id downloadable)) by done.
  destruct (decide (key = archive_key task_id renderable)) as [->|Hr'];
    [by rewrite !lookup_insert_eq|].
  by rewrite !lookup_insert_ne.
Qed.

(** X5. The builder stores one member per output, in the order of the
    outputs and without merging equal names.  The member is named by the
    filename cut at its first NUL character and holds the bytes the
    serializer returned, or their UTF-8 encoding when the serializer
    returned a [str]. *)
Theorem archive_members_follow_outputs (outs : list LocalOutput.t)
    (zipfileobj : ZipFile) (entries : list RemoteOutput.t) :
  build_archive outs = Ok (zipfileobj, entries) →
  Forall2 (λ o member,
             ∃ ser raw,
               get_serializer (LocalOutput.media_type o) = Ok ser
               ∧ serialize ser (LocalOutput.data o) = Ok raw
               ∧ member.1 = sanitize_filename (output_filename (LocalOutput.title o) ser)
               ∧ (raw = PBytes member.2 ∨ ∃ s, raw = PStr s ∧ str_encode s = Ok member.2))
          outs zipfileobj.
Proof.
  unfold build_archive.
  assert (∀ st st', foldM write_output st outs = Ok st' →
            ∃ members, st'.1 = st.1 ++ members ∧
              Forall2 (λ o member,
                ∃ ser raw,
                  get_serializer (LocalOutput.media_type o) = Ok ser
                  ∧ serialize ser (LocalOutput.data o) = Ok raw
                  ∧ member.1 = sanitize_filename (output_filename (LocalOutput.title o) ser)
                  ∧ (raw = PBytes member.2 ∨ ∃ s, raw = PStr s ∧ str_encode s = Ok member.2))
                outs members) as Hgen.
  { induction outs as [|o outs IH]; intros st st'.
    - intros [= <-]. exists []. by rewrite app_nil_r.
    - cbn [foldM]. intros (st1 & Hst1 & Hrest)%bind_Ok.
      apply IH in Hrest as (members & Hmembers & Hall).
      destruct st as [z es]. unfold write_output in Hst1.
      apply bind_Ok in Hst1 as (ser & Hser & Hst1).
      apply bind_Ok in Hst1 as (raw & Hraw & Hst1).
      apply bind_Ok in Hst1 as (z' & Hz' & [= <-]).
      assert (∃ b, z' = z ++ [(sanitize_filename
                                 (output_filename (LocalOutput.title o) ser), b)]
                   ∧ (raw = PBytes b ∨ ∃ s, raw = PStr s ∧ str_encode s = Ok b))
        as (b & -> & Hb).
      { unfold writestr in Hz'.
        apply bind_Ok in Hz' as (data & Hdata & Hz').
        apply bind_Ok in Hz' as (_ & _ & Hz').
        apply bind_Ok in Hz' as (content & Hcontent & Hz').
        apply bind_Ok in Hz' as (encoded & _ & Hz').
        destruct (_ <? _)%N; [done|].
        destruct content as [| | | |b| |]; try done. injection Hz' as <-.
        exists b. split; [done|].
        destruct data as [| | | |b'| |]; try done. injection Hcontent as ->.
        destruct raw as [| | |s|b'| |]; try by (injection Hdata as ->; left).
        apply bind_Ok in Hdata as (b' & Hb' & [= ->]). right. eauto. }
      exists ((sanitize_filename (output_filename (LocalOutput.title o) ser), b) :: members).
      cbn [fst] in *. split; [by rewrite Hmembers, <- app_assoc|].
      constructor; [|done]. exists ser, raw. eauto. }
  intros (members & Hmembers & Hall)%Hgen. cbn [fst app] in Hmembers. by subst.
Qed.

(** X6. With titles and media types that are strings, as the records of
    the embedding have them, the lookup in the registry never fails in a
    write: validation has checked every media type by then.  Each of the
    exceptions of [write_errors] is raised on some input. *)
Theorem write_exceptions :
  (∀ task_id loc_result do_upload gcsfs gcsfs',
     write_to_s3like task_id loc_result do_upload gcsfs
     ≠ (gcsfs', Err UnknownMediaType))
  ∧ ∀ e, e ∈ write_errors →
      ∃ task_id loc_result do_upload gcsfs gcsfs',
        write_to_s3like task_id loc_result do_upload gcsfs = (gcsfs', Err e).
Proof.
  split.
  - intros task_id loc_result do_upload gcsfs gcsfs' Hw%write_to_s3like_errors.
    unfold write_errors in Hw.
    repeat (apply elem_of_cons in Hw as [Hw|Hw]); try discriminate Hw.
    by apply elem_of_nil in Hw.
  - unfold write_errors. intros e He.
    repeat (apply elem_of_cons in He as [->|He]); [..|by apply elem_of_nil in He].
    + exists (lit "t1"), gif_result, true, ∅, ∅. vm_compute. reflexivity.
    + exists (lit "t1"), ∅, true, ∅, ∅. vm_compute. reflexivity.
    + exists (lit "t1"), (one_output (lit "a") (lit "Text") (PInt 1)), true, ∅, ∅.
      vm_compute. reflexivity.
    + exists (lit "t1"), (one_output (lit "a") (lit "Text") (PStr [0xD800%N])), true, ∅, ∅.
      vm_compute. reflexivity.
    + exists (lit "t1"), (one_output (lit "a") (lit "PNG") (PInt 1)), true, ∅, ∅.
      vm_compute. reflexivity.
    + exists (lit "t1"), (one_output (lit "a") (lit "bokeh") (PInt huge_int)), true, ∅, ∅.
      apply (write_one_output_error _ _ _ _ (JSONSerializer (lit "json"))); [done..|].
      cbn [serialize]. by rewrite json_dumps_huge.
    + exists (lit "t1"), (one_output (lit "a") (lit "bokeh") (nested encoder_depth)),
        true, ∅, ∅.
      apply (write_one_output_error _ _ _ _ (JSONSerializer (lit "json")));
        [done | by destruct encoder_depth |].
      cbn [serialize]. by rewrite json_dumps_nested.
    + exists (lit "t1"), (one_output [0%N] (lit "Text") (PStr (lit "x"))), true, ∅, ∅.
      vm_compute. reflexivity.
    + exists (lit "t1"),
        (one_output (replicate (N.to_nat 65536) 97%N) (lit "Text") (PStr (lit "x"))),
        true, ∅, ∅.
      vm_compute. reflexivity.
Qed.

(** X7. Whatever its outcome, a write changes no key of the store other
    than the two archive keys of its task, and without upload it changes
    none at all. *)
Theorem write_touches_own_keys (task_id : pystr) (loc_result : LocalResult)
    (do_upload : bool) (gcsfs : GCSFS) (key : pystr) :
  (∀ c, key ≠ archive_key task_id c) →
  (write_to_s3like task_id loc_result do_upload gcsfs).1 !! key = gcsfs !! key
  ∧ (write_to_s3like task_id loc_result false gcsfs).1 = gcsfs.
Proof.
  intros Hkey. split; [by apply write_store_frame|].
  rewrite write_to_s3like_eq, !write_category_eq.
  destruct (LocalResult_load loc_result); [|done].
  destruct (loc_result !! renderable) as [outs_r|]; [|done].
  destruct (build_archive outs_r); [|done].
  rewrite write_category_eq.
  destruct (loc_result !! downloadable) as [outs_d|]; [|done].
  by destruct (build_archive outs_d).
Qed.

(** X8. Without the client of the blob store ([GCSFS] is [None]) a write
    with [do_upload=False] behaves as with the client; a write with upload
    enabled never returns a manifest and stores nothing, and it raises the
    [AttributeError] of [gcsfs.open] once the renderable archive is built;
    a read raises [TypeError] whatever the manifest.  With the client the
    functions are those of the claims. *)
Theorem missing_client (task_id : pystr) (loc_result : LocalResult) (gcsfs : GCSFS)
    (rem_result : RemoteResult) :
  (∀ do_upload,
     write_to_s3like_in GCSFS_class task_id loc_result do_upload gcsfs
     = write_to_s3like task_id loc_result do_upload gcsfs)
  ∧ write_to_s3like_in GCSFS_None task_id loc_result false gcsfs
    = write_to_s3like task_id loc_result false gcsfs
  ∧ (∃ e, write_to_s3like_in GCSFS_None task_id loc_result true gcsfs = (gcsfs, Err e)
          ∧ ∀ outs_r built_r,
              LocalResult_load loc_result = Ok () →
              loc_result !! renderable = Some outs_r →
              build_archive outs_r = Ok built_r → e = AttributeError)
  ∧ read_from_s3like_in GCSFS_None gcsfs rem_result = Err TypeError.
Proof.
  split; [|split; [|split; [|done]]].
  - intros do_upload.
    rewrite write_to_s3like_in_eq, write_to_s3like_eq, write_category_in_eq, write_category_eq.
    destruct (LocalResult_load loc_result); [|done].
    destruct (loc_result !! renderable) as [outs_r|]; [|done].
    destruct (build_archive outs_r); [|done].
    destruct do_upload; by rewrite write_category_in_eq, write_category_eq.
  - rewrite write_to_s3like_in_eq, write_to_s3like_eq, write_category_in_eq, write_category_eq.
    destruct (LocalResult_load loc_result); [|done].
    destruct (loc_result !! renderable) as [outs_r|]; [|done].
    destruct (build_archive outs_r); [|done].
    by rewrite write_category_in_eq, write_category_eq.
  - rewrite write_to_s3like_in_eq, write_category_in_eq.
    destruct (LocalResult_load loc_result) as [[]|e];
      [|exists e; split; [done | congruence]].
    destruct (loc_result !! renderable) as [outs_r|];
      [|eexists; split; [done | congruence]].
    destruct (build_archive outs_r) as [built_r|e] eqn:Hbr; [by eexists|].
    exists e. split; [done|]. intros ? ? _ [= <-]. congruence.
Qed.

(** ** The read orchestrator *)

(** X9. A read looks at the blobs its manifest names and at nothing else:
    two stores that agree on those keys give the same result or the same
    exception. *)
Theorem read_frame (gcsfs1 gcsfs2 : GCSFS) (rem_result : RemoteResult) :
  (∀ c entry, (c, entry) ∈ rem_result →
              gcsfs1 !! ziplocation entry = gcsfs2 !! ziplocation entry) →
  read_from_s3like gcsfs1 rem_result = read_from_s3like gcsfs2 rem_result.
Proof. apply read_same_blobs. Qed.

(** X10. The key of an archive, as a string, determines the task
    identifier and the category it was computed from: two tasks, and the
    two categories of one task, never get the same key string. *)
Theorem archive_key_determines_task (task_id task_id' : pystr) (c c' : category) :
  archive_key task_id c = archive_key task_id' c' ↔ task_id = task_id' ∧ c = c'.
Proof. split; [apply archive_key_inj2 | by intros [-> ->]]. Qed.

(** X11. The categories of a manifest are read in its order and the first
    one that fails decides the exception: when the manifest is valid and
    the categories before [c] decode, the read raises what decoding [c]
    raises ([BlobNotFound], [BadZipFile], [MissingMember] or a decoding
    error). *)
Theorem read_first_failure (gcsfs : GCSFS) (before after : RemoteResult)
    (c : category) (entry : RemoteOutputCategory) (e : error) :
  RemoteResult_load (before ++ (c, entry) :: after) = Ok () →
  Forall (λ x, ∃ outs, decode_category gcsfs x.2 = Ok outs) before →
  decode_category gcsfs entry = Err e →
  read_from_s3like gcsfs (before ++ (c, entry) :: after) = Err e.
Proof.
  intros Hload Hbefore Hfail. unfold read_from_s3like. rewrite Hload.
  cbn [mbind result_bind]. rewrite foldM_app.
  assert (∀ read : LocalResult, (∀ c, is_Some (read !! c)) →
            ∃ read', foldM (read_category gcsfs) read before = Ok read'
                     ∧ ∀ c, is_Some (read' !! c)) as Hloop.
  { clear Hload. induction Hbefore as [|[c' entry'] before (outs & Houts) _ IH];
      intros read Hread.
    - by exists read.
    - destruct (Hread c') as [l Hl]. cbn [foldM].
      rewrite (read_category_decode _ _ _ _ l) by done. cbn [snd] in Houts.
      rewrite Houts. cbn [mbind result_bind]. apply IH.
      intros c''. destruct (decide (c' = c'')) as [->|]; by simplify_map_eq. }
  destruct (Hloop {[ renderable := []; downloadable := [] ]}) as (read & -> & Hread).
  { intros []; by simplify_map_eq. }
  cbn [mbind result_bind foldM]. destruct (Hread c) as [l Hl].
  rewrite (read_category_decode _ _ _ _ l) by done. by rewrite Hfail.
Qed.

(** X12. With media types that are strings, as the records of the
    embedding have them, a read never fails in the lookup of the registry,
    since validation has checked every media type by then, nor in the
    lookup of a category in the result dictionary.  Each of the exceptions
    of [read_errors] is raised on some store and manifest. *)
Theorem read_exceptions :
  (∀ gcsfs rem_result e,
     read_from_s3like gcsfs rem_result = Err e →
     e ≠ UnknownMediaType ∧ e ≠ MissingCategory)
  ∧ ∀ e, e ∈ read_errors → ∃ gcsfs rem_result, read_from_s3like gcsfs rem_result = Err e.
Proof.
  split.
  - intros gcsfs rem_result e He%read_from_s3like_errors.
    repeat (apply elem_of_cons in He as [->|He]); try done.
    by apply elem_of_nil in He.
  - unfold read_errors. intros e He.
    repeat (apply elem_of_cons in He as [->|He]); [..|by apply elem_of_nil in He].
    + exists ∅, gif_manifest. vm_compute. reflexivity.
    + exists ∅, stale_manifest. vm_compute. reflexivity.
    + exists broken_store, stale_manifest. vm_compute. reflexivity.
    + exists stale_store, stale_manifest. vm_compute. reflexivity.
    + exists undecodable_store, stale_manifest. vm_compute. reflexivity.
    + eexists _, _.
      apply (read_one_member_error (lit "plot") (lit "bokeh") (lit "plot.json")
               (JSONSerializer (lit "json")) (replicate (N.to_nat 4301) 49%N) ValueError);
        [done|].
      vm_compute. reflexivity.
    + eexists _, _.
      apply (read_one_member_error (lit "plot") (lit "bokeh") (lit "plot.json")
               (JSONSerializer (lit "json")) (replicate (S scanner_depth) 91%N)
               RecursionError); [done|].
      cbn [deserialize]. rewrite decode_ascii.
      * cbn [mbind result_bind]. apply json_loads_nested.
      * apply Forall_replicate. lia.
Qed.

(** ** The serializers *)

(** X13. [TextSerializer.serialize] returns exactly on the strings of
    Unicode scalar values, with one to four bytes per character; it raises
    [EncodeError] on a string with a surrogate and [AttributeError] on
    every value that is not a string. *)
Theorem text_serialize_domain (e : pystr) (data : pyval) :
  match data with
  | PStr s =>
    if scalar_str s
    then ∃ b, serialize (TextSerializer e) data = Ok (PBytes b)
              ∧ N.of_nat (length b) = utf8_length s
    else serialize (TextSerializer e) data = Err EncodeError
  | _ => serialize (TextSerializer e) data = Err AttributeError
  end.
Proof.
  destruct data as [| | |s| | |]; try done. cbn [serialize].
  destruct (scalar_str s) eqn:Hs.
  - destruct (encode_decode s Hs) as (b & Hb & _). exists b. rewrite Hb.
    split; [done|]. by apply str_encode_length.
  - by rewrite str_encode_not_scalar.
Qed.

(** X14. On a value without floats [JSONSerializer.serialize] returns
    exactly when the value holds no [bytes] object, its integers have at
    most 4300 digits and its lists and dictionaries are nested within the
    recursion depth left to the encoder ([json_encodable]).  It then
    returns the JSON text, which is pure ASCII, so that encoding it never
    fails, whatever the characters of the strings in the value.  Otherwise
    it raises [TypeError], [ValueError] or [RecursionError]. *)
Theorem json_serialize_domain (e : pystr) (data : pyval) :
  if json_encodable encoder_depth data
  then ∃ t, json_dumps encoder_depth data = Ok t ∧ Forall (λ c, c < 128)%N t
            ∧ serialize (JSONSerializer e) data = Ok (PBytes t)
  else ∃ err, serialize (JSONSerializer e) data = Err err
              ∧ err ∈ [TypeError; ValueError; RecursionError].
Proof.
  pose proof (json_dumps_domain data encoder_depth) as Hd. cbn [serialize].
  destruct (json_encodable encoder_depth data).
  - destruct Hd as (t & Ht & Hascii). exists t. rewrite Ht. cbn [mbind result_bind].
    by rewrite encode_ascii.
  - destruct Hd as (err & -> & Herr). by exists err.
Qed.

(** X15. What the identity or the text serializer deserializes, it
    serializes to the very bytes it was given (strict UTF-8 has one
    encoding per string). *)
Theorem deserialized_serializes (ser : serializer) (b : bytes) (x : pyval) :
  (∀ e, ser ≠ JSONSerializer e) →
  deserialize ser b = Ok x → serialize ser x = Ok (PBytes b).
Proof.
  intros Hser. destruct ser as [e|e|e]; cbn [deserialize serialize].
  - by intros [= <-].
  - by destruct (Hser e).
  - intros (s & Hs & [= <-])%bind_Ok. by rewrite (decode_encode _ _ Hs).
Qed.

(** X16. A media type with the identity serializer takes a string payload
    without complaint: [writestr] encodes it, and the read gives back its
    UTF-8 bytes, not the string. *)
Theorem identity_text_payload (task_id title media_type e s : pystr) (gcsfs : GCSFS) :
  get_serializer media_type = Ok (Serializer e) →
  scalar_str s = true →
  storable_name (output_filename title (Serializer e)) = true →
  ∃ gcsfs' rem_result b,
    write_to_s3like task_id (one_output title media_type (PStr s)) true gcsfs
    = (gcsfs', Ok rem_result)
    ∧ str_encode s = Ok b
    ∧ read_from_s3like gcsfs' rem_result = Ok (one_output title media_type (PBytes b)).
Proof.
  intros Hser Hs Hname. destruct (encode_decode s Hs) as (b & Hb & _).
  set (name := output_filename title (Serializer e)) in *.
  assert (name ≠ []) as Hne.
  { subst name. rewrite output_filename_stem. by destruct (stem _ _). }
  assert (build_archive [ {| LocalOutput.title := title;
                             LocalOutput.media_type := media_type;
                             LocalOutput.data := PStr s |} ]
          = Ok ([(name, b)],
                [ {| RemoteOutput.title := title; RemoteOutput.media_type := media_type;
                     RemoteOutput.filename := name |} ])) as Hbuild.
  { unfold build_archive. cbn [foldM write_output LocalOutput.media_type LocalOutput.data
                                 LocalOutput.title].
    rewrite Hser. cbn [mbind result_bind serialize]. fold name.
    by rewrite (writestr_text _ _ _ _ Hb), writestr_storable. }
  eexists _, _, b. split; [|split; [exact Hb|]].
  - apply write_to_s3like_Ok. split.
    + by apply (LocalResult_load_one_output _ _ _ (Serializer e)).
    + eexists _, [], _, ([], []). unfold one_output. simplify_map_eq.
      split; [done|]. split; [done|]. split; [exact Hbuild|]. done.
  - cbn [fst snd]. rewrite read_from_s3like_two.
    assert (RemoteResult_load _ = Ok ()) as ->.
    { unfold RemoteResult_load. cbn [forallb snd outputs RemoteOutput.media_type].
      by rewrite (proj2 (OneOf_choices media_type)) by eauto. }
    cbn [mbind result_bind]. unfold decode_category, gcsfs_read. cbn [ziplocation outputs].
    rewrite (lookup_insert_ne _ (archive_key task_id downloadable)
               (archive_key task_id renderable)) by (intros ?%archive_key_inj; done).
    rewrite !lookup_insert_eq. cbn [mbind result_bind ZipFile_open mapM].
    unfold decode_entry, zip_read.
    cbn [RemoteOutput.media_type RemoteOutput.filename RemoteOutput.title].
    rewrite Hser. cbn [mbind result_bind NameToInfo foldl fst snd].
    by rewrite lookup_insert_eq.
Qed.

End Interpreter.

(* ================================================================== *)
(** * Part VI: the statements at concrete inputs *)
(* ================================================================== *)

(** The lemmas of this part take [example_depth] for the recursion depth
    left to the encoder and to the scanner. *)

(** ** The claims *)





Lemma filename_report_csv :
  get_serializer (lit "CSV") = Ok (TextSerializer (lit "csv"))
  ∧ output_filename (lit "report.csv") (TextSerializer (lit "csv")) = lit "report.csv"
  ∧ output_filename (lit "report.CSV") (TextSerializer (lit "csv")) = lit "report.CSV.csv".
Proof.
  assert (get_serializer (lit "CSV") = Ok (TextSerializer (lit "csv"))) as Hser
    by reflexivity.
  split; [exact Hser|]. split.
  - apply (proj1 (filename_extension (lit "report.csv") (lit "CSV") _ Hser)).
    exists (lit "report"). reflexivity.
  - apply (proj1 (proj2 (filename_extension (lit "report.CSV") (lit "CSV") _ Hser))).
    intros [p Hp]. apply (f_equal (λ s, s !! (length s - 3))) in Hp.
    rewrite length_app, lookup_app_r in Hp by (cbn; lia).
    replace (length p + length (lit "." ++ ext (TextSerializer (lit "csv"))) - 3 - length p)
      with 1 in Hp by (cbn; lia).
    vm_compute in Hp. discriminate Hp.
Defined.

(** C4, as stated, fails: the two outputs of [colliding_outputs] get two
    manifest entries with one and the same filename. *)
Lemma manifest_filenames_collide :
  ∃ zipfileobj entries,
    build_archive example_depth colliding_outputs = Ok (zipfileobj, entries)
    ∧ length entries = length colliding_outputs
    ∧ ¬ NoDup (map RemoteOutput.filename entries).
Proof.
  eexists _, _. split; [vm_compute; reflexivity|]. split; [reflexivity|].
  intros [Hin _]%NoDup_cons. apply Hin. left.
Qed.

Lemma manifest_entries_colliding :
  forallb (well_formed example_depth example_depth) colliding_outputs = true
  ∧ ∃ zipfileobj entries,
      build_archive example_depth colliding_outputs = Ok (zipfileobj, entries)
      ∧ length entries = length colliding_outputs
      ∧ map RemoteOutput.filename entries = [lit "a.txt"; lit "a.txt"].
Proof.
  assert (forallb (well_formed example_depth example_depth) colliding_outputs = true)
    as Hwf by (vm_compute; reflexivity).
  split; [exact Hwf|].
  destruct (manifest_entries_follow_outputs example_depth example_depth colliding_outputs)
    as [Hreturns Hentries].
  destruct (Hreturns Hwf) as (zipfileobj & entries & Hbuild).
  exists zipfileobj, entries. split; [exact Hbuild|].
  split; [exact (proj1 (Hentries _ _ Hbuild))|].
  assert (build_archive example_depth colliding_outputs
          = Ok ([(lit "a.txt", lit "x"); (lit "a.txt", lit "y")],
                map entry_of colliding_outputs)) as Hconcrete by (vm_compute; reflexivity).
  rewrite Hconcrete in Hbuild. injection Hbuild as <- <-. reflexivity.
Defined.

Lemma last_write_wins_colliding :
  forallb (well_formed example_depth example_depth) colliding_outputs = true
  ∧ read_back colliding_outputs
    = [ {| LocalOutput.title := lit "a"; LocalOutput.media_type := lit "Text";
           LocalOutput.data := PStr (lit "y") |};
        {| LocalOutput.title := lit "a"; LocalOutput.media_type := lit "Text";
           LocalOutput.data := PStr (lit "y") |} ]
  ∧ ∃ gcsfs' entries_r entries_d,
      write_to_s3like example_depth (lit "t1") colliding_result true ∅
      = (gcsfs',
         Ok [ (renderable, {| outputs := entries_r;
                              ziplocation := archive_key (lit "t1") renderable |});
              (downloadable, {| outputs := entries_d;
                                ziplocation := archive_key (lit "t1") downloadable |}) ])
      ∧ length entries_r = length colliding_outputs
      ∧ length entries_d = length (@nil LocalOutput.t)
      ∧ read_from_s3like example_depth gcsfs'
          [ (renderable, {| outputs := entries_r;
                            ziplocation := archive_key (lit "t1") renderable |});
            (downloadable, {| outputs := entries_d;
                              ziplocation := archive_key (lit "t1") downloadable |}) ]
        = Ok {[ renderable := read_back colliding_outputs; downloadable := read_back [] ]}.
Proof.
  assert (forallb (well_formed example_depth example_depth) colliding_outputs = true)
    as Hwf by (vm_compute; reflexivity).
  split; [exact Hwf|]. split; [vm_compute; reflexivity|].
  exact (last_write_wins example_depth example_depth (lit "t1") colliding_outputs [] ∅
           Hwf eq_refl).
Defined.

Lemma validation_aborts_gif :
  (LocalResult_load gif_result = Err ValidationError
   ∧ write_to_s3like example_depth (lit "t1") gif_result true ∅
     = (∅, Err ValidationError))
  ∧ (LocalResult_load (one_output (lit "plot") (lit "bokeh") PNone) = Err ValidationError
     ∧ write_to_s3like example_depth (lit "t1")
         (one_output (lit "plot") (lit "bokeh") PNone) true ∅
       = (∅, Err ValidationError)).
Proof.
  split.
  - apply (validation_aborts_write example_depth (lit "t1") gif_result true ∅).
    left. vm_compute. discriminate.
  - apply (validation_aborts_write example_depth (lit "t1")
             (one_output (lit "plot") (lit "bokeh") PNone) true ∅).
    right. right. eexists renderable, _, _.
    split; [vm_compute; reflexivity|]. split; [left | reflexivity].
Defined.

(** C7, as stated, fails.  [stale_manifest] is valid and points at a key
    that [stale_store] lacks, yet the read raises [MissingMember], which the
    category listed first runs into.  [gif_manifest] points at a key the
    empty store lacks, and the read raises [ValidationError]. *)
Lemma missing_blob_other_error :
  (RemoteResult_load stale_manifest = Ok ()
   ∧ (∃ c entry, (c, entry) ∈ stale_manifest ∧ stale_store !! ziplocation entry = None)
   ∧ read_from_s3like example_depth stale_store stale_manifest = Err MissingMember)
  ∧ ((∃ c entry, (c, entry) ∈ gif_manifest
                 ∧ (∅ : gmap pystr blob) !! ziplocation entry = None)
     ∧ read_from_s3like example_depth ∅ gif_manifest = Err ValidationError).
Proof.
  split.
  - split; [vm_compute; reflexivity|]. split; [|vm_compute; reflexivity].
    eexists downloadable, _. split; [right; left|]. vm_compute. reflexivity.
  - split; [|vm_compute; reflexivity].
    eexists renderable, _. split; [left|]. apply lookup_empty.
Qed.

Lemma missing_blob_single_category :
  read_from_s3like example_depth ∅
    [ (renderable, {| outputs := []; ziplocation := lit "t1_renderable.zip" |}) ]
  = Err BlobNotFound.
Proof.
  apply (proj2 (missing_blob_no_partial_result example_depth ∅ [] [] renderable
                  {| outputs := []; ziplocation := lit "t1_renderable.zip" |}
                  (lookup_empty _)) eq_refl).
  constructor.
Defined.

Lemma archive_key_example :
  write_to_s3like example_depth (lit "t1") example_result true ∅
  = (example_store, Ok example_manifest)
  ∧ ∃ outs_r outs_d zip_r zip_d entries_r entries_d,
      example_result !! renderable = Some outs_r
      ∧ example_result !! downloadable = Some outs_d
      ∧ build_archive example_depth outs_r = Ok (zip_r, entries_r)
      ∧ build_archive example_depth outs_d = Ok (zip_d, entries_d)
      ∧ example_manifest
        = [ (renderable, {| outputs := entries_r;
                            ziplocation := lit "t1" ++ lit "_renderable.zip" |});
            (downloadable, {| outputs := entries_d;
                              ziplocation := lit "t1" ++ lit "_downloadable.zip" |}) ]
      ∧ (example_store !! (lit "t1" ++ lit "_renderable.zip") = Some (zip_bytes zip_r)
         ∧ example_store !! (lit "t1" ++ lit "_downloadable.zip")
           = Some (zip_bytes zip_d)
         ∧ ∀ key, key ≠ lit "t1" ++ lit "_renderable.zip" →
                  key ≠ lit "t1" ++ lit "_downloadable.zip" →
                  example_store !! key = (∅ : gmap pystr blob) !! key).
Proof.
  assert (write_to_s3like example_depth (lit "t1") example_result true ∅
          = (example_store, Ok example_manifest)) as Hw by (vm_compute; reflexivity).
  split; [exact Hw|].
  exact (archive_key_and_upload example_depth (lit "t1") example_result true ∅ _ _ Hw).
Defined.

Lemma read_result_downloadable_only :
  NoDup (map fst downloadable_manifest)
  ∧ RemoteResult_load downloadable_manifest = Ok ()
  ∧ read_from_s3like example_depth downloadable_store downloadable_manifest
    = Ok {[ renderable := [];
            downloadable :=
              [ {| LocalOutput.title := lit "notes";
                   LocalOutput.media_type := lit "Markdown";
                   LocalOutput.data := PStr (lit "# hi") |} ] ]}.
Proof.
  assert (NoDup (map fst downloadable_manifest)) as Hnd by apply NoDup_singleton.
  assert (RemoteResult_load downloadable_manifest = Ok ()) as Hload by reflexivity.
  split; [exact Hnd|]. split; [exact Hload|].
  apply (proj2 (read_result_categories example_depth downloadable_store
                  downloadable_manifest Hnd Hload)).
  - reflexivity.
  - vm_compute. reflexivity.
Defined.

(** ** The further properties *)

Lemma manifest_passes_validation_example :
  write_to_s3like example_depth (lit "t1") example_result true ∅
  = (example_store, Ok example_manifest)
  ∧ RemoteResult_load example_manifest = Ok ()
  ∧ ∀ c entry e,
      (c, entry) ∈ example_manifest → e ∈ outputs entry →
      ∃ ser, get_serializer (RemoteOutput.media_type e) = Ok ser
             ∧ RemoteOutput.title e `prefix_of` RemoteOutput.filename e
             ∧ (lit "." ++ ext ser) `suffix_of` RemoteOutput.filename e.
Proof.
  assert (write_to_s3like example_depth (lit "t1") example_result true ∅
          = (example_store, Ok example_manifest)) as Hw by (vm_compute; reflexivity).
  split; [exact Hw|].
  exact (manifest_passes_validation example_depth (lit "t1") example_result true ∅ _ _ Hw).
Defined.

Lemma renderable_uploaded_missing_category :
  write_to_s3like example_depth (lit "t1") renderable_only true ∅
  = (<[archive_key (lit "t1") renderable := zip_bytes []]> ∅, Err MissingCategory)
  ∧ write_to_s3like example_depth (lit "t1") renderable_only false ∅
    = (∅, Err MissingCategory).
Proof.
  refine (renderable_uploaded_before_failure example_depth (lit "t1") renderable_only ∅ []
            ([], []) MissingCategory _ _ _ _); vm_compute; reflexivity.
Defined.

Lemma rewrite_replaces_example :
  write_to_s3like example_depth (lit "t1") other_result true ∅
  = (other_store, Ok (other_manifest (lit "t1")))
  ∧ map (λ x, (x.1, ziplocation x.2)) example_manifest
    = map (λ x, (x.1, ziplocation x.2)) (other_manifest (lit "t1")).
Proof.
  refine (rewrite_replaces_archives example_depth (lit "t1") example_result other_result
            ∅ example_store other_store example_manifest (other_manifest (lit "t1")) _ _);
    vm_compute; reflexivity.
Defined.

Lemma archive_members_colliding :
  Forall2 (λ o member,
             ∃ ser raw,
               get_serializer (LocalOutput.media_type o) = Ok ser
               ∧ serialize example_depth ser (LocalOutput.data o) = Ok raw
               ∧ member.1 = sanitize_filename (output_filename (LocalOutput.title o) ser)
               ∧ (raw = PBytes member.2 ∨ ∃ s, raw = PStr s ∧ str_encode s = Ok member.2))
          colliding_outputs [(lit "a.txt", lit "x"); (lit "a.txt", lit "y")].
Proof.
  apply (archive_members_follow_outputs example_depth colliding_outputs _
           (map entry_of colliding_outputs)).
  vm_compute. reflexivity.
Defined.

Lemma write_touches_own_keys_example :
  (write_to_s3like example_depth (lit "t1") renderable_only true broken_store).1
  !! lit "t2_renderable.zip"
  = broken_store !! lit "t2_renderable.zip"
  ∧ (write_to_s3like example_depth (lit "t1") renderable_only false broken_store).1
    = broken_store.
Proof.
  apply (write_touches_own_keys example_depth (lit "t1") renderable_only true broken_store
           (lit "t2_renderable.zip")).
  intros []; vm_compute; discriminate.
Defined.

Lemma read_frame_example :
  read_from_s3like example_depth example_store example_manifest
  = read_from_s3like example_depth
      (<[lit "t2_renderable.zip" := other_bytes []]> example_store) example_manifest.
Proof.
  apply (read_frame example_depth example_store
           (<[lit "t2_renderable.zip" := other_bytes []]> example_store) example_manifest).
  intros c entry Hin. unfold example_manifest in Hin.
  repeat (apply elem_of_cons in Hin as [[= -> ->]|Hin]);
    [vm_compute; reflexivity.. | by apply elem_of_nil in Hin].
Defined.

Lemma read_first_failure_not_zip :
  read_from_s3like example_depth broken_store stale_manifest = Err BadZipFile.
Proof.
  refine (read_first_failure example_depth broken_store [] _ renderable _ BadZipFile _ _ _).
  - vm_compute. reflexivity.
  - constructor.
  - vm_compute. reflexivity.
Defined.

Lemma deserialized_serializes_text :
  serialize example_depth (TextSerializer (lit "txt")) (PStr (lit "hi"))
  = Ok (PBytes (lit "hi")).
Proof.
  apply (deserialized_serializes example_depth example_depth (TextSerializer (lit "txt"))
           (lit "hi") (PStr (lit "hi"))).
  - intros e. discriminate.
  - vm_compute. reflexivity.
Defined.

Lemma identity_text_payload_png :
  ∃ gcsfs' rem_result b,
    write_to_s3like example_depth (lit "t1")
      (one_output (lit "logo") (lit "PNG") (PStr (lit "abc"))) true ∅
    = (gcsfs', Ok rem_result)
    ∧ str_encode (lit "abc") = Ok b
    ∧ read_from_s3like example_depth gcsfs' rem_result
      = Ok (one_output (lit "logo") (lit "PNG") (PBytes b)).
Proof.
  refine (identity_text_payload example_depth example_depth (lit "t1") (lit "logo")
            (lit "PNG") (lit "png") (lit "abc") ∅ _ _ _); vm_compute; reflexivity.
Defined.
